(** * Dashboards front end: the spans dataset adapter, the dashboard list
      manager and the custom-repository key expansion.

    The development embeds three TypeScript units:
    - [datasetConfig/spans] ([SpansConfig]): field options, the two option
      filters and the table request;
    - [manage/dashboardList] ([DashboardList]): duplicate, the quick menu and
      the pagination handler;
    - [customRepositories/utils] ([CustomRepositories]): [expandKeys].

    JavaScript objects used as dictionaries are finite maps ([gmap string _]);
    objects whose enumeration order is observed ([Object.values], lodash
    [forEach]) are association lists in enumeration order; optional
    properties are [option]s, [None] standing for an absent property. *)

From Stdlib Require Import ZArith String Ascii List Bool Lia.
From stdpp Require Import base option list strings pretty gmap fin_maps.

Local Open Scope string_scope.
Local Open Scope list_scope.

(** ** JavaScript values shared by the units *)

Module Js.

(** The values that travel through a query object of the router or of the
    request client. *)
Inductive QueryValue :=
| QUndefined
| QNumber (n : Z)
| QString (s : string)
| QList (xs : list string).

#[global] Instance QueryValue_eq_dec : EqDecision QueryValue.
Proof. solve_decision. Defined.

(** An optional argument stored as a property: the property exists, with the
    value [undefined] when the argument was not given. *)
Definition optional_number (x : option Z) : QueryValue :=
  match x with Some n => QNumber n | None => QUndefined end.

Definition optional_string (x : option string) : QueryValue :=
  match x with Some s => QString s | None => QUndefined end.

(** [`${x}`] of an optional string: an absent value prints as "undefined". *)
Definition template (x : option string) : string :=
  match x with
  | Some s => s
  | None => "undefined"
  end.

(** Truthiness of a string: only the empty string is falsy. *)
Definition truthy_string (s : string) : bool :=
  match s with
  | EmptyString => false
  | String _ _ => true
  end.

(** [{...a, ...b}]: the properties of [b] win over those of [a]. *)
Definition spread {V} (a b : gmap string V) : gmap string V := b ∪ a.

(** *** Numbers read from strings

    [Number(s)] follows the StringNumericLiteral grammar of ECMAScript:
    white space is trimmed, the empty string is 0, a decimal literal may have
    a sign, a fraction and an exponent, ["Infinity"] may have a sign, and the
    binary, octal and hexadecimal forms have none.  Anything else is [NaN].
    A literal is kept as its exact value [±digits·10^exponent]; rounding to a
    double only matters to this development where it decides a comparison
    with zero (see [le_zero]).  Strings are kept as their UTF-8 bytes, so
    the white space and the line terminators that are trimmed are byte
    sequences of one, two or three bytes. *)

Inductive JsNumber :=
| NaN
| Infinity (negative : bool)
| Decimal (negative : bool) (digits : N) (exponent : Z).

Definition zero : JsNumber := Decimal false 0 0.

(** The white space and line terminators of one byte: TAB, LF, VT, FF, CR
    and SP. *)
Definition is_whitespace (c : ascii) : bool :=
  let n := nat_of_ascii c in
  (n =? 9)%nat || (n =? 10)%nat || (n =? 11)%nat || (n =? 12)%nat
  || (n =? 13)%nat || (n =? 32)%nat.

(** Of two bytes: U+00A0 (no-break space). *)
Definition is_whitespace2 (a b : ascii) : bool :=
  (nat_of_ascii a =? 194)%nat && (nat_of_ascii b =? 160)%nat.

(** Of three bytes: U+1680, U+2000 to U+200A, the line and paragraph
    separators U+2028 and U+2029, U+202F, U+205F, U+3000 and the byte order
    mark U+FEFF. *)
Definition is_whitespace3 (a b c : ascii) : bool :=
  let '(x, y, z) := (nat_of_ascii a, nat_of_ascii b, nat_of_ascii c) in
  ((x =? 225) && (y =? 154) && (z =? 128))%nat
  || ((x =? 226) && (y =? 128)
      && (((128 <=? z) && (z <=? 138)) || (z =? 168) || (z =? 169)
          || (z =? 175)))%nat
  || ((x =? 226) && (y =? 129) && (z =? 159))%nat
  || ((x =? 227) && (y =? 128) && (z =? 128))%nat
  || ((x =? 239) && (y =? 187) && (z =? 191))%nat.

(** Drops the white space a list of bytes starts with; read [backwards] the
    list is the reversed string, and so are the bytes of a character. *)
Fixpoint trim_from (backwards : bool) (cs : list ascii) : list ascii :=
  match cs with
  | a :: cs1 =>
      if is_whitespace a then trim_from backwards cs1
      else
        match cs1 with
        | b :: cs2 =>
            if (if backwards then is_whitespace2 b a else is_whitespace2 a b)
            then trim_from backwards cs2
            else
              match cs2 with
              | c :: cs3 =>
                  if (if backwards then is_whitespace3 c b a
                      else is_whitespace3 a b c)
                  then trim_from backwards cs3
                  else cs
              | [] => cs
              end
        | [] => cs
        end
  | [] => []
  end.

Definition trim_start (cs : list ascii) : list ascii := trim_from false cs.

Definition trim (cs : list ascii) : list ascii :=
  rev (trim_from true (rev (trim_start cs))).

(** The value of a digit in a base up to 16. *)
Definition digit_of (base : N) (c : ascii) : option N :=
  let n := N_of_ascii c in
  let d :=
    if (48 <=? n)%N && (n <=? 57)%N then Some (n - 48)%N
    else if (97 <=? n)%N && (n <=? 102)%N then Some (n - 87)%N
    else if (65 <=? n)%N && (n <=? 70)%N then Some (n - 55)%N
    else None in
  match d with
  | Some v => if (v <? base)%N then Some v else None
  | None => None
  end.

(** Reads the longest prefix of digits: the value accumulated, the number of
    digits read, and the rest of the input. *)
Fixpoint read_digits (base : N) (cs : list ascii) (acc : N) (count : nat)
  : N * nat * list ascii :=
  match cs with
  | c :: cs' =>
      match digit_of base c with
      | Some d => read_digits base cs' (acc * base + d)%N (S count)
      | None => (acc, count, cs)
      end
  | [] => (acc, count, [])
  end.

(** An optional sign: whether it is a minus, and the rest. *)
Definition read_sign (cs : list ascii) : bool * list ascii :=
  match cs with
  | "+"%char :: cs' => (false, cs')
  | "-"%char :: cs' => (true, cs')
  | _ => (false, cs)
  end.

(** The exponent part, which must end the literal; none stands for 0. *)
Definition read_exponent (cs : list ascii) : option Z :=
  match cs with
  | [] => Some 0%Z
  | c :: cs' =>
      if Ascii.eqb c "e" || Ascii.eqb c "E" then
        let '(neg, cs'') := read_sign cs' in
        match read_digits 10 cs'' 0 0 with
        | (n, S _, []) => Some (if neg then - Z.of_N n else Z.of_N n)%Z
        | _ => None
        end
      else None
  end.

(** An unsigned decimal literal: digits and decimal exponent. *)
Definition read_unsigned_decimal (cs : list ascii) : option (N * Z) :=
  let '(i, ci, rest) := read_digits 10 cs 0 0 in
  match rest with
  | "."%char :: rest' =>
      let '(f, cf, rest'') := read_digits 10 rest' i 0 in
      match (ci + cf)%nat with
      | O => None
      | S _ =>
          match read_exponent rest'' with
          | Some e => Some (f, (e - Z.of_nat cf)%Z)
          | None => None
          end
      end
  | _ =>
      match ci with
      | O => None
      | S _ =>
          match read_exponent rest with
          | Some e => Some (i, e)
          | None => None
          end
      end
  end.

(** A binary, octal or hexadecimal integer literal. *)
Definition read_non_decimal (cs : list ascii) : option N :=
  match cs with
  | "0"%char :: p :: cs' =>
      let base :=
        if Ascii.eqb p "x" || Ascii.eqb p "X" then Some 16%N
        else if Ascii.eqb p "o" || Ascii.eqb p "O" then Some 8%N
        else if Ascii.eqb p "b" || Ascii.eqb p "B" then Some 2%N
        else None in
      match base with
      | Some b =>
          match read_digits b cs' 0 0 with
          | (n, S _, []) => Some n
          | _ => None
          end
      | None => None
      end
  | _ => None
  end.

Definition Number_of_string (s : string) : JsNumber :=
  match trim (list_ascii_of_string s) with
  | [] => zero
  | cs =>
      match read_non_decimal cs with
      | Some n => Decimal false n 0
      | None =>
          let '(neg, cs') := read_sign cs in
          if String.eqb (string_of_list_ascii cs') "Infinity" then Infinity neg
          else match read_unsigned_decimal cs' with
               | Some (d, e) => Decimal neg d e
               | None => NaN
               end
      end
  end.

(** A positive literal rounds to the double 0 when it is at most half the
    least positive double, 2^-1075 (the tie goes to the even 0). *)
Definition rounds_to_zero (digits : N) (exponent : Z) : bool :=
  (digits =? 0)%N
  || ((exponent <? 0)%Z
      && (Z.of_N digits * 2 ^ 1075 <=? 10 ^ (- exponent))%Z).

(** [x <= 0] on numbers: false for [NaN]. *)
Definition le_zero (x : JsNumber) : bool :=
  match x with
  | NaN => false
  | Infinity negative => negative
  | Decimal negative digits exponent =>
      negative || rounds_to_zero digits exponent
  end.

(** [parseInt(s, 10)]: leading white space, an optional sign and the longest
    prefix of decimal digits; [None] is [NaN].  As with the literals above,
    the number is given by the integer that the digits write and is the
    double nearest to it. *)
Definition parseInt10 (s : string) : option Z :=
  let '(neg, cs) := read_sign (trim_start (list_ascii_of_string s)) in
  match read_digits 10 cs 0 0 with
  | (n, S _, _) => Some (if neg then - Z.of_N n else Z.of_N n)%Z
  | _ => None
  end.

(** [s.split(sep)] for a separator of one character. *)
Fixpoint split_on (sep : ascii) (s : string) : list string :=
  match s with
  | EmptyString => [EmptyString]
  | String c s' =>
      if Ascii.eqb c sep then EmptyString :: split_on sep s'
      else match split_on sep s' with
           | part :: parts => String c part :: parts
           | [] => [String c EmptyString]
           end
  end.

(** *** Objects as lists of properties

    Where the order of the properties is observed, an object is the list of
    its properties in enumeration order. *)

(** [props[key] = v], also [{...props, [key]: v}]: an existing property
    keeps its place, a new one comes last. *)
Fixpoint set_prop {V} (props : list (string * V)) (key : string) (v : V)
  : list (string * V) :=
  match props with
  | [] => [(key, v)]
  | (k, x) :: props' =>
      if String.eqb k key then (k, v) :: props'
      else (k, x) :: set_prop props' key v
  end.

(** [{...a, ...b}] *)
Definition spread_props {V} (a b : list (string * V)) : list (string * V) :=
  fold_left (fun acc kv => set_prop acc kv.1 kv.2) b a.

(** The first property named [k] of a list of properties. *)
Fixpoint assoc {V} (k : string) (props : list (string * V)) : option V :=
  match props with
  | [] => None
  | (k', v) :: props' => if String.eqb k' k then Some v else assoc k props'
  end.

(** *** Strings of decimal digits *)

Definition is_decimal_digit (c : ascii) : bool :=
  (48 <=? N_of_ascii c)%N && (N_of_ascii c <=? 57)%N.

Definition all_digits (s : string) : bool :=
  forallb is_decimal_digit (list_ascii_of_string s).

(** The number that a string of decimal digits writes. *)
Definition digits_value (s : string) : N :=
  fold_left (fun acc c => (acc * 10 + (N_of_ascii c - 48))%N)
    (list_ascii_of_string s) 0%N.

(** The character occurs in the string. *)
Definition has_char (c : ascii) (s : string) : bool :=
  existsb (Ascii.eqb c) (list_ascii_of_string s).

(** *** Properties of the object operations *)

Lemma lookup_spread {V} (a b : gmap string V) k :
  spread a b !! k = match b !! k with Some v => Some v | None => a !! k end.
Proof.
  unfold spread. destruct (b !! k) as [v|] eqn:Hb.
  - by apply lookup_union_Some_l.
  - by rewrite lookup_union_r.
Qed.

Lemma assoc_set_prop {V} k (props : list (string * V)) key v :
  assoc k (set_prop props key v) =
  if String.eqb key k then Some v else assoc k props.
Proof.
  induction props as [|[k' x] props IH]; simpl; [done|].
  destruct (String.eqb_spec k' key) as [->|Hne]; simpl.
  - by destruct (String.eqb key k).
  - rewrite IH. destruct (String.eqb_spec key k) as [->|Hne'].
    + by apply String.eqb_neq in Hne as ->.
    + done.
Qed.

Lemma assoc_None {V} k (props : list (string * V)) :
  assoc k props = None <-> k ∉ props.*1.
Proof.
  induction props as [|[k' x] props IH]; simpl.
  - split; [intros _; apply not_elem_of_nil|done].
  - rewrite not_elem_of_cons.
    destruct (String.eqb_spec k' k) as [->|Hne]; [by split; [|intros []]|].
    rewrite IH. split; [by split|by intros []].
Qed.

Lemma set_prop_keys {V} (props : list (string * V)) key v :
  (set_prop props key v).*1 =
  if bool_decide (key ∈ props.*1) then props.*1 else props.*1 ++ [key].
Proof.
  induction props as [|[k' x] props IH]; [done|].
  cbn [set_prop]. rewrite fmap_cons. cbn [fst].
  destruct (String.eqb_spec k' key) as [->|Hne].
  - rewrite fmap_cons. cbn [fst].
    rewrite bool_decide_true; [done|]. apply elem_of_cons; by left.
  - rewrite fmap_cons, IH. cbn [fst]. case_bool_decide as Hin.
    + rewrite bool_decide_true; [done|]. apply elem_of_cons; by right.
    + rewrite bool_decide_false; [done|].
      rewrite elem_of_cons. intros [->|?]; done.
Qed.

Lemma set_prop_NoDup {V} (props : list (string * V)) key v :
  NoDup props.*1 -> NoDup (set_prop props key v).*1.
Proof.
  intros Hnd. rewrite set_prop_keys. case_bool_decide as Hin; [done|].
  apply NoDup_app. split; [done|]. split.
  - intros k Hk ->%list_elem_of_singleton. done.
  - apply NoDup_singleton.
Qed.

Lemma set_prop_Forall {V} (P : string * V -> Prop) props key v :
  Forall P props -> P (key, v) -> (forall x, P (key, x) -> P (key, v)) ->
  Forall P (set_prop props key v).
Proof.
  intros Hall Hnew _. induction Hall as [|[k' x] props Hx Hall IH]; simpl.
  - by constructor.
  - destruct (String.eqb_spec k' key) as [->|Hne]; constructor; done.
Qed.

Lemma assoc_Some_elem {V} k (props : list (string * V)) v :
  assoc k props = Some v -> (k, v) ∈ props.
Proof.
  induction props as [|[k' x] props IH]; simpl; [done|].
  destruct (String.eqb_spec k' k) as [->|Hne].
  - intros [= ->]. apply elem_of_cons; by left.
  - intros Hk. apply elem_of_cons; right. by apply IH.
Qed.

Lemma elem_of_set_prop {V} (props : list (string * V)) key v x :
  x ∈ set_prop props key v -> x = (key, v) \/ x ∈ props.
Proof.
  induction props as [|[k' y] props IH]; simpl.
  - intros ->%list_elem_of_singleton. by left.
  - destruct (String.eqb_spec k' key) as [->|Hne].
    + intros [->|Hin]%elem_of_cons; [by left|].
      right. apply elem_of_cons; by right.
    + intros [->|Hin]%elem_of_cons.
      * right. apply elem_of_cons; by left.
      * destruct (IH Hin) as [->|Hx]; [by left|].
        right. apply elem_of_cons; by right.
Qed.


(** *** Properties of splitting and of numbers read from digits *)

Lemma split_on_no_sep sep s :
  has_char sep s = false -> split_on sep s = [s].
Proof.
  unfold has_char. induction s as [|c s IH]; simpl; [done|].
  rewrite Ascii.eqb_sym. destruct (Ascii.eqb c sep); simpl; [done|].
  intros Hs. by rewrite (IH Hs).
Qed.

Lemma split_on_app_sep sep a b :
  has_char sep a = false ->
  split_on sep (a +:+ String sep b) = a :: split_on sep b.
Proof.
  unfold has_char. induction a as [|c a IH]; simpl.
  - intros _. by rewrite Ascii.eqb_refl.
  - rewrite Ascii.eqb_sym. destruct (Ascii.eqb c sep); simpl; [done|].
    intros Ha. by rewrite (IH Ha).
Qed.

Lemma split_on_head sep s :
  split_on sep s !! 0%nat = Some (hd "" (split_on sep s)).
Proof.
  destruct s as [|c s]; simpl; [done|].
  destruct (Ascii.eqb c sep); [done|]. by destruct (split_on sep s).
Qed.

Lemma decimal_digit_facts c :
  is_decimal_digit c = true ->
  digit_of 10 c = Some (N_of_ascii c - 48)%N /\
  is_whitespace c = false /\
  read_sign [c] = (false, [c]) /\
  Ascii.eqb c "." = false /\ Ascii.eqb c "I" = false /\
  Ascii.eqb c "-" = false /\ Ascii.eqb ":" c = false /\
  Ascii.eqb c "x" || Ascii.eqb c "X" = false /\
  Ascii.eqb c "o" || Ascii.eqb c "O" = false /\
  Ascii.eqb c "b" || Ascii.eqb c "B" = false.
Proof.
  destruct c as [[] [] [] [] [] [] [] []]; intros H; try discriminate H;
    by repeat split.
Qed.

Lemma read_digits_all cs acc count :
  forallb is_decimal_digit cs = true ->
  read_digits 10 cs acc count =
  (fold_left (fun acc c => (acc * 10 + (N_of_ascii c - 48))%N) cs acc,
   (count + length cs)%nat, []).
Proof.
  revert acc count. induction cs as [|c cs IH]; intros acc count Hall; simpl.
  - by rewrite Nat.add_0_r.
  - simpl in Hall. apply andb_true_iff in Hall as [Hc Hall].
    destruct (decimal_digit_facts c Hc) as [-> _].
    rewrite IH by done. by rewrite Nat.add_succ_r.
Qed.

Lemma digit_not_whitespace c x y :
  is_decimal_digit c = true ->
  is_whitespace c = false /\
  is_whitespace2 c x = false /\ is_whitespace2 x c = false /\
  is_whitespace3 c x y = false /\ is_whitespace3 x y c = false.
Proof.
  unfold is_whitespace2, is_whitespace3.
  generalize (nat_of_ascii x) (nat_of_ascii y). intros n m.
  destruct c as [[] [] [] [] [] [] [] []]; intros H; try discriminate H;
    cbn; rewrite ?andb_false_r; by repeat split.
Qed.

Lemma trim_from_digit backwards d ds :
  is_decimal_digit d = true -> trim_from backwards (d :: ds) = d :: ds.
Proof.
  intros Hd. cbn [trim_from].
  destruct (digit_not_whitespace d d d Hd) as (-> & _).
  destruct ds as [|x [|y ds]]; [done| |].
  - destruct (digit_not_whitespace d x x Hd) as (_ & -> & -> & _).
    by destruct backwards.
  - destruct (digit_not_whitespace d x y Hd) as (_ & -> & _ & -> & _).
    destruct (digit_not_whitespace d y x Hd) as (_ & _ & _ & _ & ->).
    destruct (digit_not_whitespace d x x Hd) as (_ & _ & -> & _).
    by destruct backwards.
Qed.

Lemma trim_digits cs :
  forallb is_decimal_digit cs = true -> trim cs = cs.
Proof.
  intros Hall. unfold trim, trim_start.
  assert (Hstart : forall b ds, forallb is_decimal_digit ds = true ->
                     trim_from b ds = ds).
  { intros b [|d ds]; [done|]. simpl forallb. intros [Hd _]%andb_true_iff.
    by apply trim_from_digit. }
  rewrite (Hstart false cs Hall), Hstart; [apply rev_involutive|].
  apply forallb_forall. intros d Hd%in_rev.
  by apply (proj1 (forallb_forall _ _) Hall).
Qed.

Lemma read_non_decimal_digits cs :
  forallb is_decimal_digit cs = true -> read_non_decimal cs = None.
Proof.
  destruct cs as [|c [|p cs']]; [done| |].
  - intros _. by destruct c as [[] [] [] [] [] [] [] []].
  - intros Hall. simpl in Hall.
    apply andb_true_iff in Hall as [_ Hall].
    apply andb_true_iff in Hall as [Hp _].
    destruct (decimal_digit_facts p Hp) as (_ & _ & _ & _ & _ & _ & _ & Hx & Ho & Hb).
    unfold read_non_decimal.
    destruct c as [[] [] [] [] [] [] [] []]; try reflexivity.
    by rewrite Hx, Ho, Hb.
Qed.

(** A non-empty string of decimal digits is read as the number it writes. *)
Lemma Number_of_string_digits s :
  s <> "" -> all_digits s = true ->
  Number_of_string s = Decimal false (digits_value s) 0.
Proof.
  unfold all_digits, digits_value, Number_of_string.
  intros Hne Hall. rewrite (trim_digits _ Hall).
  destruct (list_ascii_of_string s) as [|c cs] eqn:Hs.
  { destruct s; [done|discriminate Hs]. }
  rewrite (read_non_decimal_digits _ Hall).
  pose proof Hall as Hall'. simpl in Hall'.
  apply andb_true_iff in Hall' as [Hc _].
  destruct (decimal_digit_facts c Hc) as (_ & _ & Hsign & _ & HI & _).
  assert (Hsign' : read_sign (c :: cs) = (false, c :: cs)).
  { unfold read_sign in *. destruct c as [[] [] [] [] [] [] [] []];
      try reflexivity; discriminate Hsign. }
  rewrite Hsign'.
  assert (HInf : String.eqb (string_of_list_ascii (c :: cs)) "Infinity" = false).
  { simpl. by rewrite HI. }
  rewrite HInf. unfold read_unsigned_decimal.
  rewrite (read_digits_all _ _ _ Hall). simpl. reflexivity.
Qed.

Lemma le_zero_digits s :
  s <> "" -> all_digits s = true ->
  le_zero (Number_of_string s) = (digits_value s =? 0)%N.
Proof.
  intros Hne Hall. rewrite (Number_of_string_digits s Hne Hall).
  unfold le_zero, rounds_to_zero. simpl. by rewrite orb_false_r.
Qed.

Lemma all_digits_no_colon s : all_digits s = true -> has_char ":" s = false.
Proof.
  unfold all_digits, has_char.
  induction (list_ascii_of_string s) as [|c cs IH]; [done|].
  cbn [existsb forallb]. intros [Hc Hall]%andb_true_iff.
  destruct (decimal_digit_facts c Hc) as (_ & _ & _ & _ & _ & _ & -> & _).
  by apply IH.
Qed.

Lemma pretty_N_char_digit x : is_decimal_digit (pretty_N_char x) = true.
Proof. unfold pretty_N_char. by repeat case_match. Qed.

Lemma pretty_N_go_digits x s :
  all_digits s = true -> all_digits (pretty_N_go x s) = true.
Proof.
  revert s. induction (N.lt_wf_0 x) as [x _ IH]; intros s Hs.
  assert (x = 0 \/ 0 < x)%N as [->|Hpos] by lia.
  - by rewrite pretty_N_go_0.
  - rewrite pretty_N_go_step by done. apply IH; [by apply N.div_lt|].
    unfold all_digits in *. cbn [list_ascii_of_string forallb].
    by rewrite pretty_N_char_digit, Hs.
Qed.

(** The decimal string of a natural number is made of digits. *)
Lemma pretty_nat_digits (n : nat) : all_digits (pretty n) = true.
Proof.
  unfold pretty, pretty_nat, pretty, pretty_N.
  case_decide; [done|]. by apply pretty_N_go_digits.
Qed.

(** String append, unfolded one character at a time. *)
Lemma append_cons c s t : String c s +:+ t = String c (s +:+ t).
Proof. reflexivity. Qed.

Lemma append_nil_l s : "" +:+ s = s.
Proof. reflexivity. Qed.

(** Two strings of digits followed by a dash: the digits are read back. *)
Lemma digits_dash_inj d1 d2 a b :
  all_digits d1 = true -> all_digits d2 = true ->
  d1 +:+ "-" +:+ a = d2 +:+ "-" +:+ b -> d1 = d2 /\ a = b.
Proof.
  unfold all_digits. revert d2.
  induction d1 as [|c d1 IH]; intros [|c' d2];
    cbn [list_ascii_of_string forallb]; intros H1 H2 Heq;
    rewrite ?append_cons, ?append_nil_l in Heq.
  - by injection Heq as ->.
  - apply andb_true_iff in H2 as [Hc _]. injection Heq as <- _.
    discriminate Hc.
  - apply andb_true_iff in H1 as [Hc _]. injection Heq as -> _.
    discriminate Hc.
  - apply andb_true_iff in H1 as [_ H1]. apply andb_true_iff in H2 as [_ H2].
    injection Heq as -> Heq.
    by destruct (IH d2 H1 H2 Heq) as [-> ->].
Qed.

(** Two strings free of a separator, each followed by the separator: the
    parts before and after it are read back. *)
Lemma append_sep_inj sep a1 a2 b1 b2 :
  has_char sep a1 = false -> has_char sep a2 = false ->
  a1 +:+ String sep b1 = a2 +:+ String sep b2 -> a1 = a2 /\ b1 = b2.
Proof.
  unfold has_char. revert a2.
  induction a1 as [|c a1 IH]; intros [|c' a2];
    cbn [list_ascii_of_string existsb]; intros H1 H2 Heq;
    rewrite ?append_cons, ?append_nil_l in Heq.
  - by injection Heq as ->.
  - apply orb_false_iff in H2 as [Hc _]. injection Heq as <- _.
    by rewrite Ascii.eqb_refl in Hc.
  - apply orb_false_iff in H1 as [Hc _]. injection Heq as -> _.
    by rewrite Ascii.eqb_refl in Hc.
  - apply orb_false_iff in H1 as [_ H1]. apply orb_false_iff in H2 as [_ H2].
    injection Heq as -> Heq.
    by destruct (IH a2 H1 H2 Heq) as [-> ->].
Qed.

End Js.


(** ** Types shared by the units *)

Module Types.

Record Organization := { slug : string; features : list string }.

End Types.

(** ** Stores of shared objects

    Where a caller keeps references to the objects it passes, a function is
    written over a store: a finite map from locations to objects.  A
    computation takes a store and gives a result and the store after it, or
    [None] when it throws. *)

Module Store.

Abbreviation loc := positive (only parsing).

Section Computations.

Context {O : Type}.

Definition Heap (A : Type) : Type := gmap loc O -> option (A * gmap loc O).

#[global] Instance Heap_ret : MRet Heap := fun A x h => Some (x, h).
#[global] Instance Heap_bind : MBind Heap :=
  fun A B k m h =>
    match m h with
    | Some (x, h') => k x h'
    | None => None
    end.

(** A thrown exception. *)
Definition fail {A} : Heap A := fun _ => None.

(** A new object: it takes a location that the store does not use. *)
Definition alloc (o : O) : Heap loc :=
  fun h => let l := fresh (dom h) in Some (l, <[l := o]> h).

Definition read (l : loc) : Heap O :=
  fun h => match h !! l with Some o => Some (o, h) | None => None end.

(** An assignment to the object at [l], which must exist. *)
Definition write (l : loc) (o : O) : Heap unit :=
  fun h => match h !! l with Some _ => Some (tt, <[l := o]> h) | None => None end.

Fixpoint foldM {A B} (f : B -> A -> Heap B) (xs : list A) (acc : B) : Heap B :=
  match xs with
  | [] => mret acc
  | x :: xs' => acc' ← f acc x; foldM f xs' acc'
  end.

(** The store [h'] has every object of [h], unchanged. *)
Definition preserves (h h' : gmap loc O) : Prop :=
  forall l o, h !! l = Some o -> h' !! l = Some o.

(** A computation that never changes an object of the store it starts
    from. *)
Definition frame_preserving {A} (m : Heap A) : Prop :=
  forall h x h', m h = Some (x, h') -> preserves h h'.

(** A computation that returns from [h], leaves the objects of [h] as they
    are and ends in a result and a store that satisfy [Q]. *)
Definition returns {A} (m : Heap A) (h : gmap loc O)
    (Q : A -> gmap loc O -> Prop) : Prop :=
  exists x h', m h = Some (x, h') /\ preserves h h' /\ Q x h'.

Lemma preserves_refl h : preserves h h.
Proof. by intros l o. Qed.

Lemma preserves_trans h1 h2 h3 :
  preserves h1 h2 -> preserves h2 h3 -> preserves h1 h3.
Proof. intros H12 H23 l o Hl. by apply H23, H12. Qed.

Lemma fresh_loc_unused (h : gmap loc O) : h !! fresh (dom h) = None.
Proof. apply not_elem_of_dom, is_fresh. Qed.

Lemma preserves_insert_unused (h : gmap loc O) l o :
  h !! l = None -> preserves h (<[l := o]> h).
Proof.
  intros Hl l' o' Hl'. rewrite lookup_insert_ne; [done|].
  intros <-. by rewrite Hl in Hl'.
Qed.

Lemma bind_Some {A B} (m : Heap A) (k : A -> Heap B) h y h'' :
  (m ≫= k) h = Some (y, h'') <->
  exists x h', m h = Some (x, h') /\ k x h' = Some (y, h'').
Proof.
  unfold mbind, Heap_bind. destruct (m h) as [[x h']|].
  - split; [eauto|]. by intros (? & ? & [= <- <-] & ?).
  - split; [done|]. by intros (? & ? & ? & ?).
Qed.

Lemma frame_ret {A} (x : A) : frame_preserving (mret x : Heap A).
Proof. intros h y h' [= <- <-]. apply preserves_refl. Qed.

Lemma frame_fail {A} : frame_preserving (@fail A).
Proof. by intros h y h'. Qed.

Lemma frame_alloc o : frame_preserving (alloc o).
Proof.
  intros h l h' [= <- <-]. apply preserves_insert_unused, fresh_loc_unused.
Qed.

Lemma frame_read l : frame_preserving (read l).
Proof.
  intros h o h'. unfold read. destruct (h !! l); [|done].
  intros [= <- <-]. apply preserves_refl.
Qed.

Lemma frame_bind {A B} (m : Heap A) (k : A -> Heap B) :
  frame_preserving m -> (forall x, frame_preserving (k x)) ->
  frame_preserving (m ≫= k).
Proof.
  intros Hm Hk h y h'' (x & h' & Hrun & Hrest)%bind_Some.
  eapply preserves_trans; [by eapply Hm|by eapply Hk].
Qed.

Lemma frame_foldM {A B} (f : B -> A -> Heap B) xs acc :
  (forall b x, frame_preserving (f b x)) -> frame_preserving (foldM f xs acc).
Proof.
  intros Hf. revert acc. induction xs as [|x xs IH]; intros acc; simpl.
  - apply frame_ret.
  - apply frame_bind; [apply Hf|apply IH].
Qed.

Lemma returns_ret {A} (x : A) h (Q : A -> gmap loc O -> Prop) :
  Q x h -> returns (mret x) h Q.
Proof. intros HQ. exists x, h. split; [done|]. split; [apply preserves_refl|done]. Qed.

Lemma returns_bind {A B} (m : Heap A) (k : A -> Heap B) h
    (P : A -> gmap loc O -> Prop) (Q : B -> gmap loc O -> Prop) :
  returns m h P ->
  (forall x h1, preserves h h1 -> P x h1 -> returns (k x) h1 Q) ->
  returns (m ≫= k) h Q.
Proof.
  intros (x & h1 & Hm & Hpres & HP) Hk.
  destruct (Hk x h1 Hpres HP) as (y & h2 & Hrun & Hpres' & HQ).
  exists y, h2. split; [|split; [by eapply preserves_trans|done]].
  apply bind_Some. eauto.
Qed.

Lemma returns_alloc o h (Q : loc -> gmap loc O -> Prop) :
  (forall l, h !! l = None -> Q l (<[l := o]> h)) -> returns (alloc o) h Q.
Proof.
  intros HQ. exists (fresh (dom h)), (<[fresh (dom h) := o]> h).
  split; [done|].
  split; [apply preserves_insert_unused, fresh_loc_unused|].
  apply HQ, fresh_loc_unused.
Qed.

Lemma returns_read l o h (Q : O -> gmap loc O -> Prop) :
  h !! l = Some o -> Q o h -> returns (read l) h Q.
Proof.
  intros Hl HQ. exists o, h. unfold read. rewrite Hl.
  split; [done|]. split; [apply preserves_refl|done].
Qed.

Lemma returns_read_eq l o h :
  h !! l = Some o -> returns (read l) h (fun x h' => x = o /\ h' = h).
Proof. intros Hl. by apply (returns_read l o). Qed.

End Computations.

Create HintDb frame discriminated.
#[export] Hint Resolve frame_ret frame_fail frame_alloc frame_read : frame.

Ltac frame_step :=
  first [ apply frame_bind; [|intros ?]
        | apply frame_foldM; intros ? ?
        | match goal with
          | |- frame_preserving (match ?x with _ => _ end) => destruct x
          end
        | solve [auto with frame] ].

End Store.

(** ** The spans dataset adapter ([datasetConfig/spans]) *)

Module SpansConfig.
Import Js Types Store.

(** *** Data model *)

(** The kinds of a selectable field value; the adapter itself only builds
    [TAG] options, the base catalog holds the [FUNCTION] ones. *)
Inductive FieldValueKind := TAG | FUNCTION | FIELD.

Record AggregateParameter := {
  param_kind : string;
  columnTypes : list string;
  defaultValue : string;
  required : bool }.

Record Aggregation := {
  isSortable : bool;
  outputType : option string;
  parameters : list AggregateParameter }.

(** [option.value.meta].  A property that the object does not have is [None]:
    ['dataType' in meta] is [is_Some (dataType meta)].  The [unknown] flag is
    optional, so an absent one and an undefined one are both [None]. *)
Record Meta := {
  name : string;
  dataType : option string;
  unknown : option bool;
  meta_parameters : option (list AggregateParameter) }.

Record FieldValue := { kind : FieldValueKind; meta : Meta }.

Record FieldValueOption := { label : string; value : FieldValue }.

(** A tag of the catalog; [kind] is optional in the source type. *)
Record Tag := { tag_key : string; tag_name : string; tag_kind : option string }.

(** [TagCollection] is a record keyed by strings; [Object.values] observes
    its enumeration order, so it is kept as the list of its entries. *)
Definition TagCollection := list (string * Tag).

Definition Object_values {V} (o : list (string * V)) : list V := map snd o.

Record CustomMeasurement := { cm_key : string; cm_name : string }.
Definition CustomMeasurementCollection := list (string * CustomMeasurement).

Record PageFilters := {
  projects : list Z;
  environments : list string;
  period : option string }.

Record WidgetQuery := {
  wq_name : string;
  fields : list string;
  columns : list string;
  fieldAliases : list string;
  aggregates : list string;
  conditions : string;
  orderby : string }.

Definition DEFAULT_WIDGET_QUERY : WidgetQuery := {|
  wq_name := "";
  fields := ["span.op"; "avg(span.duration)"];
  columns := ["span.op"];
  fieldAliases := [];
  aggregates := ["avg(span.duration)"];
  conditions := "";
  orderby := "-avg(span.duration)" |}.

(** *** The two option filters *)

(** [filterTableOptions]: numeric tags are left out of the primary options. *)
Definition filterTableOptions (option : FieldValueOption) : bool :=
  match dataType (meta (value option)) with
  | Some dt => negb (String.eqb dt "number")
  | None => true
  end.

(** [filterAggregateParams]: unknown values pass; otherwise a declared data
    type must be numeric; an option with no declared data type passes. *)
Definition filterAggregateParams (option : FieldValueOption) : bool :=
  if match unknown (meta (value option)) with Some u => u | None => false end
  then true
  else match dataType (meta (value option)) with
       | Some dt => String.eqb dt "number"
       | None => true
       end.

(** What the specification's wording calls the three situations of an
    option. *)
Definition declares_numeric (o : FieldValueOption) : Prop :=
  dataType (meta (value o)) = Some "number".

Definition flagged_unknown (o : FieldValueOption) : Prop :=
  unknown (meta (value o)) = Some true.

Definition declares_no_dataType (o : FieldValueOption) : Prop :=
  dataType (meta (value o)) = None.

(** The option built by the base catalog for an aggregate function: it has
    parameters, no data type and no unknown flag. *)
Definition function_option (func : string) (ps : list AggregateParameter)
  : FieldValueOption :=
  {| label := func +:+ "()";
     value := {| kind := FUNCTION;
                 meta := {| name := func; dataType := None; unknown := None;
                            meta_parameters := Some ps |} |} |}.

(** *** Field options and the table request *)

Record RetryOptions := { statusCodes : list Z; tries : nat }.

Record DiscoverQueryOptions := { retry : option RetryOptions }.

(** The call handed to the shared query client: [doDiscoverQuery(api, url,
    params, options)]. *)
Record DiscoverQueryCall (Client : Type) := {
  call_api : Client;
  call_url : string;
  call_params : gmap string QueryValue;
  call_options : DiscoverQueryOptions }.
Arguments call_api {Client} _.
Arguments call_url {Client} _.
Arguments call_params {Client} _.
Arguments call_options {Client} _.

(** [toArray(x)] of a value that is not an array. *)
Definition toArray (x : string) : list string := [x].

(** [tag.kind === 'tag'] *)
Definition is_plain_tag (t : Tag) : bool :=
  match tag_kind t with
  | Some k => String.eqb k "tag"
  | None => false
  end.

(** The property name [`${tag.kind}:${tag.key}`]. *)
Definition tag_option_key (t : Tag) : string :=
  template (tag_kind t) +:+ ":" +:+ tag_key t.

(** The option object built for one tag by the reducer. *)
Definition tag_option (t : Tag) : FieldValueOption :=
  {| label := tag_name t;
     value := {| kind := TAG;
                 meta := {| name := tag_key t;
                            dataType :=
                              Some (if is_plain_tag t then "string" else "number");
                            unknown := None;
                            meta_parameters := None |} |} |}.

Inductive DisplayType := AREA | BAR | BIG_NUMBER | LINE | TABLE | TOP_N.

(** The contract of a dataset adapter, for the members whose types are part
    of this unit (the renderers, the search bar, the sort options and the
    two response transforms are components and functions of other
    modules).  The three series filters take no argument and return a
    predicate. *)
Module Config.
Record DatasetConfig (Client Widget OnDemandControlContext MEPState : Type) := {
  defaultWidgetQuery : WidgetQuery;
  enableEquations : bool;
  filterSeriesSortOptions : unit -> FieldValueOption -> bool;
  filterYAxisAggregateParams : unit -> FieldValueOption -> bool;
  filterYAxisOptions : unit -> FieldValueOption -> bool;
  getTableFieldOptions :
    Organization -> option TagCollection ->
    option CustomMeasurementCollection -> gmap string FieldValueOption;
  getGroupByFieldOptions :
    Organization -> option TagCollection ->
    option CustomMeasurementCollection -> gmap string FieldValueOption;
  supportedDisplayTypes : list DisplayType;
  getTableRequest :
    Client -> Widget -> WidgetQuery -> Organization -> PageFilters ->
    option OnDemandControlContext -> option Z -> option string ->
    option string -> option MEPState -> DiscoverQueryCall Client;
  filterTableOptions : FieldValueOption -> bool;
  filterAggregateParams : FieldValueOption -> bool }.
End Config.

Section Adapter.

(** Collaborators of the unit that live in other modules of the repository:
    the list of aggregates open to exploration, the generic builder of field
    options, the dataset identifier, the event view of a widget query and its
    query-string object, and the opaque types the adapter only passes on. *)
Variable ALLOWED_EXPLORE_VISUALIZE_AGGREGATES : list string.
Variable generateFieldOptions :
  Organization -> list string -> list string -> gmap string Aggregation ->
  gmap string FieldValueOption.
Variable SPANS_EAP : string.
Variable EventView : Type.
Variable eventViewFromWidget : string -> WidgetQuery -> PageFilters -> EventView.
Variable generateQueryStringObject : EventView -> gmap string QueryValue.
Variables Client Widget OnDemandControlContext MEPState : Type.

(** [acc[aggregate] = {...}] on the accumulator of the reduction, a plain
    object: the assignment makes or replaces the own property named
    [aggregate], except for the name [__proto__], whose assignment goes to
    the setter of [Object.prototype], gives the accumulator the new object as
    its prototype and makes no property.  The map holds the own properties
    of the accumulator. *)
Definition EAP_AGGREGATIONS : gmap string Aggregation :=
  fold_left
    (fun acc aggregate =>
       let aggregation :=
         {| isSortable := true;
            outputType := None;
            parameters :=
              [ {| param_kind := "column";
                   columnTypes := ["number"; "string"];
                   defaultValue := "span.duration";
                   required := true |} ] |} in
       if String.eqb aggregate "__proto__" then acc
       else <[aggregate := aggregation]> acc)
    ALLOWED_EXPLORE_VISUALIZE_AGGREGATES ∅.

(** The reducer over [Object.values(tags ?? {})]: every step spreads the
    accumulator into a new object and sets the tag's property last. *)
Definition spanTags (tags : option TagCollection) : gmap string FieldValueOption :=
  fold_left
    (fun acc tag => <[tag_option_key tag := tag_option tag]> acc)
    (Object_values (default [] tags)) ∅.

Definition getEventsTableFieldOptions
    (organization : Organization) (tags : option TagCollection)
    (_customMeasurements : option CustomMeasurementCollection)
  : gmap string FieldValueOption :=
  let baseFieldOptions :=
    generateFieldOptions organization [] [] EAP_AGGREGATIONS in
  spread baseFieldOptions (spanTags tags).

(** The request parameters before they are merged with the event view. *)
Definition requestParams
    (query : WidgetQuery) (limit : option Z) (cursor referrer : option string)
    (queryExtras : option (gmap string QueryValue)) : gmap string QueryValue :=
  let params :=
    spread
      (<["per_page" := optional_number limit]>
         (<["cursor" := optional_string cursor]>
            (<["referrer" := optional_string referrer]>
               {["dataset" := QString SPANS_EAP]})))
      (default ∅ queryExtras) in
  if truthy_string (orderby query)
  then <["sort" := QList (toArray (orderby query))]> params
  else params.

Definition getEventsRequest
    (api : Client) (query : WidgetQuery) (organization : Organization)
    (pageFilters : PageFilters) (limit : option Z)
    (cursor referrer : option string) (_mepSetting : option MEPState)
    (queryExtras : option (gmap string QueryValue)) : DiscoverQueryCall Client :=
  let url := "/organizations/" +:+ slug organization +:+ "/events/" in
  let eventView := eventViewFromWidget "" query pageFilters in
  let params := requestParams query limit cursor referrer queryExtras in
  {| call_api := api;
     call_url := url;
     call_params := spread (generateQueryStringObject eventView) params;
     call_options :=
       {| retry := Some {| statusCodes := [429%Z]; tries := 3 |} |} |}.

(** [SpansConfig.getTableRequest]: forwards to [getEventsRequest] without the
    performance setting and without extras. *)
Definition getTableRequest
    (api : Client) (_widget : Widget) (query : WidgetQuery)
    (organization : Organization) (pageFilters : PageFilters)
    (_onDemandControlContext : option OnDemandControlContext)
    (limit : option Z) (cursor referrer : option string)
    (_mepSetting : option MEPState) : DiscoverQueryCall Client :=
  getEventsRequest api query organization pageFilters limit cursor referrer
    None None.

Definition SpansConfig
  : Config.DatasetConfig Client Widget OnDemandControlContext MEPState :=
  {| Config.defaultWidgetQuery := DEFAULT_WIDGET_QUERY;
     Config.enableEquations := false;
     Config.filterSeriesSortOptions := fun _ _ => true;
     Config.filterYAxisAggregateParams := fun _ _ => true;
     Config.filterYAxisOptions := fun _ _ => true;
     Config.getTableFieldOptions := getEventsTableFieldOptions;
     Config.getGroupByFieldOptions := getEventsTableFieldOptions;
     Config.supportedDisplayTypes := [TABLE];
     Config.getTableRequest := getTableRequest;
     Config.filterTableOptions := filterTableOptions;
     Config.filterAggregateParams := filterAggregateParams |}.

End Adapter.

(** *** The retry loop of the shared query client *)

Inductive Response (T : Type) :=
| Succeeded (payload : T)
| Failed (status : Z).
Arguments Succeeded {T} _.
Arguments Failed {T} _.

(** Modelled from the spec: the retry loop of [doDiscoverQuery], which is
    not part of this unit.  "The request MUST be retried transparently by the
    underlying client up to 3 attempts when the server responds with HTTP 429;
    no other status triggers adapter-level retry."  The loop makes an attempt
    while attempts remain; a failure whose status is listed in the policy and
    that leaves attempts is followed by another attempt, any other outcome
    ends the loop.  The result is the list of the responses received, in
    order: its length is the number of attempts, its last element what the
    caller sees. *)
Fixpoint retry_loop {T} (codes : list Z) (server : nat -> Response T)
    (remaining attempt : nat) : list (Response T) :=
  match remaining with
  | O => []
  | S r =>
      let resp := server attempt in
      resp ::
        match resp with
        | Succeeded _ => []
        | Failed s =>
            if bool_decide (s ∈ codes)
            then retry_loop codes server r (S attempt)
            else []
        end
  end.

(** Modelled from the spec: [doDiscoverQuery] run against a server, with the
    default of one attempt and no retried status when no policy is given. *)
Definition doDiscoverQuery {T Client} (call : DiscoverQueryCall Client)
    (server : nat -> Response T) : list (Response T) :=
  match retry (call_options call) with
  | Some r => retry_loop (statusCodes r) server (tries r) 0
  | None => retry_loop [] server 1 0
  end.

(** A status is configured for retry by a call. *)
Definition retried_status {Client} (call : DiscoverQueryCall Client) (s : Z) : Prop :=
  match retry (call_options call) with
  | Some r => s ∈ statusCodes r
  | None => False
  end.

Definition max_attempts {Client} (call : DiscoverQueryCall Client) : nat :=
  match retry (call_options call) with
  | Some r => tries r
  | None => 1
  end.

(** *** The field options over a store of shared objects

    The caller hands [getEventsTableFieldOptions] references to objects it
    keeps using: the organization, the tag catalog and the tags in it.  To
    state what the function does to them, the same function is written here
    over a store.  An object of the store is one of the objects of the data
    model; an option object is stored with the [value] and [meta] objects it
    owns.  A computation takes a store and gives a result and the store
    after it, or [None] when it throws (a property read through something
    that is not an object of the expected shape). *)

Inductive HObject :=
| HOrganization (o : Organization)
| HTag (t : Tag)
| HTagCollection (entries : list (string * loc))
| HCustomMeasurements (c : CustomMeasurementCollection)
| HFieldOption (o : FieldValueOption)
| HFieldOptions (entries : list (string * loc)).

Abbreviation store := (gmap loc HObject) (only parsing).
Abbreviation Heap := (Store.Heap (O := HObject)) (only parsing).

Definition read_organization (l : loc) : Heap Organization :=
  o ← read l;
  match o with HOrganization org => mret org | _ => fail end.

Definition read_tag (l : loc) : Heap Tag :=
  o ← read l;
  match o with HTag t => mret t | _ => fail end.

(** [Object.values(o)] of a tag catalog. *)
Definition tag_values (l : loc) : Heap (list loc) :=
  o ← read l;
  match o with
  | HTagCollection entries => mret (Object_values entries)
  | _ => fail
  end.

Definition read_options (l : loc) : Heap (list (string * loc)) :=
  o ← read l;
  match o with HFieldOptions entries => mret entries | _ => fail end.

Section AdapterOnStore.

Variable ALLOWED_EXPLORE_VISUALIZE_AGGREGATES : list string.
Variable generateFieldOptions :
  Organization -> list string -> list string -> gmap string Aggregation ->
  gmap string FieldValueOption.

(** The generic builder returns a catalog of its own making: a new object
    per option, set as a property of the catalog under construction, and a
    new object that holds them. *)
Definition alloc_catalog (m : gmap string FieldValueOption) : Heap loc :=
  entries ←
    foldM (fun acc kv =>
             l ← alloc (HFieldOption kv.2); mret (set_prop acc kv.1 l))
      (map_to_list m) [];
  alloc (HFieldOptions entries).

(** One step of the reducer: the tag is read, its option object is made, and
    the accumulator is spread into a new object that gets the option. *)
Definition reduce_tag (acc : loc) (tag : loc) : Heap loc :=
  t ← read_tag tag;
  props ← read_options acc;
  o ← alloc (HFieldOption (tag_option t));
  alloc (HFieldOptions (set_prop props (tag_option_key t) o)).

Definition getEventsTableFieldOptions_store
    (organization : loc) (tags : option loc) (_customMeasurements : option loc)
  : Heap loc :=
  org ← read_organization organization;
  baseFieldOptions ←
    alloc_catalog
      (generateFieldOptions org [] []
         (EAP_AGGREGATIONS ALLOWED_EXPLORE_VISUALIZE_AGGREGATES));
  source ← match tags with
           | Some l => mret l
           | None => alloc (HTagCollection [])
           end;
  values ← tag_values source;
  initial ← alloc (HFieldOptions []);
  spanTags ← foldM reduce_tag values initial;
  base ← read_options baseFieldOptions;
  own ← read_options spanTags;
  alloc (HFieldOptions (spread_props base own)).

End AdapterOnStore.

Definition option_at (h : store) (l : loc) : option FieldValueOption :=
  match h !! l with
  | Some (HFieldOption o) => Some o
  | _ => None
  end.

(** The properties [entries] of a catalog object stand for the finite map
    [m]: the names are distinct, every property refers to an option object of
    the store, and [m] maps a name to the option its property refers to. *)
Definition entries_hold (h : store) (entries : list (string * loc))
    (m : gmap string FieldValueOption) : Prop :=
  NoDup entries.*1 /\
  Forall (fun e => is_Some (option_at h e.2)) entries /\
  forall k, m !! k = assoc k entries ≫= option_at h.

(** The store holds the catalog of options [m] at [l]. *)
Definition holds_options (h : store) (l : loc)
    (m : gmap string FieldValueOption) : Prop :=
  exists entries,
    h !! l = Some (HFieldOptions entries) /\ entries_hold h entries m.

(** The store holds the tag catalog [T] at [l]. *)
Definition holds_tags (h : store) (l : loc) (T : TagCollection) : Prop :=
  exists entries,
    h !! l = Some (HTagCollection entries) /\
    Forall2 (fun e kt => e.1 = kt.1 /\ h !! e.2 = Some (HTag kt.2)) entries T.

(** *** Auxiliary definitions of the statements and closed examples *)

(** The tag that decides the option stored under [k]: the last one, in the
    catalog's enumeration order, whose property name is [k]. *)
Fixpoint last_tag_keyed (k : string) (ts : list Tag) : option Tag :=
  match ts with
  | [] => None
  | t :: ts' =>
      match last_tag_keyed k ts' with
      | Some u => Some u
      | None => if String.eqb (tag_option_key t) k then Some t else None
      end
  end.

(** The data type the specification's edge-case policy asks for: an absent
    kind counts as the plain tag kind. *)
Definition spec_dataType (t : Tag) : string :=
  match tag_kind t with
  | None => "string"
  | Some k => if String.eqb k "tag" then "string" else "number"
  end.

(** What the reducer stores: ["string"] for the kind ["tag"], ["number"] for
    every other kind and for an absent one. *)
Definition code_dataType (t : Tag) : string :=
  match tag_kind t with
  | Some "tag" => "string"
  | _ => "number"
  end.

(** Collaborators used by the closed examples: a base catalog with one
    function option per aggregation under ["function:<name>"], an
    organization, and an event view that is the widget query itself, whose
    query-string object carries the fields and the filter condition. *)
Definition example_generateFieldOptions
    (_ : Organization) (_ _ : list string) (aggregations : gmap string Aggregation)
  : gmap string FieldValueOption :=
  list_to_map
    (map (fun fa : string * Aggregation =>
            ("function:" +:+ fa.1, function_option fa.1 (parameters fa.2)))
         (map_to_list aggregations)).

Definition example_organization : Organization :=
  {| slug := "acme"; features := [] |}.

Definition example_pageFilters : PageFilters :=
  {| projects := [1%Z]; environments := []; period := Some "14d" |}.

Definition example_eventViewFromWidget
    (_ : string) (query : WidgetQuery) (_ : PageFilters) : WidgetQuery := query.

Definition example_generateQueryStringObject (view : WidgetQuery)
  : gmap string QueryValue :=
  <["field" := QList (columns view ++ aggregates view)]>
    {["query" := QString (conditions view)]}.

(** An event view whose query-string object always has a sort entry: the
    encoded list of its sorts, one per non-empty order-by. *)
Definition sorted_generateQueryStringObject (view : WidgetQuery)
  : gmap string QueryValue :=
  <["sort" := QList (if truthy_string (orderby view) then [orderby view]
                     else [])]>
    (example_generateQueryStringObject view).

Definition browser_tag : Tag :=
  {| tag_key := "browser"; tag_name := "Browser"; tag_kind := None |}.

(** The default widget query with an empty order-by. *)
Definition unordered_query : WidgetQuery :=
  {| wq_name := ""; fields := ["span.op"; "avg(span.duration)"];
     columns := ["span.op"]; fieldAliases := [];
     aggregates := ["avg(span.duration)"]; conditions := ""; orderby := "" |}.

(** A store with an organization, a tag catalog of two tags and the tags. *)
Definition example_tags : TagCollection :=
  [("span.op",
    {| tag_key := "span.op"; tag_name := "span.op"; tag_kind := Some "tag" |});
   ("span.self_time",
    {| tag_key := "span.self_time"; tag_name := "span.self_time";
       tag_kind := Some "measurement" |})].

Definition example_store : store :=
  <[1%positive := HOrganization example_organization]>
    (<[2%positive := HTagCollection [("span.op", 3%positive);
                                     ("span.self_time", 4%positive)]]>
       (<[3%positive := HTag {| tag_key := "span.op"; tag_name := "span.op";
                                 tag_kind := Some "tag" |}]>
          (<[4%positive := HTag {| tag_key := "span.self_time";
                                   tag_name := "span.self_time";
                                   tag_kind := Some "measurement" |}]> ∅))).

(** The one parameter of every aggregate of the exploration list, and the
    aggregation stored for each of them. *)
Definition span_column_parameter : AggregateParameter :=
  {| param_kind := "column";
     columnTypes := ["number"; "string"];
     defaultValue := "span.duration";
     required := true |}.

Definition span_aggregation : Aggregation :=
  {| isSortable := true;
     outputType := None;
     parameters := [span_column_parameter] |}.

(** The four parameters that [getEventsRequest] sets from its arguments. *)
Definition argument_params (SPANS_EAP : string) (limit : option Z)
    (cursor referrer : option string) : gmap string QueryValue :=
  <["per_page" := optional_number limit]>
    (<["cursor" := optional_string cursor]>
       (<["referrer" := optional_string referrer]>
          {["dataset" := QString SPANS_EAP]})).

(** The example catalog in the opposite enumeration order. *)
Definition example_tags_reversed : TagCollection :=
  [("span.self_time",
    {| tag_key := "span.self_time"; tag_name := "span.self_time";
       tag_kind := Some "measurement" |});
   ("span.op",
    {| tag_key := "span.op"; tag_name := "span.op"; tag_kind := Some "tag" |})].

(** *** Properties of the option filters *)

Lemma filterTableOptions_false (o : FieldValueOption) :
  filterTableOptions o = false <-> declares_numeric o.
Proof.
  unfold filterTableOptions, declares_numeric.
  destruct (dataType (meta (value o))) as [dt|]; [|split; discriminate].
  rewrite negb_false_iff, String.eqb_eq. split; congruence.
Qed.

Lemma filterAggregateParams_true (o : FieldValueOption) :
  filterAggregateParams o = true <->
  flagged_unknown o \/ declares_numeric o \/ declares_no_dataType o.
Proof.
  unfold filterAggregateParams, flagged_unknown, declares_numeric,
    declares_no_dataType.
  destruct (unknown (meta (value o))) as [[|]|];
    destruct (dataType (meta (value o))) as [dt|];
    rewrite ?String.eqb_eq; split; intros H; auto;
    try (right; left; congruence);
    try (destruct H as [H|[H|H]]; congruence).
Qed.

(** C1 (as the code has it).  [filterTableOptions o] is [false] exactly when
    [o] declares the numeric data type, and [filterAggregateParams o] is [true]
    exactly when [o] is flagged unknown, or declares the numeric data type, or
    declares no data type at all.  The third case is the function's final
    [return true]: an option with neither flag nor data type passes both
    filters. *)
Theorem filters_characterised (o : FieldValueOption) :
  (filterTableOptions o = false <-> declares_numeric o) /\
  (filterAggregateParams o = true <->
     flagged_unknown o \/ declares_numeric o \/ declares_no_dataType o).
Proof.
  split; [apply filterTableOptions_false | apply filterAggregateParams_true].
Qed.

(** C1 (as the specification words it) fails: the option of the aggregate
    function [avg] has neither an unknown flag nor a data type, it passes
    [filterTableOptions], and [filterAggregateParams] accepts it as well,
    against "true iff unknown-flagged or numeric-typed". *)
Lemma filterAggregateParams_untyped_option :
  filterTableOptions (function_option "avg" []) = true /\
  ~ (filterAggregateParams (function_option "avg" []) = true <->
     flagged_unknown (function_option "avg" []) \/
     declares_numeric (function_option "avg" [])).
Proof.
  split; [reflexivity|].
  intros [Hdir _].
  destruct (Hdir eq_refl) as [H|H]; discriminate H.
Qed.

(** C10.  No option is hidden by both filters: one of the two always
    accepts; an option that [filterTableOptions] rejects is accepted by
    [filterAggregateParams], and conversely. *)
Theorem filters_cover_every_option (o : FieldValueOption) :
  (filterTableOptions o = true \/ filterAggregateParams o = true) /\
  (filterTableOptions o = false -> filterAggregateParams o = true) /\
  (filterAggregateParams o = false -> filterTableOptions o = true).
Proof.
  assert (Hrej : filterTableOptions o = false -> filterAggregateParams o = true).
  { intros Hnum%filterTableOptions_false.
    apply filterAggregateParams_true. right; left; exact Hnum. }
  split; [|split].
  - destruct (filterTableOptions o) eqn:Ht; [left; reflexivity|right; auto].
  - exact Hrej.
  - intros Hagg. destruct (filterTableOptions o) eqn:Ht; [reflexivity|].
    rewrite (Hrej eq_refl) in Hagg. discriminate Hagg.
Qed.

(** *** Properties of the field options *)

Lemma last_tag_keyed_Some k ts u :
  last_tag_keyed k ts = Some u -> u ∈ ts /\ tag_option_key u = k.
Proof.
  induction ts as [|t ts IH]; simpl; [discriminate|].
  destruct (last_tag_keyed k ts) as [v|].
  - intros [= ->]. destruct (IH eq_refl) as [Hin Hk].
    split; [by apply elem_of_cons; right|done].
  - destruct (String.eqb (tag_option_key t) k) eqn:Hk; [|discriminate].
    intros [= ->]. apply String.eqb_eq in Hk.
    split; [apply elem_of_cons; by left|done].
Qed.

Lemma last_tag_keyed_elem t ts :
  t ∈ ts -> is_Some (last_tag_keyed (tag_option_key t) ts).
Proof.
  induction ts as [|t0 ts IH]; [by intros ?%elem_of_nil|].
  intros [->|Hin]%elem_of_cons; simpl.
  - destruct (last_tag_keyed _ ts); [eauto|].
    rewrite String.eqb_refl. eauto.
  - destruct (IH Hin) as [u ->]. eauto.
Qed.

Lemma last_tag_keyed_None k ts :
  last_tag_keyed k ts = None <-> forall t, t ∈ ts -> tag_option_key t <> k.
Proof.
  induction ts as [|t0 ts IH]; simpl.
  - split; [intros _ t Ht%elem_of_nil; done|done].
  - destruct (last_tag_keyed k ts) as [u|] eqn:Hu.
    + split; [discriminate|]. intros Hall.
      destruct (last_tag_keyed_Some _ _ _ Hu) as [Hin Hk].
      exfalso. apply (Hall u); [by apply elem_of_cons; right|done].
    + destruct (String.eqb (tag_option_key t0) k) eqn:Hk.
      * apply String.eqb_eq in Hk. split; [discriminate|]. intros Hall.
        exfalso. apply (Hall t0); [apply elem_of_cons; by left|done].
      * apply String.eqb_neq in Hk. split; [|done].
        intros _ t [->|Hin]%elem_of_cons; [done|].
        by apply IH.
Qed.

Lemma last_tag_keyed_app k T1 T2 :
  last_tag_keyed k (T1 ++ T2) =
  match last_tag_keyed k T2 with
  | Some u => Some u
  | None => last_tag_keyed k T1
  end.
Proof.
  induction T1 as [|t T1 IH]; simpl.
  - by destruct (last_tag_keyed k T2).
  - rewrite IH. by destruct (last_tag_keyed k T2).
Qed.

Lemma last_tag_keyed_unshadowed T1 t T2 :
  (forall t', t' ∈ T2 -> tag_option_key t' <> tag_option_key t) ->
  last_tag_keyed (tag_option_key t) (T1 ++ t :: T2) = Some t.
Proof.
  intros Hlater. rewrite last_tag_keyed_app. simpl.
  apply last_tag_keyed_None in Hlater. rewrite Hlater.
  by rewrite String.eqb_refl.
Qed.

Lemma lookup_tag_reducer (ts : list Tag) (acc : gmap string FieldValueOption) k :
  fold_left (fun acc tag => <[tag_option_key tag := tag_option tag]> acc) ts acc
    !! k =
  match last_tag_keyed k ts with
  | Some u => Some (tag_option u)
  | None => acc !! k
  end.
Proof.
  revert acc. induction ts as [|t ts IH]; intros acc; simpl; [done|].
  rewrite IH. destruct (last_tag_keyed k ts) as [u|]; [done|].
  rewrite lookup_insert. case_decide as Hk.
  - subst k. by rewrite String.eqb_refl.
  - apply String.eqb_neq in Hk. by rewrite Hk.
Qed.

Lemma tag_option_dataType (t : Tag) :
  dataType (meta (value (tag_option t))) = Some (code_dataType t).
Proof.
  unfold tag_option, code_dataType, is_plain_tag. simpl.
  destruct (tag_kind t) as [k|]; [|done].
  destruct (String.eqb k "tag") eqn:Hk.
  - apply String.eqb_eq in Hk. by subst k.
  - apply String.eqb_neq in Hk.
    destruct (decide (k = "tag")) as [->|Hne]; [done|].
    clear Hk. f_equal.
    repeat (match goal with
            | |- context [match ?s with EmptyString => _ | String _ _ => _ end] =>
                destruct s as [|[[] [] [] [] [] [] [] []] ?]; try done
            end).
Qed.

Section FieldOptions.

Variable ALLOWED_EXPLORE_VISUALIZE_AGGREGATES : list string.
Variable generateFieldOptions :
  Organization -> list string -> list string -> gmap string Aggregation ->
  gmap string FieldValueOption.

Let fieldOptions :=
  getEventsTableFieldOptions ALLOWED_EXPLORE_VISUALIZE_AGGREGATES
    generateFieldOptions.
Let baseFieldOptions (organization : Organization) :=
  generateFieldOptions organization [] []
    (EAP_AGGREGATIONS ALLOWED_EXPLORE_VISUALIZE_AGGREGATES).

Lemma lookup_getEventsTableFieldOptions organization tags cm k :
  fieldOptions organization tags cm !! k =
  match last_tag_keyed k (Object_values (default [] tags)) with
  | Some u => Some (tag_option u)
  | None => baseFieldOptions organization !! k
  end.
Proof.
  unfold fieldOptions, getEventsTableFieldOptions, spanTags.
  rewrite lookup_spread, lookup_tag_reducer, lookup_empty.
  by destruct (last_tag_keyed _ _).
Qed.

(** C2 (as the code has it).  For every organization, tag catalog and tag
    [t] of the catalog, the result holds an option under the property name
    ["<kind>:<key>"] of [t] (an absent kind prints as ["undefined"]); that
    option is the one built from the last tag of the catalog with this
    property name, so it is [t]'s own whenever no later tag shares the name;
    its data type is ["string"] when the kind is ["tag"] and ["number"] for
    every other kind and for an absent kind.  Every other property of the
    result is an entry of the base catalog of aggregate functions, and every
    entry of the base catalog whose name no tag takes is kept. *)
Theorem getTableFieldOptions_tag_entries
    (organization : Organization) (tags : option TagCollection)
    (cm : option CustomMeasurementCollection) :
  let T := Object_values (default [] tags) in
  let result := fieldOptions organization tags cm in
  (forall t, t ∈ T ->
     exists u, u ∈ T /\ tag_option_key u = tag_option_key t /\
               result !! tag_option_key t = Some (tag_option u)) /\
  (forall T1 t T2, T = T1 ++ t :: T2 ->
     (forall t', t' ∈ T2 -> tag_option_key t' <> tag_option_key t) ->
     result !! tag_option_key t = Some (tag_option t)) /\
  (forall t,
     tag_option_key t = template (tag_kind t) +:+ ":" +:+ tag_key t /\
     kind (value (tag_option t)) = TAG /\
     name (meta (value (tag_option t))) = tag_key t /\
     dataType (meta (value (tag_option t))) = Some (code_dataType t)) /\
  (forall k, (forall t, t ∈ T -> tag_option_key t <> k) ->
     result !! k = baseFieldOptions organization !! k).
Proof.
  intros T result. repeat split.
  - intros t Ht. destruct (last_tag_keyed_elem t T Ht) as [u Hu].
    destruct (last_tag_keyed_Some _ _ _ Hu) as [Hin Hk].
    exists u. repeat split; [done..|].
    unfold result. rewrite lookup_getEventsTableFieldOptions.
    fold T. by rewrite Hu.
  - intros T1 t T2 HT Hlater. unfold result.
    rewrite lookup_getEventsTableFieldOptions. fold T.
    by rewrite HT, last_tag_keyed_unshadowed.
  - apply tag_option_dataType.
  - intros k Hk. unfold result.
    rewrite lookup_getEventsTableFieldOptions. fold T.
    apply last_tag_keyed_None in Hk. by rewrite Hk.
Qed.

End FieldOptions.

(** C2 (as the specification words it) fails on a tag whose kind is absent:
    its option sits under ["undefined:browser"] and declares the data type
    ["number"], not the ["string"] of the plain tag kind. *)
Lemma absent_kind_is_numeric :
  let result :=
    getEventsTableFieldOptions ["avg"; "count"] example_generateFieldOptions
      example_organization (Some [("browser", browser_tag)]) None in
  tag_kind browser_tag = None /\
  tag_option_key browser_tag = "undefined:browser" /\
  (exists o, result !! tag_option_key browser_tag = Some o /\
             dataType (meta (value o)) = Some "number") /\
  ~ (exists o, result !! tag_option_key browser_tag = Some o /\
               dataType (meta (value o)) = Some (spec_dataType browser_tag)).
Proof.
  intros result.
  assert (Hres : result !! tag_option_key browser_tag
                 = Some (tag_option browser_tag)).
  { unfold result. by rewrite lookup_getEventsTableFieldOptions. }
  repeat split.
  - exists (tag_option browser_tag). by split.
  - intros (o & Ho & Hdt). rewrite Hres in Ho.
    injection Ho as <-. discriminate Hdt.
Qed.

(** *** Properties of the table request *)

(** The members of the adapter: both field-option members are
    [getEventsTableFieldOptions], the table is the one display type, and
    equations are off. *)
Remark SpansConfig_members
    allowed generate dataset (EventView : Type) viewOf queryOf
    (Client Widget OnDemandControlContext MEPState : Type) :
  let config :=
    SpansConfig allowed generate dataset EventView viewOf queryOf
      Client Widget OnDemandControlContext MEPState in
  Config.getTableFieldOptions _ _ _ _ config
    = getEventsTableFieldOptions allowed generate /\
  Config.getGroupByFieldOptions _ _ _ _ config
    = getEventsTableFieldOptions allowed generate /\
  Config.supportedDisplayTypes _ _ _ _ config = [TABLE] /\
  Config.enableEquations _ _ _ _ config = false /\
  Config.defaultWidgetQuery _ _ _ _ config = DEFAULT_WIDGET_QUERY.
Proof. by repeat split. Qed.



Lemma lookup_requestParams_sort SPANS_EAP query limit cursor referrer :
  requestParams SPANS_EAP query limit cursor referrer None !! "sort" =
  if truthy_string (orderby query)
  then Some (QList [orderby query])
  else None.
Proof.
  unfold requestParams.
  destruct (truthy_string (orderby query)).
  - by rewrite lookup_insert_eq.
  - rewrite lookup_spread. simpl. rewrite lookup_empty.
    by repeat (rewrite lookup_insert_ne by done).
Qed.

Lemma truthy_string_nonempty s : truthy_string s = true <-> s <> "".
Proof. destruct s; simpl; split; (done || congruence). Qed.

Section TableRequest.

Variable SPANS_EAP : string.
Variable EventView : Type.
Variable eventViewFromWidget : string -> WidgetQuery -> PageFilters -> EventView.
Variable generateQueryStringObject : EventView -> gmap string QueryValue.
Variables Client Widget OnDemandControlContext MEPState : Type.

Let tableRequest :=
  getTableRequest SPANS_EAP EventView eventViewFromWidget
    generateQueryStringObject Client Widget OnDemandControlContext MEPState.

Lemma lookup_getTableRequest_sort
    api widget query organization pageFilters odc limit cursor referrer mep :
  call_params
    (tableRequest api widget query organization pageFilters odc limit cursor
       referrer mep) !! "sort" =
  if truthy_string (orderby query)
  then Some (QList [orderby query])
  else generateQueryStringObject (eventViewFromWidget "" query pageFilters)
         !! "sort".
Proof.
  unfold tableRequest, getTableRequest, getEventsRequest. simpl.
  rewrite lookup_spread, lookup_requestParams_sort.
  by destruct (truthy_string (orderby query)).
Qed.

(** C5 (as the code has it).  A table request built from a widget query
    ordered by ["-avg(span.duration)"] has the sort parameter
    [["-avg(span.duration)"]] (as has, with its own order-by, every query
    whose order-by is not empty), whatever the event view says.  For a widget
    query whose order-by is empty the adapter sets no sort parameter of its
    own: the parameters it builds have none, and the sort entry of the
    request is exactly that of the event view's query-string object, present
    when the event view brings one and absent otherwise. *)
Theorem getTableRequest_sort
    (api : Client) (widget : Widget) (query : WidgetQuery)
    (organization : Organization) (pageFilters : PageFilters)
    (odc : option OnDemandControlContext) (limit : option Z)
    (cursor referrer : option string) (mep : option MEPState) :
  let call :=
    tableRequest api widget query organization pageFilters odc limit cursor
      referrer mep in
  let viewQuery :=
    generateQueryStringObject (eventViewFromWidget "" query pageFilters) in
  (orderby query = "-avg(span.duration)" ->
     call_params call !! "sort" = Some (QList ["-avg(span.duration)"])) /\
  (orderby query <> "" ->
     call_params call !! "sort" = Some (QList [orderby query])) /\
  (orderby query = "" ->
     requestParams SPANS_EAP query limit cursor referrer None !! "sort" = None /\
     call_params call !! "sort" = viewQuery !! "sort").
Proof.
  intros call viewQuery. unfold call.
  split; [|split].
  - intros Ho. rewrite lookup_getTableRequest_sort. by rewrite Ho.
  - intros Hne%truthy_string_nonempty.
    rewrite lookup_getTableRequest_sort. by rewrite Hne.
  - intros Ho.
    rewrite lookup_requestParams_sort, lookup_getTableRequest_sort.
    rewrite Ho. simpl. fold viewQuery. by split.
Qed.

Lemma retry_loop_length {T} codes (server : nat -> Response T) n k :
  length (retry_loop codes server n k) <= n.
Proof.
  revert k. induction n as [|n IH]; intros k; simpl; [lia|].
  destruct (server k) as [p|s]; simpl; [lia|].
  case_bool_decide; simpl; [|lia].
  specialize (IH (S k)). lia.
Qed.

Lemma retry_loop_always_listed {T} codes (server : nat -> Response T) s n k :
  s ∈ codes -> (forall i, server i = Failed s) ->
  retry_loop codes server n k = replicate n (Failed s).
Proof.
  intros Hs Hsrv. revert k. induction n as [|n IH]; intros k; simpl; [done|].
  rewrite Hsrv. rewrite bool_decide_true by done. by rewrite IH.
Qed.

(** C6.  Every call built by [getTableRequest] carries the retry policy
    "3 tries, status 429": 429 is the one status configured for retry.  Run
    by the client's retry loop, the call makes at most 3 attempts; a server
    that keeps answering 429 is asked exactly 3 times and the third 429 is
    what surfaces; a failure with any other status surfaces after the first
    attempt; a success ends the loop at once, also after one or two 429s. *)
Theorem getTableRequest_retry_policy
    (api : Client) (widget : Widget) (query : WidgetQuery)
    (organization : Organization) (pageFilters : PageFilters)
    (odc : option OnDemandControlContext) (limit : option Z)
    (cursor referrer : option string) (mep : option MEPState) :
  let call :=
    tableRequest api widget query organization pageFilters odc limit cursor
      referrer mep in
  retry (call_options call) = Some {| statusCodes := [429%Z]; tries := 3 |} /\
  max_attempts call = 3 /\
  (forall s, retried_status call s <-> s = 429%Z) /\
  (forall T (server : nat -> Response T),
     length (doDiscoverQuery call server) <= 3) /\
  (forall T (server : nat -> Response T),
     (forall i, server i = Failed 429) ->
     doDiscoverQuery call server = [Failed 429; Failed 429; Failed 429]) /\
  (forall T (server : nat -> Response T) s,
     server 0 = Failed s -> s <> 429%Z ->
     doDiscoverQuery call server = [Failed s]) /\
  (forall T (server : nat -> Response T) p,
     server 0 = Failed 429 -> server 1 = Failed 429 ->
     server 2 = Succeeded p ->
     doDiscoverQuery call server = [Failed 429; Failed 429; Succeeded p]) /\
  (forall T (server : nat -> Response T) p,
     server 0 = Succeeded p -> doDiscoverQuery call server = [Succeeded p]).
Proof.
  intros call.
  assert (Hpol : retry (call_options call)
                 = Some {| statusCodes := [429%Z]; tries := 3 |}) by done.
  split; [exact Hpol|].
  unfold max_attempts, retried_status, doDiscoverQuery. rewrite Hpol. simpl.
  split; [done|]. split.
  { intros s. rewrite list_elem_of_singleton. done. }
  split.
  { intros T server. apply (retry_loop_length [429%Z] server 3 0). }
  split.
  { intros T server Hsrv.
    apply (retry_loop_always_listed [429%Z] server 429 3 0); [|done].
    by apply list_elem_of_singleton. }
  split.
  { intros T server s H0 Hs. rewrite H0.
    rewrite bool_decide_false; [done|].
    by rewrite list_elem_of_singleton. }
  split.
  { intros T server p H0 H1 H2. rewrite H0, H1, H2. done. }
  intros T server p H0. by rewrite H0.
Qed.

End TableRequest.

(** The default widget query of the adapter, sent through an event view
    that says nothing about sorting: the request is sorted by the query's own
    order-by; the same query with an empty order-by gets no sort parameter. *)
Lemma getTableRequest_sort_default_query :
  call_params
    (getTableRequest "spans" WidgetQuery example_eventViewFromWidget
       example_generateQueryStringObject unit unit unit unit
       tt tt DEFAULT_WIDGET_QUERY example_organization example_pageFilters None
       (Some 5%Z) None (Some "api.dashboards.tablewidget") None) !! "sort"
  = Some (QList ["-avg(span.duration)"]) /\
  call_params
    (getTableRequest "spans" WidgetQuery example_eventViewFromWidget
       example_generateQueryStringObject unit unit unit unit
       tt tt unordered_query example_organization example_pageFilters None
       (Some 5%Z) None (Some "api.dashboards.tablewidget") None) !! "sort"
  = None.
Proof.
  split.
  - apply (proj1 (getTableRequest_sort "spans" WidgetQuery
      example_eventViewFromWidget example_generateQueryStringObject unit unit
      unit unit tt tt DEFAULT_WIDGET_QUERY example_organization
      example_pageFilters None (Some 5%Z) None
      (Some "api.dashboards.tablewidget") None)).
    reflexivity.
  - rewrite (proj2 (proj2 (proj2 (getTableRequest_sort "spans" WidgetQuery
      example_eventViewFromWidget example_generateQueryStringObject unit unit
      unit unit tt tt unordered_query example_organization
      example_pageFilters None (Some 5%Z) None
      (Some "api.dashboards.tablewidget") None)) eq_refl)).
    reflexivity.
Defined.

(** C5 (as the specification words it) fails for an event view whose
    query-string object has a sort entry of its own, as one that always
    encodes its list of sorts does: the request built from a widget query
    with an empty order-by then carries that entry, here the empty list, and
    not "no sort parameter at all". *)
Lemma getTableRequest_sort_from_event_view :
  let call :=
    getTableRequest "spans" WidgetQuery example_eventViewFromWidget
      sorted_generateQueryStringObject unit unit unit unit
      tt tt unordered_query example_organization example_pageFilters None
      (Some 5%Z) None (Some "api.dashboards.tablewidget") None in
  orderby unordered_query = "" /\
  call_params call !! "sort" = Some (QList []) /\
  call_params call !! "sort" <> None.
Proof.
  assert (Hsort :
    call_params
      (getTableRequest "spans" WidgetQuery example_eventViewFromWidget
         sorted_generateQueryStringObject unit unit unit unit
         tt tt unordered_query example_organization example_pageFilters None
         (Some 5%Z) None (Some "api.dashboards.tablewidget") None) !! "sort"
    = Some (QList [])).
  { unfold getTableRequest, getEventsRequest. simpl.
    rewrite lookup_spread, lookup_requestParams_sort. reflexivity. }
  intros call. subst call. rewrite Hsort. by repeat split.
Qed.

(** *** The catalog of aggregations *)

Lemma lookup_aggregations_reducer (fs : list string)
    (acc : gmap string Aggregation) f :
  fold_left
    (fun acc aggregate =>
       if String.eqb aggregate "__proto__" then acc
       else <[aggregate := span_aggregation]> acc) fs acc
    !! f =
  if bool_decide (f ∈ fs) && negb (String.eqb f "__proto__")
  then Some span_aggregation else acc !! f.
Proof.
  revert acc. induction fs as [|g fs IH]; intros acc; simpl; [done|].
  rewrite IH. case_bool_decide as Hin; simpl.
  - rewrite bool_decide_true by (by apply elem_of_cons; right). simpl.
    destruct (String.eqb_spec f "__proto__") as [Hf|Hf]; simpl; [|done].
    destruct (String.eqb_spec g "__proto__") as [Hg|Hg]; [done|].
    rewrite lookup_insert_ne; [done|congruence].
  - destruct (String.eqb_spec g "__proto__") as [Hg|Hg].
    + case_bool_decide as Hin'; [|done].
      apply elem_of_cons in Hin' as [Hfg|?]; [|done].
      rewrite Hfg, Hg. done.
    + rewrite lookup_insert. case_decide as Hfg.
      * rewrite bool_decide_true by (apply elem_of_cons; by left).
        rewrite <-Hfg. apply String.eqb_neq in Hg. by rewrite Hg.
      * rewrite bool_decide_false; [done|].
        intros [?|?]%elem_of_cons; congruence.
Qed.

(** The catalog of aggregations has an own entry exactly for the aggregates
    of the exploration list other than [__proto__], however often and in
    whatever order they are listed, and every entry is the same: sortable,
    with one required column parameter that takes numbers and strings and
    defaults to the span duration. *)
Theorem EAP_AGGREGATIONS_lookup (allowed : list string) (f : string) :
  EAP_AGGREGATIONS allowed !! f =
    (if bool_decide (f ∈ allowed) && negb (String.eqb f "__proto__")
     then Some span_aggregation else None) /\
  EAP_AGGREGATIONS allowed !! "__proto__" = None /\
  dom (EAP_AGGREGATIONS allowed) =
    list_to_set
      (List.filter (fun a => negb (String.eqb a "__proto__")) allowed) /\
  map_Forall
    (fun _ a =>
       isSortable a = true /\
       Forall (fun p => required p = true /\ "string" ∈ columnTypes p /\
                        "number" ∈ columnTypes p)
         (parameters a))
    (EAP_AGGREGATIONS allowed).
Proof.
  assert (Hlookup : forall g,
    EAP_AGGREGATIONS allowed !! g =
    if bool_decide (g ∈ allowed) && negb (String.eqb g "__proto__")
    then Some span_aggregation else None).
  { intros g. unfold EAP_AGGREGATIONS.
    fold span_column_parameter. fold span_aggregation.
    rewrite lookup_aggregations_reducer. by rewrite lookup_empty. }
  split; [apply Hlookup|]. split; [|split].
  - rewrite Hlookup. simpl. by rewrite andb_false_r.
  - apply set_eq. intros g.
    rewrite elem_of_dom, elem_of_list_to_set, Hlookup.
    assert (Hfilter :
      g ∈ List.filter (fun a => negb (String.eqb a "__proto__")) allowed
      <-> g ∈ allowed /\ negb (String.eqb g "__proto__") = true).
    { rewrite !list_elem_of_In. apply filter_In. }
    rewrite Hfilter. clear Hfilter.
    case_bool_decide as Hin; simpl.
    + destruct (negb (String.eqb g "__proto__")); split;
        (done || eauto || by intros [? ?] || by intros [? [=]]).
    + split; [by intros [? ?]|by intros [? _]].
  - intros g a. rewrite Hlookup.
    destruct (bool_decide _ && _); [|done].
    intros [= <-]. split; [done|]. repeat constructor.
Qed.

(** *** Tag options and the two filters *)

Lemma is_plain_tag_template (t : Tag) :
  is_plain_tag t = String.eqb (template (tag_kind t)) "tag".
Proof. unfold is_plain_tag. by destruct (tag_kind t). Qed.

Lemma tag_option_filters (t : Tag) :
  filterTableOptions (tag_option t) = is_plain_tag t /\
  filterAggregateParams (tag_option t) = negb (is_plain_tag t).
Proof.
  unfold filterTableOptions, filterAggregateParams, tag_option. simpl.
  by destruct (is_plain_tag t).
Qed.

Lemma NoDup_fmap_elem {A B} (f : A -> B) (l : list A) x y :
  NoDup (map f l) -> x ∈ l -> y ∈ l -> f x = f y -> x = y.
Proof.
  intros Hnd (i & Hi)%list_elem_of_lookup (j & Hj)%list_elem_of_lookup Hf.
  assert (i = j) as ->.
  { apply (NoDup_lookup (map f l) i j (f x)); [done|..].
    - change (map f l) with (f <$> l). by rewrite list_lookup_fmap, Hi.
    - change (map f l) with (f <$> l). rewrite list_lookup_fmap, Hj. simpl.
      by rewrite Hf. }
  congruence.
Qed.

Lemma last_tag_keyed_NoDup t ts :
  NoDup (map tag_option_key ts) -> t ∈ ts ->
  last_tag_keyed (tag_option_key t) ts = Some t.
Proof.
  intros Hnd Hin. destruct (last_tag_keyed_elem t ts Hin) as [u Hu].
  destruct (last_tag_keyed_Some _ _ _ Hu) as [Hu_in Hk].
  rewrite Hu. f_equal. by apply (NoDup_fmap_elem tag_option_key ts).
Qed.

Lemma last_tag_keyed_Permutation k ts ts' :
  NoDup (map tag_option_key ts) -> ts ≡ₚ ts' ->
  last_tag_keyed k ts = last_tag_keyed k ts'.
Proof.
  intros Hnd Hperm.
  assert (Hnd' : NoDup (map tag_option_key ts')).
  { change (NoDup (tag_option_key <$> ts')). by rewrite <-Hperm. }
  destruct (last_tag_keyed k ts) as [u|] eqn:Hu.
  - destruct (last_tag_keyed_Some _ _ _ Hu) as [Hin <-].
    symmetry. apply last_tag_keyed_NoDup; [done|]. by rewrite <-Hperm.
  - symmetry. apply last_tag_keyed_None. intros t Ht.
    rewrite last_tag_keyed_None in Hu. apply Hu. by rewrite Hperm.
Qed.

Lemma tag_option_key_inj (t u : Tag) :
  has_char ":" (template (tag_kind t)) = false ->
  has_char ":" (template (tag_kind u)) = false ->
  tag_option_key t = tag_option_key u ->
  template (tag_kind t) = template (tag_kind u) /\ tag_key t = tag_key u.
Proof. intros Ht Hu. by apply append_sep_inj. Qed.

Section FieldOptionsMore.

Variable ALLOWED_EXPLORE_VISUALIZE_AGGREGATES : list string.
Variable generateFieldOptions :
  Organization -> list string -> list string -> gmap string Aggregation ->
  gmap string FieldValueOption.

Let fieldOptions :=
  getEventsTableFieldOptions ALLOWED_EXPLORE_VISUALIZE_AGGREGATES
    generateFieldOptions.
Let baseFieldOptions (organization : Organization) :=
  generateFieldOptions organization [] []
    (EAP_AGGREGATIONS ALLOWED_EXPLORE_VISUALIZE_AGGREGATES).

(** The option built for a tag passes exactly one of the two filters: the
    primary one when the kind of the tag is ["tag"], the one for aggregate
    parameters otherwise.  So under the property name of every tag of the
    catalog the field options hold an option that shows up in exactly one of
    the two places. *)
Theorem tag_options_pass_one_filter
    (organization : Organization) (tags : option TagCollection)
    (cm : option CustomMeasurementCollection) :
  let T := Object_values (default [] tags) in
  let result := fieldOptions organization tags cm in
  (forall t,
     filterTableOptions (tag_option t) = is_plain_tag t /\
     filterAggregateParams (tag_option t) = negb (is_plain_tag t)) /\
  Forall
    (fun t =>
       exists o, result !! tag_option_key t = Some o /\
                 filterTableOptions o = negb (filterAggregateParams o))
    T.
Proof.
  intros T result. split; [apply tag_option_filters|].
  apply Forall_forall. intros t Ht.
  destruct (last_tag_keyed_elem t T Ht) as [u Hu].
  exists (tag_option u). split.
  - unfold result, fieldOptions.
    rewrite lookup_getEventsTableFieldOptions. fold T. by rewrite Hu.
  - destruct (tag_option_filters u) as [-> ->]. by rewrite negb_involutive.
Qed.

(** The property names of the field options are those of the base catalog
    together with the property names of the tags; nothing else is added and
    nothing of the base catalog is dropped. *)
Theorem getTableFieldOptions_dom
    (organization : Organization) (tags : option TagCollection)
    (cm : option CustomMeasurementCollection) :
  dom (fieldOptions organization tags cm) =
  dom (baseFieldOptions organization)
  ∪ list_to_set (map tag_option_key (Object_values (default [] tags))).
Proof.
  apply set_eq. intros k.
  rewrite elem_of_union, !elem_of_dom, elem_of_list_to_set.
  unfold fieldOptions. rewrite lookup_getEventsTableFieldOptions.
  destruct (last_tag_keyed k _) as [u|] eqn:Hu.
  - destruct (last_tag_keyed_Some _ _ _ Hu) as [Hin Hk].
    split; [|by eauto]. intros _. right.
    apply list_elem_of_fmap. by exists u.
  - split; [by left|]. intros [Hbase|Htag]; [done|].
    apply list_elem_of_fmap in Htag as (t & -> & Ht).
    rewrite last_tag_keyed_None in Hu. by destruct (Hu t Ht).
Qed.

(** When no kind of the catalog contains a colon, the property name tells
    kind and key apart: the option found under the property name of a tag
    has the value (kind, name and data type) of the option built from that
    very tag, also when a later tag of the same name has replaced it; only
    the label can be the later tag's. *)
Theorem tag_option_value_by_key
    (organization : Organization) (tags : option TagCollection)
    (cm : option CustomMeasurementCollection) (t : Tag) :
  Forall (fun u => has_char ":" (template (tag_kind u)) = false)
    (Object_values (default [] tags)) ->
  t ∈ Object_values (default [] tags) ->
  exists o,
    fieldOptions organization tags cm !! tag_option_key t = Some o /\
    value o = value (tag_option t).
Proof.
  intros Hkinds Ht.
  destruct (last_tag_keyed_elem t _ Ht) as [u Hu].
  destruct (last_tag_keyed_Some _ _ _ Hu) as [Hin Hk].
  exists (tag_option u). split.
  - unfold fieldOptions. rewrite lookup_getEventsTableFieldOptions.
    by rewrite Hu.
  - rewrite Forall_forall in Hkinds.
    destruct (tag_option_key_inj u t (Hkinds u Hin) (Hkinds t Ht) Hk)
      as [Hkind Hkey].
    unfold tag_option. simpl.
    by rewrite !is_plain_tag_template, Hkind, Hkey.
Qed.

(** What is found under a property name of the field options does not
    depend on the enumeration order of a catalog whose tags have pairwise
    distinct property names: the results for two such catalogs, one a
    permutation of the other, have the same option, or none, under every
    name.  The order in which a result lists its properties follows the
    catalog and is not part of this statement. *)
Theorem getTableFieldOptions_same_lookups
    (organization : Organization) (tags tags' : TagCollection)
    (cm cm' : option CustomMeasurementCollection) (k : string) :
  NoDup (map tag_option_key (Object_values tags)) ->
  Object_values tags ≡ₚ Object_values tags' ->
  fieldOptions organization (Some tags) cm !! k =
  fieldOptions organization (Some tags') cm' !! k.
Proof.
  intros Hnd Hperm. unfold fieldOptions.
  rewrite !lookup_getEventsTableFieldOptions. simpl.
  by rewrite (last_tag_keyed_Permutation k _ _ Hnd Hperm).
Qed.

End FieldOptionsMore.

(** A tag of the example catalog, looked up by its property name. *)
Lemma tag_option_value_by_key_example :
  exists o,
    getEventsTableFieldOptions ["avg"; "count"] example_generateFieldOptions
      example_organization (Some example_tags) None !! "tag:span.op" = Some o /\
    value o =
    {| kind := TAG;
       meta := {| name := "span.op"; dataType := Some "string";
                  unknown := None; meta_parameters := None |} |}.
Proof.
  apply (tag_option_value_by_key ["avg"; "count"] example_generateFieldOptions
           example_organization (Some example_tags) None
           {| tag_key := "span.op"; tag_name := "span.op";
              tag_kind := Some "tag" |}).
  - repeat constructor.
  - apply elem_of_cons; by left.
Defined.

(** The example catalog read in its two enumeration orders: the option of
    the tag [span.op] is found under its name in both. *)
Lemma getTableFieldOptions_example_orders :
  getEventsTableFieldOptions ["avg"; "count"] example_generateFieldOptions
    example_organization (Some example_tags) None !! "tag:span.op" =
  getEventsTableFieldOptions ["avg"; "count"] example_generateFieldOptions
    example_organization (Some example_tags_reversed) None !! "tag:span.op".
Proof.
  apply (getTableFieldOptions_same_lookups ["avg"; "count"]
           example_generateFieldOptions example_organization example_tags
           example_tags_reversed None None "tag:span.op").
  - apply (bool_decide_unpack _). vm_compute. reflexivity.
  - apply Permutation_swap.
Defined.

(** *** Parameters of the events request *)

Lemma lookup_argument_params SPANS_EAP limit cursor referrer k :
  argument_params SPANS_EAP limit cursor referrer !! k =
  if String.eqb k "per_page" then Some (optional_number limit)
  else if String.eqb k "cursor" then Some (optional_string cursor)
  else if String.eqb k "referrer" then Some (optional_string referrer)
  else if String.eqb k "dataset" then Some (QString SPANS_EAP)
  else None.
Proof.
  unfold argument_params.
  destruct (String.eqb_spec k "per_page") as [->|?];
    [by rewrite lookup_insert_eq|rewrite lookup_insert_ne by done].
  destruct (String.eqb_spec k "cursor") as [->|?];
    [by rewrite lookup_insert_eq|rewrite lookup_insert_ne by done].
  destruct (String.eqb_spec k "referrer") as [->|?];
    [by rewrite lookup_insert_eq|rewrite lookup_insert_ne by done].
  destruct (String.eqb_spec k "dataset") as [->|?];
    [by rewrite lookup_singleton_eq|by rewrite lookup_singleton_ne].
Qed.

Lemma lookup_requestParams SPANS_EAP query limit cursor referrer extras k :
  requestParams SPANS_EAP query limit cursor referrer extras !! k =
  if truthy_string (orderby query) && String.eqb k "sort"
  then Some (QList [orderby query])
  else match default ∅ extras !! k with
       | Some v => Some v
       | None => argument_params SPANS_EAP limit cursor referrer !! k
       end.
Proof.
  unfold requestParams. fold (argument_params SPANS_EAP limit cursor referrer).
  destruct (truthy_string (orderby query)); simpl.
  - destruct (String.eqb_spec k "sort") as [->|Hne].
    + apply lookup_insert_eq.
    + rewrite lookup_insert_ne by done. apply lookup_spread.
  - apply lookup_spread.
Qed.

Section EventsRequest.

Variable SPANS_EAP : string.
Variable EventView : Type.
Variable eventViewFromWidget : string -> WidgetQuery -> PageFilters -> EventView.
Variable generateQueryStringObject : EventView -> gmap string QueryValue.
Variables Client Widget OnDemandControlContext MEPState : Type.

Let tableRequest :=
  getTableRequest SPANS_EAP EventView eventViewFromWidget
    generateQueryStringObject Client Widget OnDemandControlContext MEPState.
Let eventsRequest :=
  getEventsRequest SPANS_EAP EventView eventViewFromWidget
    generateQueryStringObject Client MEPState.

Lemma lookup_getEventsRequest
    api query organization pageFilters limit cursor referrer mep extras k :
  call_params
    (eventsRequest api query organization pageFilters limit cursor referrer
       mep extras) !! k =
  match requestParams SPANS_EAP query limit cursor referrer extras !! k with
  | Some v => Some v
  | None =>
      generateQueryStringObject (eventViewFromWidget "" query pageFilters) !! k
  end.
Proof. unfold eventsRequest, getEventsRequest. simpl. apply lookup_spread. Qed.

(** In a table request the page size, the cursor, the referrer and the
    dataset are those of the call: they replace what the event view says
    under these names, also when the argument is undefined.  Every parameter
    of the event view under another name, the sort apart, is passed on
    unchanged, and the request adds no further name. *)
Theorem getTableRequest_parameters
    (api : Client) (widget : Widget) (query : WidgetQuery)
    (organization : Organization) (pageFilters : PageFilters)
    (odc : option OnDemandControlContext) (limit : option Z)
    (cursor referrer : option string) (mep : option MEPState) :
  let call :=
    tableRequest api widget query organization pageFilters odc limit cursor
      referrer mep in
  let viewQuery :=
    generateQueryStringObject (eventViewFromWidget "" query pageFilters) in
  call_params call !! "per_page" = Some (optional_number limit) /\
  call_params call !! "cursor" = Some (optional_string cursor) /\
  call_params call !! "referrer" = Some (optional_string referrer) /\
  call_params call !! "dataset" = Some (QString SPANS_EAP) /\
  (forall k,
     k ∉ ["per_page"; "cursor"; "referrer"; "dataset"; "sort"] ->
     call_params call !! k = viewQuery !! k) /\
  dom (call_params call) ⊆
    dom viewQuery
    ∪ list_to_set ["per_page"; "cursor"; "referrer"; "dataset"; "sort"].
Proof.
  intros call viewQuery.
  assert (Hlookup : forall k,
    call_params call !! k =
    if truthy_string (orderby query) && String.eqb k "sort"
    then Some (QList [orderby query])
    else match argument_params SPANS_EAP limit cursor referrer !! k with
         | Some v => Some v
         | None => viewQuery !! k
         end).
  { intros k. unfold call, tableRequest, getTableRequest.
    fold eventsRequest. rewrite lookup_getEventsRequest, lookup_requestParams.
    simpl. rewrite lookup_empty. fold viewQuery.
    by destruct (truthy_string (orderby query) && String.eqb k "sort"). }
  repeat split.
  - rewrite Hlookup. simpl. by rewrite andb_false_r.
  - rewrite Hlookup. simpl. by rewrite andb_false_r.
  - rewrite Hlookup. simpl. by rewrite andb_false_r.
  - rewrite Hlookup. simpl. by rewrite andb_false_r.
  - intros k Hk. rewrite Hlookup, lookup_argument_params.
    rewrite !not_elem_of_cons in Hk.
    destruct Hk as (H1 & H2 & H3 & H4 & H5 & _).
    apply String.eqb_neq in H1, H2, H3, H4, H5.
    by rewrite H1, H2, H3, H4, H5, andb_false_r.
  - intros k. rewrite elem_of_union, !elem_of_dom, elem_of_list_to_set.
    rewrite Hlookup, lookup_argument_params. rewrite !elem_of_cons.
    destruct (String.eqb_spec k "sort") as [->|?]; [by eauto 10|].
    rewrite andb_false_r.
    destruct (String.eqb_spec k "per_page") as [->|?]; [by eauto 10|].
    destruct (String.eqb_spec k "cursor") as [->|?]; [by eauto 10|].
    destruct (String.eqb_spec k "referrer") as [->|?]; [by eauto 10|].
    destruct (String.eqb_spec k "dataset") as [->|?]; [by eauto 10|].
    by left.
Qed.

(** Extra parameters given to the events request win over the parameters
    set from the arguments and over those of the event view, with one
    exception: a query with an order-by sorts by it whatever the extras
    say.  A name that the extras do not mention is as in the request without
    extras. *)
Theorem getEventsRequest_extras
    (api : Client) (query : WidgetQuery) (organization : Organization)
    (pageFilters : PageFilters) (limit : option Z)
    (cursor referrer : option string) (mep : option MEPState)
    (queryExtras : gmap string QueryValue) :
  let call :=
    eventsRequest api query organization pageFilters limit cursor referrer
      mep (Some queryExtras) in
  let plain :=
    eventsRequest api query organization pageFilters limit cursor referrer
      mep None in
  (forall k v, queryExtras !! k = Some v -> k <> "sort" ->
     call_params call !! k = Some v) /\
  (forall k, queryExtras !! k = None ->
     call_params call !! k = call_params plain !! k) /\
  (orderby query <> "" ->
     call_params call !! "sort" = Some (QList [orderby query])) /\
  (orderby query = "" ->
     forall v, queryExtras !! "sort" = Some v ->
       call_params call !! "sort" = Some v) /\
  call_url call = call_url plain /\
  call_options call = call_options plain.
Proof.
  intros call plain. unfold call, plain.
  split; [|split; [|split; [|split; [|done]]]].
  - intros k v Hk Hne. rewrite lookup_getEventsRequest, lookup_requestParams.
    apply String.eqb_neq in Hne. rewrite Hne, andb_false_r. simpl.
    by rewrite Hk.
  - intros k Hk.
    rewrite !lookup_getEventsRequest, !lookup_requestParams. simpl.
    by rewrite Hk, lookup_empty.
  - intros Hne%truthy_string_nonempty.
    rewrite lookup_getEventsRequest, lookup_requestParams. by rewrite Hne.
  - intros Ho v Hv.
    rewrite lookup_getEventsRequest, lookup_requestParams. rewrite Ho. simpl.
    by rewrite Hv.
Qed.

End EventsRequest.

(** *** The store is only extended *)

Lemma frame_read_organization l : frame_preserving (read_organization l).
Proof. unfold read_organization. repeat frame_step. Qed.

Lemma frame_read_tag l : frame_preserving (read_tag l).
Proof. unfold read_tag. repeat frame_step. Qed.

Lemma frame_tag_values l : frame_preserving (tag_values l).
Proof. unfold tag_values. repeat frame_step. Qed.

Lemma frame_read_options l : frame_preserving (read_options l).
Proof. unfold read_options. repeat frame_step. Qed.

#[local] Hint Resolve frame_read_organization frame_read_tag frame_tag_values
  frame_read_options : frame.

Lemma frame_alloc_catalog m : frame_preserving (alloc_catalog m).
Proof. unfold alloc_catalog. repeat frame_step. Qed.

Lemma frame_reduce_tag acc tag : frame_preserving (reduce_tag acc tag).
Proof. unfold reduce_tag. repeat frame_step. Qed.

#[local] Hint Resolve frame_alloc_catalog frame_reduce_tag : frame.

Lemma frame_getEventsTableFieldOptions_store allowed generate organization tags cm :
  frame_preserving
    (getEventsTableFieldOptions_store allowed generate organization tags cm).
Proof. unfold getEventsTableFieldOptions_store. repeat frame_step. Qed.

(** *** The function over the store computes the function over values *)

Lemma returns_read_options_eq l entries h :
  h !! l = Some (HFieldOptions entries) ->
  returns (read_options l) h (fun e h' => e = entries /\ h' = h).
Proof.
  intros Hl. unfold read_options.
  eapply returns_bind; [exact (returns_read_eq _ _ _ Hl)|].
  intros o h1 _ [-> ->]. by apply returns_ret.
Qed.

Lemma returns_read_options l entries h (Q : list (string * loc) -> store -> Prop) :
  h !! l = Some (HFieldOptions entries) -> Q entries h ->
  returns (read_options l) h Q.
Proof.
  intros Hl HQ. unfold read_options.
  eapply returns_bind; [exact (returns_read_eq _ _ _ Hl)|].
  intros o h1 _ [-> ->]. by apply returns_ret.
Qed.

Lemma returns_read_tag_eq l t h :
  h !! l = Some (HTag t) ->
  returns (read_tag l) h (fun x h' => x = t /\ h' = h).
Proof.
  intros Hl. unfold read_tag.
  eapply returns_bind; [exact (returns_read_eq _ _ _ Hl)|].
  intros o h1 _ [-> ->]. by apply returns_ret.
Qed.

Lemma returns_read_organization_eq l org h :
  h !! l = Some (HOrganization org) ->
  returns (read_organization l) h (fun x h' => x = org /\ h' = h).
Proof.
  intros Hl. unfold read_organization.
  eapply returns_bind; [exact (returns_read_eq _ _ _ Hl)|].
  intros o h1 _ [-> ->]. by apply returns_ret.
Qed.

Lemma returns_tag_values_eq l entries h :
  h !! l = Some (HTagCollection entries) ->
  returns (tag_values l) h (fun x h' => x = Object_values entries /\ h' = h).
Proof.
  intros Hl. unfold tag_values.
  eapply returns_bind; [exact (returns_read_eq _ _ _ Hl)|].
  intros o h1 _ [-> ->]. by apply returns_ret.
Qed.

Lemma entries_hold_nil h : entries_hold h [] ∅.
Proof.
  split; [apply NoDup_nil_2|]. split; [done|]. intros k. by rewrite lookup_empty.
Qed.

Lemma entries_hold_set_prop h entries m key l o :
  entries_hold h entries m -> option_at h l = Some o ->
  entries_hold h (set_prop entries key l) (<[key := o]> m).
Proof.
  intros (Hnd & Hall & Hm) Hl. split; [by apply set_prop_NoDup|]. split.
  - apply set_prop_Forall; [done|simpl; by rewrite Hl|done].
  - intros k. rewrite assoc_set_prop, lookup_insert.
    destruct (String.eqb_spec key k) as [->|Hne].
    + rewrite decide_True by done. simpl. by rewrite Hl.
    + rewrite decide_False by done. apply Hm.
Qed.

Lemma option_at_preserves h h' l o :
  preserves h h' -> option_at h l = Some o -> option_at h' l = Some o.
Proof.
  unfold option_at. intros Hpres Hl.
  destruct (h !! l) as [[]|] eqn:Hh; try discriminate.
  by rewrite (Hpres _ _ Hh).
Qed.

Lemma entries_hold_preserves h h' entries m :
  preserves h h' -> entries_hold h entries m -> entries_hold h' entries m.
Proof.
  intros Hpres (Hnd & Hall & Hm). split; [done|]. split.
  - eapply Forall_impl; [exact Hall|].
    intros e [o Ho]. exists o. by eapply option_at_preserves.
  - intros k. rewrite Hm. destruct (assoc k entries) as [l|] eqn:Hk; [|done].
    simpl. rewrite Forall_forall in Hall.
    destruct (Hall _ (assoc_Some_elem _ _ _ Hk)) as [o Ho]. simpl in Ho.
    rewrite Ho. symmetry. by eapply option_at_preserves.
Qed.

Lemma holds_options_preserves h h' l m :
  preserves h h' -> holds_options h l m -> holds_options h' l m.
Proof.
  intros Hpres (entries & Hl & Hent). exists entries.
  split; [by apply Hpres|by eapply entries_hold_preserves].
Qed.

Lemma entries_hold_spread h a ma b mb :
  entries_hold h a ma -> entries_hold h b mb ->
  entries_hold h (spread_props a b) (spread ma mb).
Proof.
  unfold spread_props. revert a ma mb.
  induction b as [|[k l] b IH]; intros a ma mb Ha (Hnd & Hall & Hmb); simpl.
  - assert (mb = ∅) as ->.
    { apply map_eq. intros k. by rewrite Hmb, lookup_empty. }
    unfold spread. by rewrite (left_id_L ∅ (∪)).
  - inversion Hnd as [|? ? Hk Hnd']; subst.
    inversion Hall as [|? ? [o Ho] Hall']; subst. simpl in Ho.
    assert (Hdel : entries_hold h b (delete k mb)).
    { split; [done|]. split; [done|]. intros k'.
      rewrite lookup_delete. case_decide as Hkk.
      - subst k'. symmetry.
        apply assoc_None in Hk. by rewrite Hk.
      - rewrite Hmb. simpl.
        apply String.eqb_neq in Hkk. by rewrite Hkk. }
    pose proof (IH _ _ _ (entries_hold_set_prop _ _ _ k l o Ha Ho) Hdel) as Hres.
    assert (Heq : spread (<[k:=o]> ma) (delete k mb) = spread ma mb);
      [|by rewrite <- Heq].
    apply map_eq. intros k'. rewrite !lookup_spread, lookup_delete, lookup_insert.
    case_decide as Hkk.
    + subst k'. rewrite Hmb. simpl. rewrite String.eqb_refl. simpl.
      by rewrite Ho.
    + done.
Qed.

Section Refinement.

Variable ALLOWED_EXPLORE_VISUALIZE_AGGREGATES : list string.
Variable generateFieldOptions :
  Organization -> list string -> list string -> gmap string Aggregation ->
  gmap string FieldValueOption.

Lemma returns_alloc_option h o :
  returns (alloc (HFieldOption o)) h
    (fun l h' => preserves h h' /\ option_at h' l = Some o).
Proof.
  apply returns_alloc. intros l Hl. split.
  - by apply preserves_insert_unused.
  - unfold option_at. by rewrite lookup_insert_eq.
Qed.

Lemma returns_alloc_options h entries m :
  entries_hold h entries m ->
  returns (alloc (HFieldOptions entries)) h
    (fun l h' => h !! l = None /\ preserves h h' /\ holds_options h' l m).
Proof.
  intros Hent. apply returns_alloc. intros l Hl.
  assert (Hpres : preserves h (<[l:=HFieldOptions entries]> h))
    by by apply preserves_insert_unused.
  split; [done|]. split; [done|]. exists entries.
  split; [apply lookup_insert_eq|by eapply entries_hold_preserves].
Qed.

Lemma returns_catalog_entries xs acc macc h :
  NoDup xs.*1 -> (forall k, k ∈ xs.*1 -> macc !! k = None) ->
  entries_hold h acc macc ->
  returns
    (foldM (fun acc (kv : string * FieldValueOption) =>
              l ← alloc (HFieldOption kv.2); mret (set_prop acc kv.1 l))
       xs acc)
    h (fun entries h' => entries_hold h' entries (list_to_map xs ∪ macc)).
Proof.
  revert acc macc h.
  induction xs as [|[k o] xs IH]; intros acc macc h Hnd Hfree Hacc; simpl.
  - apply returns_ret. by rewrite (left_id_L ∅ (∪)).
  - inversion Hnd as [|? ? Hk Hnd']; subst.
    eapply (returns_bind _ _ _
              (fun acc' h' => entries_hold h' acc' (<[k:=o]> macc))).
    { eapply returns_bind; [exact (returns_alloc_option h o)|].
      intros l h1 _ [Hpres Hl]. apply returns_ret.
          apply (entries_hold_set_prop h1 acc macc k l o); [|exact Hl].
      by eapply entries_hold_preserves. }
    intros acc' h1 Hpres Hacc'. simpl in Hacc'.
    assert (Hgoal : <[k:=o]> (list_to_map xs) ∪ macc
                    = list_to_map xs ∪ <[k:=o]> macc).
    { rewrite <- insert_union_l. apply insert_union_r.
      by apply not_elem_of_list_to_map_1. }
    rewrite Hgoal. apply IH; [done| |done].
    intros k' Hk'. rewrite lookup_insert_ne.
    + apply Hfree. apply elem_of_cons; by right.
    + by intros ->.
Qed.

Lemma returns_alloc_catalog m h :
  returns (alloc_catalog m) h (fun l h' => holds_options h' l m).
Proof.
  unfold alloc_catalog. eapply returns_bind.
  - apply (returns_catalog_entries (map_to_list m) [] ∅ h).
    + apply NoDup_fst_map_to_list.
    + intros k _. apply lookup_empty.
    + apply entries_hold_nil.
  - intros entries h1 _ Hent. simpl in Hent.
    rewrite list_to_map_to_list, (right_id_L ∅ (∪)) in Hent.
    destruct (returns_alloc_options h1 entries m Hent)
      as (l & h2 & Hrun & Hpres & _ & _ & Hl).
    by exists l, h2.
Qed.

Lemma returns_reduce_tag acc tag t m h :
  holds_options h acc m -> h !! tag = Some (HTag t) ->
  returns (reduce_tag acc tag) h
    (fun acc' h' =>
       holds_options h' acc' (<[tag_option_key t := tag_option t]> m)).
Proof.
  intros (entries & Hacc & Hent) Htag. unfold reduce_tag.
  eapply returns_bind; [exact (returns_read_tag_eq _ _ _ Htag)|].
  intros t' h1 _ [-> ->].
  eapply returns_bind; [exact (returns_read_options_eq _ _ _ Hacc)|].
  intros e h1 _ [-> ->].
  eapply returns_bind; [exact (returns_alloc_option h (tag_option t))|].
  intros l h1 _ [Hpres Hl]. simpl.
  assert (Hent' : entries_hold h1 (set_prop entries (tag_option_key t) l)
                    (<[tag_option_key t := tag_option t]> m)).
  { apply entries_hold_set_prop; [by eapply entries_hold_preserves|done]. }
  destruct (returns_alloc_options h1 _ _ Hent')
    as (l' & h2 & Hrun & Hpres' & _ & _ & Hl').
  by exists l', h2.
Qed.

Lemma returns_reduce_tags locs ts acc m h :
  Forall2 (fun l t => h !! l = Some (HTag t)) locs ts ->
  holds_options h acc m ->
  returns (foldM reduce_tag locs acc) h
    (fun acc' h' =>
       holds_options h' acc'
         (fold_left (fun a t => <[tag_option_key t := tag_option t]> a) ts m)).
Proof.
  intros Htags. revert ts acc m h Htags.
  induction locs as [|l locs IH]; intros ts acc m h Htags Hacc;
    inversion Htags as [|? t ? ts' Hl Hrest]; subst; simpl.
  - by apply returns_ret.
  - eapply returns_bind; [exact (returns_reduce_tag _ _ _ _ _ Hacc Hl)|].
    intros acc' h1 Hpres Hacc'. apply IH; [|exact Hacc'].
    eapply Forall2_impl; [exact Hrest|]. intros l' t' Hl'. by apply Hpres.
Qed.

(** The arguments of a call over the store stand for the arguments of a call
    over values. *)
Definition holds_arguments (h : store) (organization : loc) (tags : option loc)
    (org : Organization) (T : option TagCollection) : Prop :=
  h !! organization = Some (HOrganization org) /\
  match tags, T with
  | None, None => True
  | Some l, Some T => holds_tags h l T
  | _, _ => False
  end.

Lemma holds_tags_values h l T :
  holds_tags h l T ->
  exists entries,
    h !! l = Some (HTagCollection entries) /\
    Forall2 (fun l t => h !! l = Some (HTag t))
      (Object_values entries) (Object_values T).
Proof.
  intros (entries & Hl & Hall). exists entries. split; [done|].
  unfold Object_values. clear Hl.
  induction Hall as [|e kt es kts [_ He] _ IH]; simpl; by constructor.
Qed.

(** On arguments that the store holds, the function over the store returns,
    changes no object of the store, and its result is a new object that
    holds the options computed by [getEventsTableFieldOptions]. *)
Lemma getEventsTableFieldOptions_store_refines h organization tags cm org T cmv :
  holds_arguments h organization tags org T ->
  returns
    (getEventsTableFieldOptions_store ALLOWED_EXPLORE_VISUALIZE_AGGREGATES
       generateFieldOptions organization tags cm)
    h
    (fun result h' =>
       h !! result = None /\
       holds_options h' result
         (getEventsTableFieldOptions ALLOWED_EXPLORE_VISUALIZE_AGGREGATES
            generateFieldOptions org T cmv)).
Proof.
  intros [Horg Htags]. unfold getEventsTableFieldOptions_store.
  eapply returns_bind; [exact (returns_read_organization_eq _ _ _ Horg)|].
  intros org' h0 _ [-> ->].
  eapply returns_bind; [apply returns_alloc_catalog|].
  intros base h1 Hp1 Hbase. simpl in Hbase.
  set (P := fun (source : loc) (h' : store) =>
              preserves h1 h' /\
              exists entries,
                h' !! source = Some (HTagCollection entries) /\
                Forall2 (fun l t => h' !! l = Some (HTag t))
                  (Object_values entries) (Object_values (default [] T))).
  eapply (returns_bind _ _ _ P).
  { destruct tags as [l|], T as [T|]; try done.
    - apply returns_ret. split; [apply preserves_refl|].
      destruct (holds_tags_values h l T Htags) as (entries & Hl & Hall).
      exists entries. split; [by apply Hp1|].
      eapply Forall2_impl; [exact Hall|]. intros l' t' Hl'. by apply Hp1.
    - apply returns_alloc. intros l Hl. split.
      + by apply preserves_insert_unused.
      + exists []. split; [apply lookup_insert_eq|constructor]. }
  intros source h2 Hp2 (Hp12 & entries & Hsource & Hvalues).
  eapply returns_bind; [exact (returns_tag_values_eq _ _ _ Hsource)|].
  intros values h' _ [-> ->].
  eapply returns_bind;
    [exact (returns_alloc_options h2 [] ∅ (entries_hold_nil h2))|].
  intros initial h3 Hp3 (_ & Hp23 & Hinitial). simpl in Hp23.
  eapply returns_bind.
  { apply (returns_reduce_tags (Object_values entries)
             (Object_values (default [] T)) initial ∅ h3); [|exact Hinitial].
    eapply Forall2_impl; [exact Hvalues|]. intros l' t' Hl'. by apply Hp23. }
  intros spanTagsLoc h4 Hp4 Hown. simpl in Hown.
  fold (spanTags T) in Hown.
  assert (Hbase4 : holds_options h4 base
            (generateFieldOptions org [] []
               (EAP_AGGREGATIONS ALLOWED_EXPLORE_VISUALIZE_AGGREGATES))).
  { eapply holds_options_preserves; [|exact Hbase].
    eapply preserves_trans; [exact Hp12|].
    eapply preserves_trans; [exact Hp23|]. exact Hp4. }
  destruct Hbase4 as (bentries & Hbl & Hbent).
  destruct Hown as (oentries & Hol & Hoent).
  eapply returns_bind; [exact (returns_read_options_eq _ _ _ Hbl)|].
  intros e h' _ [-> ->].
  eapply returns_bind; [exact (returns_read_options_eq _ _ _ Hol)|].
  intros e h' _ [-> ->].
  destruct (returns_alloc_options h4 (spread_props bentries oentries) _
              (entries_hold_spread _ _ _ _ _ Hbent Hoent))
    as (l & h5 & Hrun & Hpres & Hfresh & _ & Hl).
  exists l, h5. split; [done|]. split; [done|]. split; [|done].
  destruct (h !! l) as [o|] eqn:Hhl; [|done].
  assert (h4 !! l = Some o); [|congruence].
  apply Hp4, Hp23, Hp12, Hp1. done.
Qed.

End Refinement.

Section Inputs.

Variable ALLOWED_EXPLORE_VISUALIZE_AGGREGATES : list string.
Variable generateFieldOptions :
  Organization -> list string -> list string -> gmap string Aggregation ->
  gmap string FieldValueOption.

Let fieldOptions_store :=
  getEventsTableFieldOptions_store ALLOWED_EXPLORE_VISUALIZE_AGGREGATES
    generateFieldOptions.
Let fieldOptions :=
  getEventsTableFieldOptions ALLOWED_EXPLORE_VISUALIZE_AGGREGATES
    generateFieldOptions.

Lemma lookup_fieldOptions_no_tags organization cm :
  fieldOptions organization None cm = fieldOptions organization (Some []) cm.
Proof. reflexivity. Qed.

(** C8.  Run from any store, on any references for the organization, the
    tag catalog and the custom measurements, [getTableFieldOptions] leaves
    every object of the store as it was: what it builds, it builds in new
    objects.  When the store holds the organization and the tag catalog is
    absent, or is an empty object, the call returns (it does not throw) and
    its result holds the base catalog alone; more generally it returns on
    every tag catalog that the store holds, with the options of the function
    over values. *)
Theorem getTableFieldOptions_leaves_inputs
    (h : store) (organization : loc) (tags customMeasurements : option loc) :
  match fieldOptions_store organization tags customMeasurements h with
  | Some (_, h') => preserves h h'
  | None => True
  end /\
  (forall org,
     h !! organization = Some (HOrganization org) ->
     tags = None \/ (exists l, tags = Some l /\ h !! l = Some (HTagCollection [])) ->
     exists result h',
       fieldOptions_store organization tags customMeasurements h
         = Some (result, h') /\
       preserves h h' /\ h !! result = None /\
       holds_options h' result
         (generateFieldOptions org [] []
            (EAP_AGGREGATIONS ALLOWED_EXPLORE_VISUALIZE_AGGREGATES))) /\
  (forall org T cm,
     holds_arguments h organization tags org T ->
     exists result h',
       fieldOptions_store organization tags customMeasurements h
         = Some (result, h') /\
       preserves h h' /\ h !! result = None /\
       holds_options h' result (fieldOptions org T cm)).
Proof.
  assert (Hgeneral : forall org T cm,
    holds_arguments h organization tags org T ->
    exists result h',
      fieldOptions_store organization tags customMeasurements h
        = Some (result, h') /\
      preserves h h' /\ h !! result = None /\
      holds_options h' result (fieldOptions org T cm)).
  { intros org T cm Hargs.
    destruct (getEventsTableFieldOptions_store_refines
                ALLOWED_EXPLORE_VISUALIZE_AGGREGATES generateFieldOptions
                h organization tags customMeasurements org T cm Hargs)
      as (result & h' & Hrun & Hpres & Hnew & Hres).
    by exists result, h'. }
  split; [|split; [|exact Hgeneral]].
  - destruct (fieldOptions_store organization tags customMeasurements h)
      as [[result h']|] eqn:Hrun; [|done].
    by eapply frame_getEventsTableFieldOptions_store.
  - intros org Horg Hempty.
    assert (Hbase : forall T, default [] T = [] ->
              fieldOptions org T None
              = generateFieldOptions org [] []
                  (EAP_AGGREGATIONS ALLOWED_EXPLORE_VISUALIZE_AGGREGATES)).
    { intros T HT. unfold fieldOptions, getEventsTableFieldOptions, spanTags.
      rewrite HT. simpl. unfold spread. by rewrite (left_id_L ∅ (∪)). }
    destruct Hempty as [->|(l & -> & Hl)].
    + rewrite <- (Hbase None eq_refl). apply Hgeneral. by split.
    + rewrite <- (Hbase (Some []) eq_refl). apply Hgeneral. split; [done|].
      exists []. split; [done|constructor].
Qed.

End Inputs.

(** On the example store the call returns, the four objects of the store are
    still there, and the result is a new object with the options of the two
    tags and of the base catalog. *)
Lemma getTableFieldOptions_example_store :
  exists result h',
    getEventsTableFieldOptions_store ["avg"; "count"]
      example_generateFieldOptions 1%positive (Some 2%positive) None
      example_store = Some (result, h') /\
    preserves example_store h' /\ example_store !! result = None /\
    holds_options h' result
      (getEventsTableFieldOptions ["avg"; "count"]
         example_generateFieldOptions example_organization
         (Some example_tags) None).
Proof.
  apply (proj2 (proj2 (getTableFieldOptions_leaves_inputs ["avg"; "count"]
                         example_generateFieldOptions example_store 1%positive
                         (Some 2%positive) None))
           example_organization (Some example_tags) None).
  split; [reflexivity|].
  exists [("span.op", 3%positive); ("span.self_time", 4%positive)].
  split; [reflexivity|]. repeat constructor.
Defined.

End SpansConfig.

(** ** The dashboard list manager ([manage/dashboardList]) *)

Module DashboardList.
Import Js Types.

(** *** Data model *)

Record Widget := {
  widget_id : option string;
  widget_title : string;
  displayType : string;
  widget_queries : list string }.

Record DashboardDetails := {
  details_id : string;
  details_title : string;
  widgets : list Widget }.

Record WidgetPreview := { preview_displayType : string }.

Record DashboardListItem := {
  id : string;
  title : string;
  dateCreated : option string;
  createdBy : option string;
  widgetPreview : list WidgetPreview }.

Record Location := { location_query : option (gmap string QueryValue) }.

(** *** Effects

    The handlers talk to the backend, the router, the analytics sink and the
    notification area.  A handler is modelled by the list of the effects it
    performs, in order, together with its outcome: [None] is an exception (a
    rejected promise) that nobody caught. *)

#[warnings="-register-all"]
Inductive Event :=
| FetchDashboard (orgSlug dashboardId : string)
| CreateDashboard (orgSlug : string) (newDashboard : DashboardDetails)
    (duplicate : option bool)
| DeleteDashboard (orgSlug dashboardId : string)
| TrackAnalytics (eventKey : string) (dashboard_id : option (option Z))
| OnDashboardsChange
| AddSuccessMessage (message : string)
| AddErrorMessage (message : string)
| OpenConfirmModal (message priority : string)
    (onConfirm : list Event * option unit)
| Navigate (pathname : string) (query : gmap string QueryValue).

Definition Action (A : Type) : Type := list Event * option A.

Definition ret {A} (x : A) : Action A := ([], Some x).

Definition throw {A} : Action A := ([], None).

Definition bind {A B} (m : Action A) (k : A -> Action B) : Action B :=
  match m with
  | (t, Some x) => let '(t', r) := k x in (t ++ t', r)
  | (t, None) => (t, None)
  end.

Definition emit (e : Event) : Action unit := ([e], Some tt).

(** [try { body } catch (e) { handler }] *)
Definition try_catch {A} (body handler : Action A) : Action A :=
  match body with
  | (t, Some x) => (t, Some x)
  | (t, None) => let '(t', r) := handler in (t ++ t', r)
  end.

#[global] Instance Action_ret : MRet Action := @ret.
#[global] Instance Action_bind : MBind Action :=
  fun A B k m => bind m k.

Definition trace {A} (m : Action A) : list Event := fst m.

(** The create requests among the effects of a handler. *)
Definition is_create (e : Event) : bool :=
  match e with
  | CreateDashboard _ _ _ => true
  | _ => false
  end.

Definition create_requests (t : list Event) : list Event := filter is_create t.

(** [widget.id = undefined] *)
Definition clear_id (w : Widget) : Widget :=
  {| widget_id := None;
     widget_title := widget_title w;
     displayType := displayType w;
     widget_queries := widget_queries w |}.

(** *** Rendered elements *)

Record MenuItemProps := {
  item_key : string;
  item_label : string;
  item_priority : option string;
  onAction : Action unit }.

Record DropdownMenu := {
  items : list MenuItemProps;
  position : string;
  disabledKeys : list string;
  offset : Z }.

Record DashboardCard := {
  card_key : string;
  card_title : string;
  to_pathname : string;
  to_query : option (gmap string QueryValue);
  detail : string;
  dateStatus : option string;
  card_createdBy : option string;
  renderWidgets : list WidgetPreview;
  renderContextMenu : DropdownMenu }.

Inductive Rendered :=
| EmptyStateWarning (message : string)
| DashboardGrid (cards : list DashboardCard).

(** [tn(singular, plural, n)] for the two labels of the card. *)
Definition tn_widgets (n : nat) : string :=
  if Nat.eqb n 1 then pretty n +:+ " widget" else pretty n +:+ " widgets".

(** A menu action can be chosen when the menu has it and does not disable
    it. *)
Definition action_disabled (menu : DropdownMenu) (key : string) : Prop :=
  key ∈ disabledKeys menu.

Definition action_enabled (menu : DropdownMenu) (key : string) : Prop :=
  key ∈ map item_key (items menu) /\ key ∉ disabledKeys menu.

(** The second colon-delimited field of the cursor, when there is one:
    [cursor?.split?.(':')?.[1]]. *)
Definition cursor_field (cursor : option string) : option string :=
  match cursor with
  | Some c => split_on ":" c !! 1%nat
  | None => None
  end.

(** [Number(cursor?.split?.(':')?.[1] ?? 0)] *)
Definition cursor_offset (cursor : option string) : JsNumber :=
  match cursor_field cursor with
  | Some field => Number_of_string field
  | None => zero
  end.

Section Component.

(** The props of the component and its collaborators: the answers of the
    backend to the three requests ([None] is a rejected promise), the
    cloning helper of the dashboards utilities ([None] when it throws), and
    whether a call of [trackAnalytics], of [onDashboardsChange] or of one of
    the two notification helpers returns ([false] when it throws). *)
Variable organization : Organization.
Variable location : Location.
Variable dashboards : option (list DashboardListItem).
Variable pageLinks : string.
Variable returns : Event -> bool.
Variable fetchResponse : string -> string -> option DashboardDetails.
Variable createResponse :
  string -> DashboardDetails -> option bool -> option DashboardDetails.
Variable deleteResponse : string -> string -> option unit.
Variable cloneDashboard : DashboardDetails -> option DashboardDetails.

(** A call that may throw: the effect is recorded when the call is made,
    whether it returns or throws. *)
Definition call (e : Event) : Action unit :=
  ([e], if returns e then Some tt else None).

Definition fetchDashboard (orgSlug dashboardId : string)
  : Action DashboardDetails :=
  ([FetchDashboard orgSlug dashboardId], fetchResponse orgSlug dashboardId).

Definition createDashboard (orgSlug : string) (newDashboard : DashboardDetails)
    (duplicate : option bool) : Action DashboardDetails :=
  ([CreateDashboard orgSlug newDashboard duplicate],
   createResponse orgSlug newDashboard duplicate).

Definition deleteDashboard (orgSlug dashboardId : string) : Action unit :=
  ([DeleteDashboard orgSlug dashboardId], deleteResponse orgSlug dashboardId).

Definition handleDelete (dashboard : DashboardListItem) : Action unit :=
  try_catch
    (deleteDashboard (slug organization) (id dashboard) ;;
     call (TrackAnalytics "dashboards_manage.delete"
             (Some (parseInt10 (id dashboard)))) ;;
     call OnDashboardsChange ;;
     call (AddSuccessMessage "Dashboard deleted"))
    (call (AddErrorMessage "Error deleting Dashboard")).

Definition handleDuplicate (dashboard : DashboardListItem) : Action unit :=
  try_catch
    (dashboardDetail ← fetchDashboard (slug organization) (id dashboard);
     newDashboard ← ([], cloneDashboard dashboardDetail);
     let newDashboard :=
       {| details_id := details_id newDashboard;
          details_title := details_title newDashboard;
          widgets := map clear_id (widgets newDashboard) |} in
     createDashboard (slug organization) newDashboard (Some true) ;;
     call (TrackAnalytics "dashboards_manage.duplicate"
             (Some (parseInt10 (id dashboard)))) ;;
     call OnDashboardsChange ;;
     call (AddSuccessMessage "Dashboard duplicated"))
    (call (AddErrorMessage "Error duplicating Dashboard")).

Definition renderDropdownMenu (dashboard : DashboardListItem) : DropdownMenu :=
  let menuItems :=
    [ {| item_key := "dashboard-duplicate";
         item_label := "Duplicate";
         item_priority := None;
         onAction := handleDuplicate dashboard |};
      {| item_key := "dashboard-delete";
         item_label := "Delete";
         item_priority := Some "danger";
         onAction :=
           emit (OpenConfirmModal
                   "Are you sure you want to delete this dashboard?" "danger"
                   (handleDelete dashboard)) |} ] in
  {| items := menuItems;
     position := "bottom-end";
     disabledKeys :=
       match dashboards with
       | Some ds =>
           if (length ds <=? 1)%nat then ["dashboard-delete"] else []
       | None => []
       end;
     offset := 4 |}.

Definition renderGridPreview (dashboard : DashboardListItem)
  : list WidgetPreview :=
  widgetPreview dashboard.

Definition queryLocation : option (gmap string QueryValue) :=
  match location_query location with
  | Some q => if (0 <? size q)%nat then Some q else None
  | None => None
  end.

Definition renderMiniDashboards : option (list DashboardCard) :=
  match dashboards with
  | Some ds =>
      Some
        (imap
           (fun index dashboard =>
              {| card_key := pretty index +:+ "-" +:+ id dashboard;
                 card_title := title dashboard;
                 to_pathname :=
                   "/organizations/" +:+ slug organization +:+ "/dashboard/"
                   +:+ id dashboard +:+ "/";
                 to_query := queryLocation;
                 detail := tn_widgets (length (widgetPreview dashboard));
                 dateStatus :=
                   match dateCreated dashboard with
                   | Some date => if truthy_string date then Some date else None
                   | None => None
                   end;
                 card_createdBy := createdBy dashboard;
                 renderWidgets := renderGridPreview dashboard;
                 renderContextMenu := renderDropdownMenu dashboard |})
           ds)
  | None => None
  end.

Definition renderDashboardGrid : Rendered :=
  match dashboards with
  | Some (_ :: _) => DashboardGrid (default [] renderMiniDashboards)
  | _ => EmptyStateWarning "Sorry, no Dashboards match your filters."
  end.

(** The [onCursor] handler given to the pagination row. *)
Definition onCursor (cursor : option string) (path : string)
    (query : gmap string QueryValue) (direction : Z) : Action unit :=
  let offset := cursor_offset cursor in
  let newQuery := <["cursor" := optional_string cursor]> query in
  let isPrevious := (direction =? -1)%Z in
  let newQuery :=
    if le_zero offset && isPrevious then delete "cursor" newQuery
    else newQuery in
  emit (TrackAnalytics "dashboards_manage.paginate" None) ;;
  emit (Navigate path newQuery).

End Component.

(** The query object handed to the router by a handler: that of its first
    navigation. *)
Fixpoint first_navigation (t : list Event) : option (gmap string QueryValue) :=
  match t with
  | Navigate _ q :: _ => Some q
  | _ :: t' => first_navigation t'
  | [] => None
  end.

Definition navigation_query (a : Action unit) : option (gmap string QueryValue) :=
  first_navigation (trace a).

(** *** Auxiliary definitions of the statements and closed examples *)

(** The dashboard that Duplicate sends: the clone with every widget
    identifier cleared. *)
Definition duplicated (cloneDashboard : DashboardDetails -> DashboardDetails)
    (detail : DashboardDetails) : DashboardDetails :=
  {| details_id := details_id (cloneDashboard detail);
     details_title := details_title (cloneDashboard detail);
     widgets := map clear_id (widgets (cloneDashboard detail)) |}.

(** The offset as the specification words it: 0 when the field is absent or
    cannot be parsed. *)
Definition spec_offset (cursor : option string) : JsNumber :=
  match cursor_offset cursor with
  | NaN => zero
  | n => n
  end.

Definition example_widgets : list Widget :=
  [ {| widget_id := Some "11"; widget_title := "Slowest spans";
       displayType := "table"; widget_queries := ["span.op"] |};
    {| widget_id := Some "12"; widget_title := "Throughput";
       displayType := "line"; widget_queries := ["count()"] |} ].

Definition example_detail : DashboardDetails :=
  {| details_id := "7"; details_title := "Backend"; widgets := example_widgets |}.

Definition example_item : DashboardListItem :=
  {| id := "7"; title := "Backend"; dateCreated := None; createdBy := None;
     widgetPreview := [ {| preview_displayType := "table" |};
                        {| preview_displayType := "line" |} ] |}.

Definition example_organization : Organization :=
  {| slug := "acme"; features := [] |}.

(** *** Observations on the effects of a handler *)

(** The notifications shown to the user. *)
Definition is_notification (e : Event) : bool :=
  match e with
  | AddSuccessMessage _ | AddErrorMessage _ => true
  | _ => false
  end.

Definition notifications (t : list Event) : list Event :=
  filter is_notification t.

(** The delete requests sent to the backend.  A confirm modal that is merely
    opened sends nothing: its [onConfirm] has not run. *)
Definition is_delete (e : Event) : bool :=
  match e with
  | DeleteDashboard _ _ => true
  | _ => false
  end.

Definition delete_requests (t : list Event) : list Event :=
  filter is_delete t.

(** The calls of [onDashboardsChange]. *)
Definition is_refresh (e : Event) : bool :=
  match e with
  | OnDashboardsChange => true
  | _ => false
  end.

Definition refreshes (t : list Event) : list Event := filter is_refresh t.

(** A response that is not a rejection. *)
Definition fulfilled {A} (response : option A) : bool :=
  match response with
  | Some _ => true
  | None => false
  end.

(** A dashboard with every widget identifier cleared. *)
Definition without_widget_ids (d : DashboardDetails) : DashboardDetails :=
  {| details_id := details_id d;
     details_title := details_title d;
     widgets := map clear_id (widgets d) |}.

(** The action behind a key of the menu. *)
Definition menu_action (menu : DropdownMenu) (key : string)
  : option (Action unit) :=
  onAction <$> List.find (fun item => String.eqb (item_key item) key)
                 (items menu).

(** *** Properties of Duplicate *)

Lemma Forall_clear_id (ws : list Widget) :
  Forall (fun w => widget_id w = None) (map clear_id ws).
Proof. induction ws as [|w ws IH]; simpl; constructor; done. Qed.

Section Duplicate.

Variable organization : Organization.
Variable returns : Event -> bool.
Variable fetchResponse : string -> string -> option DashboardDetails.
Variable createResponse :
  string -> DashboardDetails -> option bool -> option DashboardDetails.
Variable cloneDashboard : DashboardDetails -> DashboardDetails.

(** Duplicate with a cloning helper that returns its clone. *)
Let duplicate :=
  handleDuplicate organization returns fetchResponse createResponse
    (fun detail => Some (cloneDashboard detail)).

Lemma handleDuplicate_trace_fetched dashboard detail :
  fetchResponse (slug organization) (id dashboard) = Some detail ->
  exists rest,
    trace (duplicate dashboard) =
    FetchDashboard (slug organization) (id dashboard)
    :: CreateDashboard (slug organization) (duplicated cloneDashboard detail) (Some true)
    :: rest /\
    create_requests rest = [].
Proof.
  intros Hfetch.
  unfold duplicate, handleDuplicate, fetchDashboard, createDashboard, trace.
  unfold mbind, Action_bind, bind, try_catch, call. rewrite Hfetch. simpl.
  fold (duplicated cloneDashboard detail).
  destruct (createResponse _ _ _); simpl;
    repeat (destruct (returns _); simpl); eexists; split; reflexivity.
Qed.

Lemma handleDuplicate_trace_rejected dashboard :
  fetchResponse (slug organization) (id dashboard) = None ->
  trace (duplicate dashboard) =
  [FetchDashboard (slug organization) (id dashboard);
   AddErrorMessage "Error duplicating Dashboard"].
Proof.
  intros Hfetch.
  unfold duplicate, handleDuplicate, fetchDashboard, trace.
  unfold mbind, Action_bind, bind, try_catch, call. by rewrite Hfetch.
Qed.

(** C4.  When the full detail fetched for a dashboard has N widgets (and the
    cloning helper keeps the number of widgets of what it clones), Duplicate
    issues exactly one create request; the dashboard it sends has N widgets,
    none of them with an identifier, and the request carries the flag
    [duplicate = true], which switches the duplicate-title detection off. *)
Theorem handleDuplicate_create_request
    (dashboard : DashboardListItem) (detail : DashboardDetails) :
  fetchResponse (slug organization) (id dashboard) = Some detail ->
  length (widgets (cloneDashboard detail)) = length (widgets detail) ->
  exists newDashboard,
    create_requests (trace (duplicate dashboard)) =
      [CreateDashboard (slug organization) newDashboard (Some true)] /\
    length (widgets newDashboard) = length (widgets detail) /\
    Forall (fun w => widget_id w = None) (widgets newDashboard).
Proof.
  intros Hfetch Hclone.
  destruct (handleDuplicate_trace_fetched dashboard detail Hfetch)
    as (rest & Htrace & Hrest).
  exists (duplicated cloneDashboard detail). split; [|split].
  - rewrite Htrace. unfold create_requests in *.
    rewrite !filter_cons. simpl. by rewrite Hrest.
  - simpl. by rewrite length_map.
  - apply Forall_clear_id.
Qed.

End Duplicate.

(** Duplicate on a dashboard with two widgets, against a backend that
    returns the detail and accepts the copy, with a helper that clones
    field by field. *)
Lemma handleDuplicate_two_widgets :
  exists newDashboard,
    create_requests
      (trace
         (handleDuplicate example_organization (fun _ => true)
            (fun _ _ => Some example_detail) (fun _ d _ => Some d)
            (fun d => Some d) example_item)) =
      [CreateDashboard "acme" newDashboard (Some true)] /\
    length (widgets newDashboard) = 2 /\
    Forall (fun w => widget_id w = None) (widgets newDashboard).
Proof.
  apply (handleDuplicate_create_request example_organization (fun _ => true)
           (fun _ _ => Some example_detail) (fun _ d _ => Some d)
           (fun d => d) example_item example_detail);
    reflexivity.
Defined.

(** *** Properties of the quick menu *)

Section QuickMenu.

Variable organization : Organization.
Variable location : Location.
Variable returns : Event -> bool.
Variable fetchResponse : string -> string -> option DashboardDetails.
Variable createResponse :
  string -> DashboardDetails -> option bool -> option DashboardDetails.
Variable deleteResponse : string -> string -> option unit.
Variable cloneDashboard : DashboardDetails -> option DashboardDetails.

Let menu (dashboards : option (list DashboardListItem)) :=
  renderDropdownMenu organization dashboards returns fetchResponse createResponse
    deleteResponse cloneDashboard.
Let cards (dashboards : option (list DashboardListItem)) :=
  default []
    (renderMiniDashboards organization location dashboards returns
       fetchResponse
       createResponse deleteResponse cloneDashboard).
Let grid (dashboards : option (list DashboardListItem)) :=
  renderDashboardGrid organization location dashboards returns fetchResponse
    createResponse deleteResponse cloneDashboard.

Lemma menu_has_delete dashboards dashboard :
  "dashboard-delete" ∈ map item_key (items (menu dashboards dashboard)).
Proof. simpl. apply elem_of_cons; right. apply elem_of_cons; by left. Qed.

Lemma menu_delete_disabled ds dashboard :
  action_disabled (menu (Some ds) dashboard) "dashboard-delete" <->
  length ds <= 1.
Proof.
  unfold action_disabled, menu, renderDropdownMenu. simpl.
  destruct (Nat.leb_spec (length ds) 1) as [Hle|Hgt].
  - split; [done|]. intros _. apply elem_of_cons; by left.
  - split; [by intros ?%elem_of_nil|lia].
Qed.

Lemma cards_menu ds card :
  card ∈ cards (Some ds) ->
  exists dashboard, dashboard ∈ ds /\
                    renderContextMenu card = menu (Some ds) dashboard.
Proof.
  unfold cards, renderMiniDashboards. simpl.
  intros (i & Hi)%list_elem_of_lookup.
  rewrite list_lookup_imap in Hi.
  destruct (ds !! i) as [dashboard|] eqn:Hd; [|discriminate].
  simpl in Hi. injection Hi as <-.
  exists dashboard. split; [|done].
  apply list_elem_of_lookup. eauto.
Qed.

Lemma cards_lookup ds i dashboard :
  ds !! i = Some dashboard ->
  exists card,
    cards (Some ds) !! i = Some card /\
    card_title card = title dashboard /\
    renderContextMenu card = menu (Some ds) dashboard.
Proof.
  intros Hd. unfold cards, renderMiniDashboards. simpl.
  rewrite list_lookup_imap, Hd. simpl. eexists. by repeat split.
Qed.

(** C7.  In a rendered list there is one card per dashboard, in order, each
    with the quick menu of its dashboard.  When exactly one dashboard is
    present the delete action of every card's quick menu is disabled; when
    two or more are present it is enabled on every card.  (The key is
    disabled exactly when at most one dashboard is present.) *)
Theorem quick_menu_delete_by_count (ds : list DashboardListItem) :
  length (cards (Some ds)) = length ds /\
  (forall i dashboard, ds !! i = Some dashboard ->
     exists card,
       cards (Some ds) !! i = Some card /\
       card_title card = title dashboard /\
       renderContextMenu card = menu (Some ds) dashboard) /\
  (ds <> [] -> grid (Some ds) = DashboardGrid (cards (Some ds))) /\
  (length ds = 1 ->
     forall card, card ∈ cards (Some ds) ->
       action_disabled (renderContextMenu card) "dashboard-delete") /\
  (2 <= length ds ->
     forall card, card ∈ cards (Some ds) ->
       action_enabled (renderContextMenu card) "dashboard-delete") /\
  (forall card, card ∈ cards (Some ds) ->
     (action_disabled (renderContextMenu card) "dashboard-delete" <->
      length ds <= 1)).
Proof.
  split; [|split; [|split; [|split; [|split]]]].
  - unfold cards, renderMiniDashboards. simpl. apply length_imap.
  - apply cards_lookup.
  - intros Hne. unfold grid, cards, renderDashboardGrid.
    destruct ds; [done|reflexivity].
  - intros Hone card (dashboard & _ & ->)%cards_menu.
    apply menu_delete_disabled. lia.
  - intros Htwo card (dashboard & _ & ->)%cards_menu. split.
    + apply menu_has_delete.
    + intros Hdis%menu_delete_disabled. lia.
  - intros card (dashboard & _ & ->)%cards_menu.
    apply menu_delete_disabled.
Qed.

(** The label of a card counts the widgets of the preview. *)
Example tn_widgets_labels :
  tn_widgets 1 = "1 widget" /\ tn_widgets 0 = "0 widgets"
  /\ tn_widgets 3 = "3 widgets".
Proof. by repeat split. Qed.

End QuickMenu.

(** *** Properties of the pagination handler *)

Lemma onCursor_trace cursor path query direction :
  trace (onCursor cursor path query direction) =
  [TrackAnalytics "dashboards_manage.paginate" None;
   Navigate path
     (if le_zero (cursor_offset cursor) && (direction =? -1)%Z
      then delete "cursor" query
      else <["cursor" := optional_string cursor]> query)].
Proof.
  unfold onCursor, trace, mbind, Action_bind, bind, emit. simpl.
  destruct (le_zero (cursor_offset cursor) && (direction =? -1)%Z); [|done].
  by rewrite delete_insert_eq.
Qed.

Lemma navigation_query_onCursor cursor path query direction :
  navigation_query (onCursor cursor path query direction) =
  Some (if le_zero (cursor_offset cursor) && (direction =? -1)%Z
        then delete "cursor" query
        else <["cursor" := optional_string cursor]> query).
Proof. unfold navigation_query. by rewrite onCursor_trace. Qed.

Lemma cursor_field_no_colon c :
  has_char ":" c = false -> cursor_field (Some c) = None.
Proof.
  intros Hc. unfold cursor_field. by rewrite (split_on_no_sep ":" c Hc).
Qed.

Lemma cursor_field_after_colon first rest :
  has_char ":" first = false ->
  cursor_field (Some (first +:+ ":" +:+ rest)) =
  Some (hd "" (split_on ":" rest)).
Proof.
  intros Hfirst. unfold cursor_field.
  change (first +:+ ":" +:+ rest) with (first +:+ String ":" rest).
  rewrite (split_on_app_sep ":" first rest Hfirst). apply split_on_head.
Qed.

(** C3 (as the code has it).  The handler reads the offset off the cursor
    with [Number]: a cursor that is absent or has no colon gives 0; for a
    cursor [first:rest] the offset is [Number] of the part of [rest] before
    its next colon, which is 0 for an empty or blank field and [NaN] for a
    field that is not a numeric literal.  The handler navigates once, to the
    given path.  When the offset is at or before 0 and the direction is
    previous (-1), the query it navigates with is the given query without the
    cursor key.  In every other case, among them an offset that is [NaN],
    the new cursor is forwarded as it is under the cursor key, and the other
    keys of the query are kept. *)
Theorem onCursor_navigation
    (cursor : option string) (path : string) (query : gmap string QueryValue)
    (direction : Z) :
  let offset := cursor_offset cursor in
  let target := navigation_query (onCursor cursor path query direction) in
  (cursor = None -> offset = zero) /\
  (forall c, cursor = Some c -> has_char ":" c = false -> offset = zero) /\
  (forall first rest,
     cursor = Some (first +:+ ":" +:+ rest) -> has_char ":" first = false ->
     offset = Number_of_string (hd "" (split_on ":" rest))) /\
  (exists newQuery,
     trace (onCursor cursor path query direction) =
       [TrackAnalytics "dashboards_manage.paginate" None;
        Navigate path newQuery] /\
     target = Some newQuery) /\
  (le_zero offset = true -> direction = (-1)%Z ->
     target = Some (delete "cursor" query) /\
     target ≫= (.!! "cursor") = None) /\
  (le_zero offset = false \/ direction <> (-1)%Z ->
     target = Some (<["cursor" := optional_string cursor]> query) /\
     target ≫= (.!! "cursor") = Some (optional_string cursor)) /\
  (offset = NaN ->
     target ≫= (.!! "cursor") = Some (optional_string cursor)).
Proof.
  intros offset target. unfold target, offset.
  rewrite navigation_query_onCursor.
  split; [|split; [|split; [|split; [|split; [|split]]]]].
  - by intros ->.
  - intros c -> Hc. unfold cursor_offset.
    by rewrite (cursor_field_no_colon c Hc).
  - intros first rest -> Hfirst. unfold cursor_offset.
    by rewrite (cursor_field_after_colon first rest Hfirst).
  - eexists. split; [apply onCursor_trace|done].
  - intros -> ->. simpl. split; [done|]. apply lookup_delete_eq.
  - intros Hother.
    assert (le_zero (cursor_offset cursor) && (direction =? -1)%Z = false)
      as ->.
    { destruct Hother as [->|Hdir]; [done|].
      apply andb_false_iff; right. by apply Z.eqb_neq. }
    split; [done|]. simpl. apply lookup_insert_eq.
  - intros ->. simpl. apply lookup_insert_eq.
Qed.

(** C3 (as the specification words it) fails on a cursor whose second field
    is not a number: with the offset defaulting to 0 and the direction
    previous the cursor should be dropped, but the handler forwards it. *)
Lemma unparseable_offset_keeps_cursor :
  cursor_field (Some "100:abc:0") = Some "abc" /\
  le_zero (spec_offset (Some "100:abc:0")) = true /\
  cursor_offset (Some "100:abc:0") = NaN /\
  navigation_query
    (onCursor (Some "100:abc:0") "/organizations/acme/dashboards/"
       {["query" := QString "team"]} (-1))
  ≫= (.!! "cursor") = Some (QString "100:abc:0").
Proof.
  split; [reflexivity|]. split; [reflexivity|]. split; [reflexivity|].
  rewrite navigation_query_onCursor.
  change (le_zero (cursor_offset (Some "100:abc:0"))) with false.
  simpl. apply lookup_insert_eq.
Qed.

(** The two cursors of the specification's example, going back: offset 1
    keeps the cursor, offset 0 drops it. *)
Example onCursor_previous_examples :
  navigation_query (onCursor (Some "100:1:0") "/dashboards/" ∅ (-1))
    ≫= (.!! "cursor") = Some (QString "100:1:0") /\
  navigation_query (onCursor (Some "100:0:0") "/dashboards/" ∅ (-1))
    ≫= (.!! "cursor") = None.
Proof.
  rewrite !navigation_query_onCursor. simpl. split.
  - apply lookup_insert_eq.
  - apply lookup_delete_eq.
Qed.

(** [Number] trims every white space of ECMAScript, not only the ASCII one:
    an offset field that is a no-break space or a byte order mark followed by
    0 counts as 0, and going back drops the cursor. *)
Example onCursor_offset_white_space :
  let nbsp := String (ascii_of_nat 194) (String (ascii_of_nat 160) "") in
  let bom :=
    String (ascii_of_nat 239)
      (String (ascii_of_nat 187) (String (ascii_of_nat 191) "")) in
  cursor_offset (Some ("100:" +:+ nbsp +:+ "0:0")) = zero /\
  cursor_offset (Some ("100:" +:+ bom +:+ "0" +:+ nbsp +:+ ":0")) = zero /\
  cursor_offset (Some "100: :0") = zero /\
  navigation_query
    (onCursor (Some ("100:" +:+ nbsp +:+ "0:0")) "/dashboards/" ∅ (-1))
    ≫= (.!! "cursor") = None.
Proof.
  intros nbsp bom. split; [reflexivity|]. split; [reflexivity|].
  split; [reflexivity|].
  rewrite navigation_query_onCursor.
  change (le_zero (cursor_offset (Some ("100:" +:+ nbsp +:+ "0:0"))))
    with true.
  simpl. apply lookup_delete_eq.
Qed.

(** *** Outcomes of the two handlers *)

Section Handlers.

Variable organization : Organization.
Variable returns : Event -> bool.
Variable fetchResponse : string -> string -> option DashboardDetails.
Variable createResponse :
  string -> DashboardDetails -> option bool -> option DashboardDetails.
Variable deleteResponse : string -> string -> option unit.
Variable cloneDashboard : DashboardDetails -> option DashboardDetails.

(** Duplicate sends a create request, for the clone without widget
    identifiers, exactly when the fetch is accepted and the cloning helper
    returns, and never a delete request.  The list is refreshed when the
    create is accepted and the analytics call returns; the success message
    is called when, besides, the refresh returns.  The error message is
    called exactly when something inside the [try] failed: a rejected fetch
    or create, or an exception of the cloning helper, of the analytics call,
    of the refresh or of the success message itself.  The promise of the
    handler is rejected exactly when the error message is called and
    throws. *)
Theorem handleDuplicate_outcome (dashboard : DashboardListItem) :
  let run :=
    handleDuplicate organization returns fetchResponse createResponse
      cloneDashboard dashboard in
  let track :=
    TrackAnalytics "dashboards_manage.duplicate"
      (Some (parseInt10 (id dashboard))) in
  let success := AddSuccessMessage "Dashboard duplicated" in
  let failure := AddErrorMessage "Error duplicating Dashboard" in
  let cloned :=
    fetchResponse (slug organization) (id dashboard) ≫= cloneDashboard in
  let created :=
    clone ← cloned;
    createResponse (slug organization) (without_widget_ids clone) (Some true) in
  let refreshed := fulfilled created && returns track in
  let announced := refreshed && returns OnDashboardsChange in
  let succeeded := announced && returns success in
  create_requests (trace run) =
    match cloned with
    | Some clone =>
        [CreateDashboard (slug organization) (without_widget_ids clone)
           (Some true)]
    | None => []
    end /\
  delete_requests (trace run) = [] /\
  refreshes (trace run) = (if refreshed then [OnDashboardsChange] else []) /\
  notifications (trace run) =
    (if announced then [success] else [])
    ++ (if succeeded then [] else [failure]) /\
  snd run = (if succeeded || returns failure then Some tt else None).
Proof.
  unfold handleDuplicate, fetchDashboard, createDashboard, trace.
  unfold mbind, Action_bind, bind, try_catch, call.
  destruct (fetchResponse _ _) as [detail|]; simpl;
    [|by destruct (returns (AddErrorMessage _))].
  destruct (cloneDashboard detail) as [clone|]; simpl;
    [|by destruct (returns (AddErrorMessage _))].
  fold (without_widget_ids clone).
  destruct (createResponse _ _ _); simpl;
    [|by destruct (returns (AddErrorMessage _))].
  destruct (returns (TrackAnalytics _ _)); simpl;
    [|by destruct (returns (AddErrorMessage _))].
  destruct (returns OnDashboardsChange); simpl;
    [|by destruct (returns (AddErrorMessage _))].
  destruct (returns (AddSuccessMessage _)); simpl; [done|].
  by destruct (returns (AddErrorMessage _)).
Qed.

(** Delete sends one delete request, first of all, for the dashboard it is
    given.  The list is refreshed when the backend accepts and the analytics
    call returns; the success message is called when, besides, the refresh
    returns.  The error message is called exactly when the backend refuses or
    one of the calls inside [then] throws, the success message included.
    The promise chain that the handler leaves behind is rejected exactly
    when the error message is called and throws. *)
Theorem handleDelete_outcome (dashboard : DashboardListItem) :
  let run := handleDelete organization returns deleteResponse dashboard in
  let track :=
    TrackAnalytics "dashboards_manage.delete"
      (Some (parseInt10 (id dashboard))) in
  let success := AddSuccessMessage "Dashboard deleted" in
  let failure := AddErrorMessage "Error deleting Dashboard" in
  let deleted := deleteResponse (slug organization) (id dashboard) in
  let refreshed := fulfilled deleted && returns track in
  let announced := refreshed && returns OnDashboardsChange in
  let succeeded := announced && returns success in
  head (trace run) = Some (DeleteDashboard (slug organization) (id dashboard)) /\
  delete_requests (trace run) =
    [DeleteDashboard (slug organization) (id dashboard)] /\
  refreshes (trace run) = (if refreshed then [OnDashboardsChange] else []) /\
  notifications (trace run) =
    (if announced then [success] else [])
    ++ (if succeeded then [] else [failure]) /\
  snd run = (if succeeded || returns failure then Some tt else None).
Proof.
  unfold handleDelete, deleteDashboard, trace.
  unfold mbind, Action_bind, bind, try_catch, call.
  destruct (deleteResponse _ _); simpl;
    [|by destruct (returns (AddErrorMessage _))].
  destruct (returns (TrackAnalytics _ _)); simpl;
    [|by destruct (returns (AddErrorMessage _))].
  destruct (returns OnDashboardsChange); simpl;
    [|by destruct (returns (AddErrorMessage _))].
  destruct (returns (AddSuccessMessage _)); simpl; [done|].
  by destruct (returns (AddErrorMessage _)).
Qed.

End Handlers.

(** *** The quick menu and the cards *)

Section Cards.

Variable organization : Organization.
Variable location : Location.
Variable returns : Event -> bool.
Variable fetchResponse : string -> string -> option DashboardDetails.
Variable createResponse :
  string -> DashboardDetails -> option bool -> option DashboardDetails.
Variable deleteResponse : string -> string -> option unit.
Variable cloneDashboard : DashboardDetails -> option DashboardDetails.

Let menu (dashboards : option (list DashboardListItem)) :=
  renderDropdownMenu organization dashboards returns fetchResponse createResponse
    deleteResponse cloneDashboard.
Let cards (dashboards : option (list DashboardListItem)) :=
  default []
    (renderMiniDashboards organization location dashboards returns
       fetchResponse
       createResponse deleteResponse cloneDashboard).
Let grid (dashboards : option (list DashboardListItem)) :=
  renderDashboardGrid organization location dashboards returns fetchResponse
    createResponse deleteResponse cloneDashboard.

(** The quick menu offers Duplicate and Delete, in this order.  Duplicate is
    never disabled, and nothing is disabled while the list of dashboards is
    undefined.  Choosing an action never sends a delete request by itself:
    Delete only opens a confirm modal, whose confirmation is the delete
    handler of the same dashboard. *)
Theorem quick_menu_actions
    (dashboards : option (list DashboardListItem))
    (dashboard : DashboardListItem) :
  let m := menu dashboards dashboard in
  map item_key (items m) = ["dashboard-duplicate"; "dashboard-delete"] /\
  ("dashboard-duplicate" ∉ disabledKeys m) /\
  disabledKeys (menu None dashboard) = [] /\
  Forall (fun item => delete_requests (trace (onAction item)) = [])
    (items m) /\
  menu_action m "dashboard-duplicate" =
    Some (handleDuplicate organization returns fetchResponse createResponse
            cloneDashboard dashboard) /\
  exists message,
    (trace <$> menu_action m "dashboard-delete") =
      Some [OpenConfirmModal message "danger"
              (handleDelete organization returns deleteResponse dashboard)].
Proof.
  intros m. split; [done|]. split; [|split; [done|split; [|split; [done|]]]].
  - unfold m, menu, renderDropdownMenu. simpl.
    destruct dashboards as [ds|]; [|by intros ?%elem_of_nil].
    destruct (length ds <=? 1)%nat; [|by intros ?%elem_of_nil].
    by intros [=]%list_elem_of_singleton.
  - unfold m, menu, renderDropdownMenu. simpl.
    repeat constructor.
    unfold handleDuplicate, fetchDashboard, createDashboard, trace.
    unfold mbind, Action_bind, bind, try_catch, call.
    destruct (fetchResponse _ _) as [detail|]; simpl; [|done].
    destruct (cloneDashboard detail); simpl; [|done].
    destruct (createResponse _ _ _); simpl; [|done].
    by repeat (destruct (returns _); simpl).
  - by eexists.
Qed.

Lemma card_keys_imap (ds : list DashboardListItem) :
  map card_key (cards (Some ds)) =
  imap (fun index dashboard => pretty index +:+ "-" +:+ id dashboard) ds.
Proof.
  unfold cards, renderMiniDashboards. simpl.
  apply list_eq. intros i.
  rewrite list_lookup_fmap, !list_lookup_imap.
  by destruct (ds !! i).
Qed.

(** The keys of the cards are pairwise distinct, also when several
    dashboards of the list carry the same identifier: the position in front
    of the dash tells them apart. *)
Theorem card_keys_unique (dashboards : option (list DashboardListItem)) :
  NoDup (map card_key (cards dashboards)).
Proof.
  destruct dashboards as [ds|]; [|constructor].
  rewrite card_keys_imap. apply NoDup_alt. intros i j key.
  rewrite !list_lookup_imap.
  destruct (ds !! i) as [di|]; [|done].
  destruct (ds !! j) as [dj|]; [|done].
  simpl. intros [= <-] [= Heq].
  apply digits_dash_inj in Heq as [Heq _]; try apply pretty_nat_digits.
  symmetry. by apply (inj pretty).
Qed.

(** No card links to an empty query object: the link of every card carries
    the query of the location when that query has at least one key, and no
    query at all otherwise. *)
Theorem cards_query_never_empty (dashboards : option (list DashboardListItem)) :
  Forall
    (fun card =>
       match to_query card with
       | Some q => q <> ∅ /\ location_query location = Some q
       | None =>
           location_query location = None \/ location_query location = Some ∅
       end)
    (cards dashboards).
Proof.
  destruct dashboards as [ds|]; [|constructor].
  apply Forall_forall. intros card (i & Hi)%list_elem_of_lookup.
  unfold cards, renderMiniDashboards in Hi. simpl in Hi.
  rewrite list_lookup_imap in Hi.
  destruct (ds !! i); [|done]. simpl in Hi. injection Hi as <-. simpl.
  unfold queryLocation. destruct (location_query location) as [q|]; [|by left].
  destruct (Nat.ltb_spec 0 (size q)) as [Hpos|Hzero].
  - split; [|done]. intros ->. rewrite map_size_empty in Hpos. lia.
  - right. f_equal. apply map_size_empty_iff. lia.
Qed.

(** The empty-state warning is shown exactly when the list of dashboards is
    undefined or empty; a grid that is rendered is never without cards, and
    has one card per dashboard. *)
Theorem renderDashboardGrid_empty_state
    (dashboards : option (list DashboardListItem)) :
  (grid dashboards =
     EmptyStateWarning "Sorry, no Dashboards match your filters."
   <-> dashboards = None \/ dashboards = Some []) /\
  grid dashboards <> DashboardGrid [] /\
  match grid dashboards with
  | DashboardGrid cs => Some (length cs) = length <$> dashboards
  | EmptyStateWarning _ => default [] dashboards = []
  end.
Proof.
  unfold grid, renderDashboardGrid.
  destruct dashboards as [[|d ds]|]; simpl.
  - split; [split; [by right|done]|done].
  - split; [|split; [done|]].
    + split; [done|]. by intros [|].
    + by rewrite length_imap.
  - split; [split; [by left|done]|done].
Qed.

End Cards.

(** *** More on the pagination handler *)


Lemma cursor_field_second first field rest :
  has_char ":" first = false -> all_digits field = true ->
  cursor_field (Some (first +:+ ":" +:+ field +:+ ":" +:+ rest)) = Some field.
Proof.
  intros Hfirst Hfield. unfold cursor_field.
  change (first +:+ ":" +:+ field +:+ ":" +:+ rest)
    with (first +:+ String ":" (field +:+ String ":" rest)).
  rewrite (split_on_app_sep ":" first _ Hfirst).
  rewrite (split_on_app_sep ":" field _ (all_digits_no_colon _ Hfield)).
  done.
Qed.

(** On a cursor [first:offset:rest] whose second field is a non-empty string
    of decimal digits, going back drops the cursor exactly when the digits
    write the number 0, however many digits there are; going forward always
    keeps it. *)
Theorem onCursor_numeric_offset
    (first field rest path : string) (query : gmap string QueryValue)
    (direction : Z) :
  has_char ":" first = false -> field <> "" -> all_digits field = true ->
  let cursor := first +:+ ":" +:+ field +:+ ":" +:+ rest in
  navigation_query (onCursor (Some cursor) path query direction)
    ≫= (.!! "cursor") =
  if (digits_value field =? 0)%N && (direction =? -1)%Z then None
  else Some (QString cursor).
Proof.
  intros Hfirst Hne Hfield cursor.
  rewrite navigation_query_onCursor. unfold cursor_offset, cursor.
  rewrite (cursor_field_second first field rest Hfirst Hfield).
  rewrite (le_zero_digits field Hne Hfield).
  destruct ((digits_value field =? 0)%N && (direction =? -1)%Z); simpl.
  - apply lookup_delete_eq.
  - apply lookup_insert_eq.
Qed.

(** Going back from the second page of 25: the offset 00 is zero, 25 is
    not. *)
Lemma onCursor_numeric_offset_pages :
  navigation_query
    (onCursor (Some ("0" +:+ ":" +:+ "00" +:+ ":" +:+ "1")) "/dashboards/"
       {["query" := QString "team"]} (-1))
    ≫= (.!! "cursor") = None.
Proof.
  apply (onCursor_numeric_offset "0" "00" "1" "/dashboards/"
           {["query" := QString "team"]} (-1)); [reflexivity|done|reflexivity].
Defined.

(** A cursor that is undefined or has no colon carries no offset field: the
    offset is 0, so going back always drops the cursor key; in every other
    direction the cursor is forwarded, as [undefined] when there is none. *)
Theorem onCursor_without_offset
    (cursor : option string) (path : string) (query : gmap string QueryValue)
    (direction : Z) :
  match cursor with
  | Some c => has_char ":" c = false
  | None => True
  end ->
  cursor_offset cursor = zero /\
  navigation_query (onCursor cursor path query direction) =
  Some (if (direction =? -1)%Z then delete "cursor" query
        else <["cursor" := optional_string cursor]> query).
Proof.
  intros Hcursor.
  assert (Hoffset : cursor_offset cursor = zero).
  { unfold cursor_offset, cursor_field. destruct cursor as [c|]; [|done].
    by rewrite (split_on_no_sep ":" c Hcursor). }
  split; [done|]. rewrite navigation_query_onCursor. by rewrite Hoffset.
Qed.

(** Going back with a cursor that is a bare number. *)
Lemma onCursor_without_offset_bare :
  cursor_offset (Some "100") = zero /\
  navigation_query
    (onCursor (Some "100") "/dashboards/" {["query" := QString "team"]} (-1))
  = Some (delete "cursor" {["query" := QString "team"]}).
Proof.
  apply (onCursor_without_offset (Some "100") "/dashboards/"
           {["query" := QString "team"]} (-1)).
  reflexivity.
Defined.

End DashboardList.
(** ** Custom repositories: key expansion ([customRepositories/utils]) *)

Module CustomRepositories.
Import Js Store.

(** *** Data model

    [expandKeys] hands its result to lodash's [set], which reads and assigns
    properties the way the language does: a read goes up the prototype chain,
    an assignment can be refused.  So the function is written over a store
    of objects with their own properties and their prototype chains; the
    built-in objects of the engine are objects of the store like the
    others. *)

(** The values that a property can hold here: [undefined], a string, a
    number (the length of an array, a function or a string), or a reference
    to an object (plain object, array or function). *)
Inductive HVal :=
| HUndefined
| HStr (s : string)
| HNum (n : N)
| HRef (l : loc).

(** An own property: a data property with its value and whether it can be
    assigned to, or an accessor whose getter and setter throw, as those of
    [caller] and [arguments] on [Function.prototype]. *)
Inductive HProp :=
| Data (value : HVal) (writable : bool)
| Restricted.

(** An object: whether it is an array and then its length; the objects of
    its prototype chain, nearest first; its own properties other than the
    length of an array.  Nothing here changes the prototype of an object, so
    the chain is kept instead of the one link. *)
Record HObj := {
  h_array : bool;
  h_length : N;
  h_proto : list loc;
  h_props : list (string * HProp) }.

(** The prototypes that the engine gives to the objects and to the
    primitive values met here. *)
Record Realm := {
  Object_prototype : loc;
  Array_prototype : loc;
  String_prototype : loc;
  Number_prototype : loc }.

(** The flat object given to [expandKeys], as the list of its own enumerable
    properties in enumeration order (the order lodash's [forEach] visits
    them); its values are strings. *)
Definition CustomRepo := list (string * string).

(** The three keys on which lodash's [set] gives up and returns the object as
    it is. *)
Definition reserved (key : string) : bool :=
  String.eqb key "__proto__" || String.eqb key "constructor"
  || String.eqb key "prototype".

Definition is_digit (c : ascii) : bool :=
  (48 <=? N_of_ascii c)%N && (N_of_ascii c <=? 57)%N.

Definition decimal_value (cs : list ascii) : N :=
  fold_left (fun acc c => (acc * 10 + (N_of_ascii c - 48))%N) cs 0%N.

(** The number written by a canonical index: "0", or decimal digits that do
    not start with 0. *)
Definition canonical_index (s : string) : option N :=
  match list_ascii_of_string s with
  | [] => None
  | ["0"%char] => Some 0%N
  | c :: cs =>
      if is_digit c && negb (Ascii.eqb c "0") && forallb is_digit cs
      then Some (decimal_value (c :: cs))
      else None
  end.

(** lodash's [isIndex] on a string: a canonical index below
    [MAX_SAFE_INTEGER]. *)
Definition isIndex (s : string) : bool :=
  match canonical_index s with
  | Some n => (n <? 9007199254740991)%N
  | None => false
  end.

(** An array index of the language: a canonical index below [2^32 - 1]. *)
Definition array_index (s : string) : option N :=
  match canonical_index s with
  | Some n => if (n <? 4294967295)%N then Some n else None
  | None => None
  end.

(** [p] is a prefix of [q]. *)
Fixpoint is_prefix (p q : list string) : bool :=
  match p, q with
  | [], _ => true
  | a :: p', b :: q' => String.eqb a b && is_prefix p' q'
  | _ :: _, [] => false
  end.

Definition independent (p q : list string) : bool :=
  negb (is_prefix p q) && negb (is_prefix q p).

Fixpoint pairwise_independent (paths : list (list string)) : bool :=
  match paths with
  | [] => true
  | p :: ps => forallb (independent p) ps && pairwise_independent ps
  end.

(** *** Strings and numbers as the language reads them *)

(** The number of UTF-16 code units of a string kept as UTF-8: one per
    character, two for a character of four bytes. *)
Definition is_continuation (c : ascii) : bool :=
  (128 <=? N_of_ascii c)%N && (N_of_ascii c <? 192)%N.

Definition utf16_length (s : string) : N :=
  fold_left
    (fun n c =>
       if is_continuation c then n
       else if (240 <=? N_of_ascii c)%N then (n + 2)%N
       else (n + 1)%N)
    (list_ascii_of_string s) 0%N.

Fixpoint continuation_bytes (cs : list ascii) : list ascii :=
  match cs with
  | c :: cs' => if is_continuation c then c :: continuation_bytes cs' else []
  | [] => []
  end.

(** The string of the code unit at an index; half of a character of four
    bytes is a lone surrogate, written U+FFFD as UTF-8 encoders do. *)
Fixpoint utf16_unit (cs : list ascii) (i : N) : string :=
  match cs with
  | [] => ""
  | c :: cs' =>
      if is_continuation c then utf16_unit cs' i
      else if (240 <=? N_of_ascii c)%N then
        if (i <? 2)%N
        then String (ascii_of_nat 239)
               (String (ascii_of_nat 191) (String (ascii_of_nat 189) ""))
        else utf16_unit cs' (i - 2)
      else if (i =? 0)%N
           then String c (string_of_list_ascii (continuation_bytes cs'))
           else utf16_unit cs' (i - 1)
  end.

(** The own properties of a string value: its length and its code units,
    none of which can be assigned to. *)
Definition string_property (s key : string) : option HProp :=
  if String.eqb key "length" then Some (Data (HNum (utf16_length s)) false)
  else
    match canonical_index key with
    | Some i =>
        if (i <? utf16_length s)%N
        then Some (Data (HStr (utf16_unit (list_ascii_of_string s) i)) false)
        else None
    | None => None
    end.

(** The integer that a positive literal [digits / 10^k] rounds to as a
    double, when it rounds to an integer below [2^32]: an integer [n] takes
    what lies within half the distance to the next double on either side,
    the ties included since the doubles next to an integer of this size are
    odd. *)
Definition rounds_to_integer (digits : N) (k : N) : option N :=
  let scale := (10 ^ k)%N in
  let n := (digits / scale)%N in
  let r := (digits mod scale)%N in
  if (r =? 0)%N then Some n
  else
    let up := (n + 1)%N in
    let above :=
      (* v - n <= 2^(log2 n - 53) *)
      (0 <? n)%N && (r * 2 ^ (53 - N.log2 n) <=? scale)%N in
    let below :=
      (* (n + 1) - v <= half the distance to the double below n + 1 *)
      let j := N.log2 up in
      let shift := if (up =? 2 ^ j)%N then (54 - j)%N else (53 - j)%N in
      ((scale - r) * 2 ^ shift <=? scale)%N in
    if above then Some n else if below then Some up else None.

(** The length that a string assigned to the length of an array stands for:
    [ToNumber] of the string must be an integer from 0 to [2^32 - 1]; [None]
    is a [RangeError]. *)
Definition array_length_of_string (s : string) : option N :=
  match Number_of_string s with
  | NaN | Infinity _ => None
  | Decimal negative digits exponent =>
      if rounds_to_zero digits exponent then Some 0%N
      else if negative then None
      else
        let n :=
          if (0 <=? exponent)%Z
          then
            (* from 10^10 on the value is above every length *)
            if (exponent <? 10)%Z
            then Some (digits * 10 ^ Z.to_N exponent)%N
            else None
          else rounds_to_integer digits (Z.to_N (- exponent)) in
        match n with
        | Some n => if (n <? 4294967296)%N then Some n else None
        | None => None
        end
  end.

(** *** Computations

    A computation of the engine takes a store and gives the value it
    returns, or [None] when it throws, and the store it leaves, which holds
    what was done before the exception. *)
Definition Exec (A : Type) : Type :=
  gmap loc HObj -> option A * gmap loc HObj.

#[global] Instance Exec_ret : MRet Exec := fun A x h => (Some x, h).
#[global] Instance Exec_bind : MBind Exec :=
  fun A B k m h =>
    match m h with
    | (Some x, h') => k x h'
    | (None, h') => (None, h')
    end.

(** A thrown exception. *)
Definition throw {A} : Exec A := fun h => (None, h).

(** A new object: it takes a location that the store does not use. *)
Definition new_object (o : HObj) : Exec loc :=
  fun h => let l := fresh (dom h) in (Some l, <[l := o]> h).

(** The object behind a reference. *)
Definition read_object (l : loc) : Exec HObj :=
  fun h =>
    match h !! l with
    | Some o => (Some o, h)
    | None => (None, h)
    end.

Fixpoint forEach {A} (f : A -> Exec unit) (xs : list A) : Exec unit :=
  match xs with
  | [] => mret tt
  | x :: xs' => f x;; forEach f xs'
  end.

Section Lodash.

Variable realm : Realm.

(** *** Reading and assigning properties *)

(** The own property of an object under a key. *)
Definition own_property (o : HObj) (key : string) : option HProp :=
  if h_array o && String.eqb key "length"
  then Some (Data (HNum (h_length o)) true)
  else assoc key (h_props o).

(** The first property under a key along a prototype chain. *)
Fixpoint lookup_chain (h : gmap loc HObj) (chain : list loc) (key : string)
  : option HProp :=
  match chain with
  | [] => None
  | l :: chain' =>
      match h !! l ≫= (fun o => own_property o key) with
      | Some p => Some p
      | None => lookup_chain h chain' key
      end
  end.

(** The property that [object[key]] finds: an own property of the value,
    else the first one up its prototype chain.  The outer [None] is a
    [TypeError], for [undefined] and for a reference to no object. *)
Definition find_property (h : gmap loc HObj) (object : HVal) (key : string)
  : option (option HProp) :=
  match object with
  | HRef l =>
      o ← h !! l;
      Some (match own_property o key with
            | Some p => Some p
            | None => lookup_chain h (h_proto o) key
            end)
  | HStr s =>
      Some (match string_property s key with
            | Some p => Some p
            | None =>
                lookup_chain h [String_prototype realm; Object_prototype realm]
                  key
            end)
  | HNum _ =>
      Some (lookup_chain h [Number_prototype realm; Object_prototype realm]
              key)
  | HUndefined => None
  end.

(** [object[key]] *)
Definition get (object : HVal) (key : string) : Exec HVal :=
  fun h =>
    match find_property h object key with
    | Some (Some (Data v _)) => (Some v, h)
    | Some (Some Restricted) => (None, h)
    | Some None => (Some HUndefined, h)
    | None => (None, h)
    end.

(** [hasOwnProperty.call(object, key)] *)
Definition hasOwnProperty (object : HVal) (key : string) : Exec bool :=
  fun h =>
    match object with
    | HRef l =>
        match h !! l with
        | Some o => (Some (bool_decide (is_Some (own_property o key))), h)
        | None => (None, h)
        end
    | HStr s => (Some (bool_decide (is_Some (string_property s key))), h)
    | HNum _ => (Some false, h)
    | HUndefined => (None, h)
    end.

(** The length that a value assigned to the length of an array stands for.
    The value is a string of the input or a container that [set] has just
    made: an empty array reads as the empty string and so as 0, a plain
    object as a string that is no number. *)
Definition to_length (h : gmap loc HObj) (v : HVal) : option N :=
  match v with
  | HStr s => array_length_of_string s
  | HNum n => if (n <? 4294967296)%N then Some n else None
  | HRef l =>
      o ← h !! l;
      if h_array o && (h_length o =? 0)%N then Some 0%N else None
  | HUndefined => None
  end.

(** The object with the own property [key] made or given a new value; an
    array grows to hold a new index. *)
Definition put_own (o : HObj) (key : string) (v : HVal) : HObj :=
  {| h_array := h_array o;
     h_length :=
       match array_index key with
       | Some i =>
           if h_array o && (h_length o <=? i)%N then (i + 1)%N
           else h_length o
       | None => h_length o
       end;
     h_proto := h_proto o;
     h_props := set_prop (h_props o) key (Data v true) |}.

(** The array with a new length: the elements from that index on are
    deleted. *)
Definition set_length (o : HObj) (n : N) : HObj :=
  {| h_array := h_array o;
     h_length := n;
     h_proto := h_proto o;
     h_props :=
       List.filter
         (fun kp : string * HProp =>
            match array_index kp.1 with
            | Some i => (i <? n)%N
            | None => true
            end)
         (h_props o) |}.

(** [object[key] = value] outside strict mode: the length of an array is set
    through the conversion above and a [RangeError]; a property that is not
    writable, own or inherited, keeps the assignment from happening; a
    restricted accessor throws; otherwise the own property is given the
    value or made.  An assignment to a primitive value does nothing.  An
    assignment that throws has changed nothing. *)
Definition assign (object : HVal) (key : string) (value : HVal) : Exec unit :=
  fun h =>
    match object with
    | HRef l =>
        match h !! l with
        | Some o =>
            if h_array o && String.eqb key "length" then
              match to_length h value with
              | Some n => (Some tt, <[l := set_length o n]> h)
              | None => (None, h)
              end
            else
              match
                match assoc key (h_props o) with
                | Some p => Some p
                | None => lookup_chain h (h_proto o) key
                end
              with
              | Some (Data _ false) => (Some tt, h)
              | Some Restricted => (None, h)
              | _ => (Some tt, <[l := put_own o key value]> h)
              end
        | None => (None, h)
        end
    | HStr _ | HNum _ =>
        match find_property h object key with
        | Some (Some Restricted) | None => (None, h)
        | _ => (Some tt, h)
        end
    | HUndefined => (None, h)
    end.

(** *** lodash's [set] *)

(** [eq(value, other)]: [SameValueZero]. *)
Definition eq (value other : HVal) : bool :=
  match value, other with
  | HUndefined, HUndefined => true
  | HStr s, HStr t => String.eqb s t
  | HNum n, HNum m => (n =? m)%N
  | HRef l, HRef l' => Pos.eqb l l'
  | _, _ => false
  end.

(** [isObject(value)]: objects and functions. *)
Definition isObject (value : HVal) : bool :=
  match value with
  | HRef _ => true
  | _ => false
  end.

(** [assignValue(object, key, value)]; the value is never [undefined]
    here. *)
Definition assignValue (object : HVal) (key : string) (value : HVal)
  : Exec unit :=
  objValue ← get object key;
  own ← hasOwnProperty object key;
  if own && eq objValue value then mret tt
  else assign object key value.

(** A new empty object or array. *)
Definition new_container (array : bool) : HObj :=
  {| h_array := array;
     h_length := 0;
     h_proto :=
       if array then [Array_prototype realm; Object_prototype realm]
       else [Object_prototype realm];
     h_props := [] |}.

(** The loop of [baseSet] over the keys of the path, from the value that
    [nested] has reached. *)
Fixpoint baseSet (nested : HVal) (path : list string) (value : HVal)
  : Exec unit :=
  match path with
  | [] => mret tt
  | key :: rest =>
      match nested with
      | HUndefined => mret tt
      | _ =>
          if reserved key then mret tt
          else
            newValue ←
              match rest with
              | [] => mret value
              | next :: _ =>
                  objValue ← get nested key;
                  if isObject objValue then mret objValue
                  else
                    l ← new_object (new_container (isIndex next));
                    mret (HRef l)
              end;
            assignValue nested key newValue;;
            nested' ← get nested key;
            baseSet nested' rest value
      end
  end.

(** [set(object, path, value)] with the path given as an array. *)
Definition set (object : HVal) (path : list string) (value : HVal)
  : Exec unit :=
  if isObject object then baseSet object path value else mret tt.

(** lodash's [isLength] on what a read of [length] gave. *)
Definition isLength (value : HVal) : bool :=
  match value with
  | HNum n => (n <=? 9007199254740991)%N
  | _ => false
  end.

(** [expandKeys(obj)], for a plain object [obj]: [result] starts as a new
    empty object; lodash's [forEach] visits [obj], and every own property of
    [obj] is set into [result] at the path [key.split('.')]; the reference
    to [result] is returned.  [forEach] takes an object whose [length] reads
    as a length for a list and visits the indices below that length: the
    function given to it then throws at the first index, which is a number
    and has no [split]. *)
Definition expandKeys (obj : loc) : Exec loc :=
  result ← new_object (new_container false);
  length ← get (HRef obj) "length";
  (if isLength length then
     match length with
     | HNum 0 => mret tt
     | _ => throw
     end
   else
     o ← read_object obj;
     forEach
       (fun kp : string * HProp =>
          match kp.2 with
          | Data value _ => set (HRef result) (split_on "." kp.1) value
          | Restricted => throw
          end)
       (h_props o));;
  mret result.

(** *** Reading a result *)

(** The value at the end of a path of own properties (the length of an
    array is not one of them here). *)
Fixpoint own_path (h : gmap loc HObj) (v : HVal) (path : list string) : HVal :=
  match path with
  | [] => v
  | key :: rest =>
      match v with
      | HRef l =>
          match h !! l ≫= (fun o => assoc key (h_props o)) with
          | Some (Data v' _) => own_path h v' rest
          | _ => HUndefined
          end
      | _ => HUndefined
      end
  end.

(** *** The paths on which [set] meets nothing of the engine *)

(** The prototype chain of a container that [set] makes. *)
Definition container_chain (array : bool) : list loc :=
  if array then [Array_prototype realm; Object_prototype realm]
  else [Object_prototype realm].

(** A segment at which [set] makes or finds a container of its own, in a
    container that is an array only if [array] says so: the key is not
    guarded, it is not the length of an array, and no prototype of the
    container has a property of that name. *)
Definition plain_segment (h : gmap loc HObj) (array : bool) (key : string)
  : bool :=
  negb (reserved key)
  && negb (array && String.eqb key "length")
  && negb (bool_decide (is_Some (lookup_chain h (container_chain array) key))).

(** A property that does not keep an assignment from making an own property
    below it. *)
Definition shadowable (p : option HProp) : bool :=
  match p with
  | Some (Data _ writable) => writable
  | Some Restricted => false
  | None => true
  end.

(** A last segment: the value is assigned as an own property also when a
    prototype of the container has a property of that name, if that
    property can be assigned to. *)
Definition last_segment (h : gmap loc HObj) (array : bool) (key : string)
  : bool :=
  negb (reserved key)
  && negb (array && String.eqb key "length")
  && shadowable (lookup_chain h (container_chain false) key)
  && (negb array || shadowable (lookup_chain h (container_chain true) key)).

(** A plain path, from the container that [root] leads to; [arrays] tells
    the containers that can be arrays by the paths that lead to them. *)
Fixpoint plain_from (arrays : list string -> bool) (h : gmap loc HObj)
    (root path : list string) : bool :=
  match path with
  | [] => false
  | [key] => last_segment h (arrays root) key
  | key :: rest =>
      plain_segment h (arrays root) key
      && plain_from arrays h (root ++ [key]) rest
  end.

(** The path [q] makes the container at [p] an array, when that container
    is not there yet: [q] goes through [p] and on with an index.  The result
    itself, at the empty path, is a plain object. *)
Definition makes_array (p q : list string) : bool :=
  match p with
  | [] => false
  | _ :: _ =>
      is_prefix p q
      && match drop (length p) q with
         | next :: _ => isIndex next
         | [] => false
         end
  end.

Definition array_at (paths : list (list string)) (p : list string) : bool :=
  existsb (makes_array p) paths.

(** The paths of the keys of a flat object. *)
Definition key_paths (obj : CustomRepo) : list (list string) :=
  map (fun kv : string * string => split_on "." kv.1) obj.

(** lodash's [forEach] visits the flat object by its properties: the
    [length] of the object, its own or the one that objects inherit, does
    not read as a length, and reading it does not throw. *)
Definition visited_by_keys (h : gmap loc HObj) (obj : CustomRepo) : bool :=
  match assoc "length" obj with
  | Some _ => true
  | None =>
      match lookup_chain h [Object_prototype realm] "length" with
      | Some (Data value _) => negb (isLength value)
      | Some Restricted => false
      | None => true
      end
  end.

(** The flat object is visited by its keys, which all have plain paths. *)
Definition plain_keys (h : gmap loc HObj) (obj : CustomRepo) : bool :=
  visited_by_keys h obj
  && forallb (plain_from (array_at (key_paths obj)) h []) (key_paths obj).

(** The flat objects that are the flattening of a nested one, for the
    engine whose objects the store holds: the paths of their keys are plain
    and none is a prefix of another. *)
Definition flattened (h : gmap loc HObj) (obj : CustomRepo) : bool :=
  plain_keys h obj && pairwise_independent (key_paths obj).

End Lodash.

(** The store holds the flat object [obj] at [l]: a plain object with the
    properties of [obj]. *)
Definition holds_flat (realm : Realm) (h : gmap loc HObj) (l : loc)
    (obj : CustomRepo) : Prop :=
  h !! l =
  Some {| h_array := false; h_length := 0;
          h_proto := [Object_prototype realm];
          h_props :=
            map (fun kv : string * string => (kv.1, Data (HStr kv.2) true))
              obj |}.

(** No property of an object of the store refers to [l]. *)
Definition unreferenced (h : gmap loc HObj) (l : loc) : Prop :=
  forall l' o k w, h !! l' = Some o -> (k, Data (HRef l) w) ∉ h_props o.

(** The two prototypes of the containers are objects of the store. *)
Definition has_prototypes (realm : Realm) (h : gmap loc HObj) : Prop :=
  is_Some (h !! Object_prototype realm) /\ is_Some (h !! Array_prototype realm).

(** A key under which a container gets an own property when it is assigned
    to, for a container that is an array only if [array] says so: the key is
    not the length of an array, and nothing up the chain of the container
    keeps the assignment away. *)
Definition assignable (realm : Realm) (h : gmap loc HObj) (array : bool)
    (key : string) : Prop :=
  (array = true -> key <> "length") /\
  forall a : bool,
    (a = true -> array = true) ->
    shadowable (lookup_chain h (container_chain realm a) key) = true.

(** Wherever a path goes on with an index after some keys, [arrays] allows
    an array at the end of these keys. *)
Definition arrays_cover (arrays : list string -> bool)
    (root path : list string) : Prop :=
  forall before next rest,
    path = before ++ next :: rest -> before <> [] -> isIndex next = true ->
    arrays (root ++ before) = true.

(** The containers made since the store was [h0], each with the path that
    leads to it from the result, kept in [paths]: the objects of [h0] are as
    they were; a container has the chain it was made with and is an array
    only where [arrays] allows one, its properties are writable and hold
    strings or containers, and a container held under a key has the path of
    its holder followed by that key. *)
Record labelled (realm : Realm) (arrays : list string -> bool)
    (h0 h : gmap loc HObj) (paths : gmap loc (list string)) : Prop := {
  labelled_preserves : preserves h0 h;
  labelled_new : forall l, is_Some (paths !! l) -> h0 !! l = None;
  labelled_object :
    forall l path, paths !! l = Some path ->
      exists o,
        h !! l = Some o /\
        h_proto o = container_chain realm (h_array o) /\
        (h_array o = true -> arrays path = true) /\
        forall k p, assoc k (h_props o) = Some p ->
          exists v, p = Data v true /\
            match v with
            | HStr _ => True
            | HRef d => paths !! d = Some (path ++ [k])
            | _ => False
            end }.

(** *** An engine for the closed examples

    A store with the prototypes of objects, arrays, functions, strings and
    numbers and the methods that ECMAScript gives them.  A method is a
    function object with its two own properties, [length] and [name], which
    cannot be assigned to. *)

Definition example_realm : Realm :=
  {| Object_prototype := 1; Array_prototype := 2;
     String_prototype := 3; Number_prototype := 4 |}.

Definition Function_prototype : loc := 5%positive.

Definition method_object (name : string) (arity : N) : HObj :=
  {| h_array := false; h_length := 0;
     h_proto := [Function_prototype; Object_prototype example_realm];
     h_props := [("length", Data (HNum arity) false);
                 ("name", Data (HStr name) false)] |}.

(** The methods of a prototype take the locations from [base] on. *)
Fixpoint method_objects (base : loc) (methods : list (string * N))
  : list (loc * HObj) :=
  match methods with
  | [] => []
  | (name, arity) :: methods' =>
      (base, method_object name arity)
      :: method_objects (Pos.succ base) methods'
  end.

Fixpoint method_properties (base : loc) (methods : list (string * N))
  : list (string * HProp) :=
  match methods with
  | [] => []
  | (name, _) :: methods' =>
      (name, Data (HRef base) true)
      :: method_properties (Pos.succ base) methods'
  end.

Definition object_methods : list (string * N) :=
  [("hasOwnProperty", 1); ("isPrototypeOf", 1); ("propertyIsEnumerable", 1);
   ("toLocaleString", 0); ("toString", 0); ("valueOf", 0);
   ("__defineGetter__", 2); ("__defineSetter__", 2);
   ("__lookupGetter__", 1); ("__lookupSetter__", 1)]%N.

Definition array_methods : list (string * N) :=
  [("at", 1); ("concat", 1); ("copyWithin", 2); ("entries", 0); ("every", 1);
   ("fill", 1); ("filter", 1); ("find", 1); ("findIndex", 1);
   ("findLast", 1); ("findLastIndex", 1); ("flat", 0); ("flatMap", 1);
   ("forEach", 1); ("includes", 1); ("indexOf", 1); ("join", 1); ("keys", 0);
   ("lastIndexOf", 1); ("map", 1); ("pop", 0); ("push", 1); ("reduce", 1);
   ("reduceRight", 1); ("reverse", 0); ("shift", 0); ("slice", 2);
   ("some", 1); ("sort", 1); ("splice", 2); ("toLocaleString", 0);
   ("toReversed", 0); ("toSorted", 1); ("toSpliced", 2); ("toString", 0);
   ("unshift", 1); ("values", 0); ("with", 2)]%N.

Definition string_methods : list (string * N) :=
  [("at", 1); ("charAt", 1); ("charCodeAt", 1); ("codePointAt", 1);
   ("concat", 1); ("endsWith", 1); ("includes", 1); ("indexOf", 1);
   ("isWellFormed", 0); ("lastIndexOf", 1); ("localeCompare", 1);
   ("match", 1); ("matchAll", 1); ("normalize", 0); ("padEnd", 1);
   ("padStart", 1); ("repeat", 1); ("replace", 2); ("replaceAll", 2);
   ("search", 1); ("slice", 2); ("split", 2); ("startsWith", 1);
   ("substring", 2); ("toLocaleLowerCase", 0); ("toLocaleUpperCase", 0);
   ("toLowerCase", 0); ("toString", 0); ("toUpperCase", 0);
   ("toWellFormed", 0); ("trim", 0); ("trimEnd", 0); ("trimStart", 0);
   ("valueOf", 0)]%N.

Definition number_methods : list (string * N) :=
  [("toExponential", 1); ("toFixed", 1); ("toLocaleString", 0);
   ("toPrecision", 1); ("toString", 1); ("valueOf", 0)]%N.

Definition function_methods : list (string * N) :=
  [("apply", 2); ("bind", 1); ("call", 1); ("toString", 0)]%N.

Definition prototype_object (array : bool) (chain : list loc)
    (props : list (string * HProp)) : HObj :=
  {| h_array := array; h_length := 0; h_proto := chain; h_props := props |}.

Definition example_engine : gmap loc HObj :=
  list_to_map
    ([ (1%positive,
        prototype_object false [] (method_properties 100 object_methods));
       (2%positive,
        prototype_object true [1%positive]
          (method_properties 200 array_methods));
       (3%positive,
        prototype_object false [1%positive]
          (("length", Data (HNum 0) false)
           :: method_properties 300 string_methods));
       (4%positive,
        prototype_object false [1%positive]
          (method_properties 400 number_methods));
       (5%positive,
        prototype_object false [1%positive]
          ([("length", Data (HNum 0) false); ("name", Data (HStr "") false);
            ("caller", Restricted); ("arguments", Restricted)]
           ++ method_properties 500 function_methods)) ]
     ++ method_objects 100 object_methods
     ++ method_objects 200 array_methods
     ++ method_objects 300 string_methods
     ++ method_objects 400 number_methods
     ++ method_objects 500 function_methods).

(** The object of a form, stored at a location of its own. *)
Definition form_object (obj : CustomRepo) : HObj :=
  {| h_array := false; h_length := 0;
     h_proto := [Object_prototype example_realm];
     h_props :=
       map (fun kv : string * string => (kv.1, Data (HStr kv.2) true)) obj |}.

Definition with_form (obj : CustomRepo) : gmap loc HObj :=
  <[9%positive := form_object obj]> example_engine.

(** The expansion of a form in the example engine: its result, or [None]
    when it throws, and the store after it. *)
Definition expanded (obj : CustomRepo) : option loc * gmap loc HObj :=
  expandKeys example_realm 9%positive (with_form obj).

(** What a successful expansion holds at a path of own properties. *)
Definition expanded_at (obj : CustomRepo) (path : list string) : option HVal :=
  match expanded obj with
  | (Some result, h) => Some (own_path h (HRef result) path)
  | (None, _) => None
  end.

(** A repository form with nested layout keys. *)
Definition example_repo : CustomRepo :=
  [("name", "symbols"); ("layout.type", "native");
   ("layout.casing", "default"); ("a.b.c", "v")].

(** The example engine after [Object.prototype.form = form], for the form
    at its location. *)
Definition with_form_shared (obj : CustomRepo) : gmap loc HObj :=
  <[1%positive :=
      prototype_object false []
        (("form", Data (HRef 9%positive) true)
         :: method_properties 100 object_methods)]> (with_form obj).

(** The example engine after [Object.freeze(Object.prototype)]: the
    properties of the prototype cannot be assigned to. *)
Definition with_form_frozen (obj : CustomRepo) : gmap loc HObj :=
  <[1%positive :=
      prototype_object false []
        (map (fun kp : string * HProp =>
                (kp.1,
                 match kp.2 with
                 | Data v _ => Data v false
                 | Restricted => Restricted
                 end))
           (method_properties 100 object_methods))]> (with_form obj).

(** The example engine after [Object.prototype.length = 0]. *)
Definition with_form_length (obj : CustomRepo) : gmap loc HObj :=
  <[1%positive :=
      prototype_object false []
        (("length", Data (HNum 0) true)
         :: method_properties 100 object_methods)]> (with_form obj).

(** The properties of the object at [l] after the expansion of the form of
    the store [h], whether it returns or throws. *)
Definition properties_after (h : gmap loc HObj) (l : loc)
  : option (list (string * HProp)) :=
  h_props <$> (expandKeys example_realm 9%positive h).2 !! l.

(** What a successful expansion of the form of the store [h] holds at a
    path of own properties. *)
Definition expanded_in (h : gmap loc HObj) (path : list string)
  : option HVal :=
  match expandKeys example_realm 9%positive h with
  | (Some result, h') => Some (own_path h' (HRef result) path)
  | (None, _) => None
  end.

(** The object [o] holds a reference to [l]. *)
Definition refers_to (o : HObj) (l : loc) : bool :=
  existsb
    (fun kp : string * HProp =>
       match kp.2 with
       | Data (HRef d) _ => Pos.eqb d l
       | _ => false
       end)
    (h_props o).

(** The store [h'] has the objects of [h], and every property under a key
    that lodash guards is in [h'] what it was in [h]: the objects of [h]
    keep theirs and the other objects have none. *)
Definition guarded_kept (h h' : gmap loc HObj) : Prop :=
  (forall l, is_Some (h !! l) -> is_Some (h' !! l)) /\
  forall l o' key,
    h' !! l = Some o' -> reserved key = true ->
    assoc key (h_props o') = h !! l ≫= (fun o => assoc key (h_props o)).

(** A form with a key that tries to reach the prototype of the result. *)
Definition polluting_repo : CustomRepo :=
  [("name", "symbols"); ("__proto__.polluted", "yes");
   ("a.constructor.prototype.x", "w")].

(** The computation [m] keeps the stores in [I], whether it returns or
    throws, and returns values in [Q] only. *)
Definition keeps {A} (I : gmap loc HObj -> Prop) (m : Exec A) (Q : A -> Prop)
  : Prop :=
  forall h, I h -> I (m h).2 /\ forall x, (m h).1 = Some x -> Q x.

(** *** Properties of the path relations *)

Lemma split_on_nonempty sep s : split_on sep s <> [].
Proof.
  induction s as [|c s IH]; simpl; [done|].
  destruct (Ascii.eqb c sep); [done|]. by destruct (split_on sep s).
Qed.

Lemma independent_sym p q : independent p q = independent q p.
Proof. unfold independent. apply andb_comm. Qed.

Lemma independent_cons key p key' q :
  independent (key :: p) (key' :: q) = true ->
  key <> key' \/ (key = key' /\ independent p q = true).
Proof.
  unfold independent. simpl.
  destruct (String.eqb_spec key key') as [->|Hne]; [|by left].
  rewrite String.eqb_refl. simpl. intros H. right. by split.
Qed.

Lemma independent_nil_l q : independent [] q = false.
Proof. done. Qed.

Lemma independent_nil_r p : independent p [] = false.
Proof. rewrite independent_sym. done. Qed.

Lemma pairwise_independent_cons p ps :
  pairwise_independent (p :: ps) = true ->
  (forall q, q ∈ ps -> independent p q = true) /\
  pairwise_independent ps = true.
Proof.
  simpl. rewrite andb_true_iff, forallb_forall. intros [Hall Hps].
  split; [|done]. intros q Hq. apply Hall. by apply list_elem_of_In.
Qed.

(** *** The operations on properties *)

Section LodashProperties.

Variable realm : Realm.

Local Abbreviation get := (get realm).
Local Abbreviation assign := (assign realm).
Local Abbreviation assignValue := (assignValue realm).
Local Abbreviation baseSet := (baseSet realm).
Local Abbreviation set := (set realm).
Local Abbreviation expandKeys := (expandKeys realm).
Local Abbreviation find_property := (find_property realm).

Lemma eq_true_iff v w : eq v w = true <-> v = w.
Proof.
  destruct v, w; simpl; split; try done; try (by intros [= ->]).
  - by intros ->%String.eqb_eq.
  - intros [= ->]. apply String.eqb_refl.
  - by intros ->%N.eqb_eq.
  - intros [= ->]. apply N.eqb_refl.
  - by intros ->%Pos.eqb_eq.
  - intros [= ->]. apply Pos.eqb_refl.
Qed.

(** A property found along a chain is an own property of an object of the
    store. *)
Lemma lookup_chain_Some h chain key p :
  lookup_chain h chain key = Some p ->
  exists l o, l ∈ chain /\ h !! l = Some o /\ own_property o key = Some p.
Proof.
  induction chain as [|l chain IH]; simpl; [done|].
  destruct (h !! l) as [o|] eqn:Hl; simpl.
  - destruct (own_property o key) as [p'|] eqn:Hown.
    + intros [= <-]. exists l, o. split; [apply elem_of_cons; by left|done].
    + intros (l' & o' & Hin & Hrest)%IH. exists l', o'.
      split; [by apply elem_of_cons; right|done].
  - intros (l' & o' & Hin & Hrest)%IH. exists l', o'.
    split; [by apply elem_of_cons; right|done].
Qed.

(** A chain of objects that two stores agree on answers the same in
    both. *)
Lemma lookup_chain_agree h h' chain key :
  (forall l, l ∈ chain -> h' !! l = h !! l) ->
  lookup_chain h' chain key = lookup_chain h chain key.
Proof.
  induction chain as [|l chain IH]; intros Hagree; simpl; [done|].
  rewrite (Hagree l) by (apply elem_of_cons; by left).
  rewrite IH; [done|]. intros l' Hl'. apply Hagree. by apply elem_of_cons; right.
Qed.

Lemma own_property_value o key v w :
  own_property o key = Some (Data v w) ->
  (exists n, v = HNum n) \/ (key, Data v w) ∈ h_props o.
Proof.
  unfold own_property. destruct (h_array o && String.eqb key "length").
  - intros [= <- _]. left. eauto.
  - intros Hassoc%assoc_Some_elem. by right.
Qed.

Lemma string_property_value s key v w :
  string_property s key = Some (Data v w) ->
  (exists n, v = HNum n) \/ (exists t, v = HStr t).
Proof.
  unfold string_property. destruct (String.eqb key "length").
  - intros [= <- _]. left. eauto.
  - destruct (canonical_index key) as [i|]; [|done].
    destruct (i <? utf16_length s)%N; [|done].
    intros [= <- _]. right. eauto.
Qed.

(** What a read finds is a number, a string, nothing, or the value of an own
    property of an object of the store. *)
Lemma find_property_value h object key v w :
  find_property h object key = Some (Some (Data v w)) ->
  (exists n, v = HNum n) \/ (exists t, v = HStr t)
  \/ exists l o, h !! l = Some o /\ (key, Data v w) ∈ h_props o.
Proof.
  assert (Hchain : forall chain,
    lookup_chain h chain key = Some (Data v w) ->
    (exists n, v = HNum n) \/ (exists t, v = HStr t)
    \/ exists l o, h !! l = Some o /\ (key, Data v w) ∈ h_props o).
  { intros chain (l & o & _ & Hl & Hown)%lookup_chain_Some.
    apply own_property_value in Hown as [?|?]; [by left|].
    right; right. eauto. }
  destruct object as [|s|n|l]; unfold CustomRepositories.find_property;
    [done| | |].
  - destruct (string_property s key) as [p|] eqn:Hs.
    + intros [= ->]. apply string_property_value in Hs as [?|?]; eauto.
    + intros [= Hc].
      exact (Hchain [String_prototype realm; Object_prototype realm] Hc).
  - intros [= Hc].
    exact (Hchain [Number_prototype realm; Object_prototype realm] Hc).
  - destruct (h !! l) as [o|] eqn:Hl; cbn [mbind option_bind]; [|done].
    destruct (own_property o key) as [p|] eqn:Hown.
    + intros [= ->]. apply own_property_value in Hown as [?|?]; [by left|].
      right; right. eauto.
    + intros [= Hc]. exact (Hchain (h_proto o) Hc).
Qed.

(** *** Computations *)

Lemma bind_run {A B} (m : Exec A) (k : A -> Exec B) h x h1 :
  m h = (Some x, h1) -> (m ≫= k) h = k x h1.
Proof. intros Hm. unfold mbind, Exec_bind. by rewrite Hm. Qed.

Lemma bind_throw {A B} (m : Exec A) (k : A -> Exec B) h h1 :
  m h = (None, h1) -> (m ≫= k) h = (None, h1).
Proof. intros Hm. unfold mbind, Exec_bind. by rewrite Hm. Qed.

Lemma keeps_ret {A} (I : gmap loc HObj -> Prop) (Q : A -> Prop) x :
  Q x -> keeps I (mret x) Q.
Proof. intros Hx h Hh. split; [done|]. by intros y [= <-]. Qed.

Lemma keeps_throw {A} (I : gmap loc HObj -> Prop) (Q : A -> Prop) :
  keeps I throw Q.
Proof. intros h Hh. by split. Qed.

Lemma keeps_bind {A B} (I : gmap loc HObj -> Prop) (m : Exec A)
    (k : A -> Exec B) (Q : A -> Prop) (R : B -> Prop) :
  keeps I m Q -> (forall x, Q x -> keeps I (k x) R) -> keeps I (m ≫= k) R.
Proof.
  intros Hm Hk h Hh. destruct (Hm h Hh) as [Hh1 Hx].
  destruct (m h) as [[x|] h1] eqn:Hrun.
  - rewrite (bind_run m k h x h1 Hrun). by apply (Hk x); [apply Hx|].
  - rewrite (bind_throw m k h h1 Hrun). by split.
Qed.

Lemma keeps_weaken {A} (I : gmap loc HObj -> Prop) (m : Exec A)
    (Q Q' : A -> Prop) :
  keeps I m Q -> (forall x, Q x -> Q' x) -> keeps I m Q'.
Proof.
  intros Hm HQ h Hh. destruct (Hm h Hh) as [Hh1 Hx].
  split; [done|]. intros x Hrun. by apply HQ, Hx.
Qed.

Lemma keeps_forEach {A} (I : gmap loc HObj -> Prop) (f : A -> Exec unit) xs :
  (forall x, x ∈ xs -> keeps I (f x) (fun _ => True)) ->
  keeps I (forEach f xs) (fun _ => True).
Proof.
  induction xs as [|x xs IH]; intros Hf; cbn [forEach].
  - by apply keeps_ret.
  - apply (keeps_bind I _ _ (fun _ => True)).
    + apply Hf. apply elem_of_cons; by left.
    + intros _ _. apply IH. intros y Hy. apply Hf. by apply elem_of_cons; right.
Qed.

(** A read and a test leave the store as it is. *)
Lemma get_store object key h : (get object key h).2 = h.
Proof.
  unfold CustomRepositories.get.
  by destruct (find_property h object key) as [[[x w|]|]|].
Qed.

Lemma get_returns object key h v :
  (get object key h).1 = Some v ->
  v = HUndefined \/
  exists w, find_property h object key = Some (Some (Data v w)).
Proof.
  unfold CustomRepositories.get.
  destruct (find_property h object key) as [[[x w|]|]|]; try done.
  - intros [= <-]. right. eauto.
  - intros [= <-]. by left.
Qed.

Lemma hasOwnProperty_store object key h : (hasOwnProperty object key h).2 = h.
Proof.
  unfold hasOwnProperty. destruct object as [|s|n|l]; try done.
  by destruct (h !! l).
Qed.

(** What an assignment does to the store, whether it returns or throws:
    nothing, or it replaces the object assigned to by one whose properties
    are among the old ones and the new one. *)
Lemma assign_store object key value h :
  (assign object key value h).2 = h \/
  exists l o o',
    object = HRef l /\ h !! l = Some o /\
    (assign object key value h).2 = <[l := o']> h /\
    h_array o' = h_array o /\ h_proto o' = h_proto o /\
    (forall kp, kp ∈ h_props o' ->
       kp = (key, Data value true) \/ kp ∈ h_props o).
Proof.
  unfold CustomRepositories.assign.
  destruct object as [|s|n|l].
  - by left.
  - by destruct (find_property h (HStr s) key) as [[[]|]|]; left.
  - by destruct (find_property h (HNum n) key) as [[[]|]|]; left.
  - destruct (h !! l) as [o|] eqn:Hl; [|by left].
    destruct (h_array o && String.eqb key "length").
    + destruct (to_length h value) as [n|]; [|by left].
      right. exists l, o, (set_length o n).
      repeat split; try done.
      intros kp Hkp%list_elem_of_In%filter_In. right.
      apply list_elem_of_In. tauto.
    + assert (Hput :
        exists l0 o0 o',
          HRef l = HRef l0 /\ h !! l0 = Some o0 /\
          <[l := put_own o key value]> h = <[l0 := o']> h /\
          h_array o' = h_array o0 /\ h_proto o' = h_proto o0 /\
          (forall kp, kp ∈ h_props o' ->
             kp = (key, Data value true) \/ kp ∈ h_props o0)).
      { exists l, o, (put_own o key value).
        repeat split; try done.
        intros kp Hkp. by apply elem_of_set_prop in Hkp. }
      destruct (assoc key (h_props o)) as [[x [] |]|].
      * by right.
      * by left.
      * by left.
      * destruct (lookup_chain h (h_proto o) key) as [[x [] |]|];
          (by right) || by left.
Qed.

Lemma assignValue_store object key value h :
  (assignValue object key value h).2 = h \/
  (assignValue object key value h).2 = (assign object key value h).2.
Proof.
  unfold CustomRepositories.assignValue.
  pose proof (get_store object key h) as Hget.
  destruct (get object key h) as [[objValue|] h1] eqn:Hrun;
    cbn [snd] in Hget; subst h1.
  - rewrite (bind_run _ _ h objValue h Hrun).
    pose proof (hasOwnProperty_store object key h) as Hown.
    destruct (hasOwnProperty object key h) as [[own|] h1] eqn:Hrun';
      cbn [snd] in Hown; subst h1.
    + rewrite (bind_run _ _ h own h Hrun').
      destruct (own && eq objValue value); [by left|by right].
    + rewrite (bind_throw _ _ h h Hrun'). by left.
  - rewrite (bind_throw _ _ h h Hrun). by left.
Qed.

(** *** The input object is not assigned to *)

Section Untouched.

Variable l : loc.
Variable ol : HObj.

(** The object at [l] is [ol] and nothing refers to it. *)
Let I (h : gmap loc HObj) : Prop := h !! l = Some ol /\ unreferenced h l.

Lemma get_unreferenced object key :
  keeps I (get object key) (fun v => v <> HRef l).
Proof.
  intros h [Hl Hunref]. rewrite get_store. split; [done|].
  intros v [->|[w Hfind]]%get_returns; [done|].
  apply find_property_value in Hfind as [[n ->]|[[t ->]|(l' & o & Hl' & Hin)]];
    [done..|].
  intros ->. by apply (Hunref l' o key w Hl').
Qed.

Lemma assign_untouched object key value :
  object <> HRef l -> value <> HRef l ->
  keeps I (assign object key value) (fun _ => True).
Proof.
  intros Hobject Hvalue h [Hl Hunref]. split; [|done].
  destruct (assign_store object key value h)
    as [->|(l0 & o & o' & -> & Hl0 & -> & _ & _ & Hprops)]; [done|].
  assert (l0 <> l) by congruence. split.
  - by rewrite lookup_insert_ne.
  - intros l' o1 k w Hl' Hin. rewrite lookup_insert in Hl'.
    case_decide as Heq.
    + injection Hl' as <-.
      destruct (Hprops _ Hin) as [[= _ Hv]|Hold]; [by subst value|].
      by apply (Hunref l0 o k w Hl0).
    + by apply (Hunref l' o1 k w Hl').
Qed.

Lemma assignValue_untouched object key value :
  object <> HRef l -> value <> HRef l ->
  keeps I (assignValue object key value) (fun _ => True).
Proof.
  intros Hobject Hvalue h Hh. split; [|done].
  destruct (assignValue_store object key value h) as [->| ->]; [done|].
  by apply (assign_untouched object key value).
Qed.

Lemma new_object_untouched array :
  keeps I (new_object (new_container realm array)) (fun d => d <> l).
Proof.
  intros h [Hl Hunref]. unfold new_object. cbn [fst snd].
  assert (fresh (dom h) <> l).
  { intros Heq. pose proof (fresh_loc_unused h) as Hfresh.
    rewrite Heq in Hfresh. congruence. }
  split; [|by intros d [= <-]]. split; [by rewrite lookup_insert_ne|].
  intros l' o k w Hl' Hin. rewrite lookup_insert in Hl'.
  case_decide; [|by apply (Hunref l' o k w Hl')].
  injection Hl' as <-. by apply elem_of_nil in Hin.
Qed.

Lemma baseSet_untouched path nested value :
  nested <> HRef l -> value <> HRef l ->
  keeps I (baseSet nested path value) (fun _ => True).
Proof.
  revert nested. induction path as [|key rest IH]; intros nested Hnested Hvalue.
  { by apply keeps_ret. }
  cbn [CustomRepositories.baseSet].
  assert (Hgo : keeps I
    (newValue ←
       match rest with
       | [] => mret value
       | next :: _ =>
           objValue ← get nested key;
           if isObject objValue then mret objValue
           else d ← new_object (new_container realm (isIndex next));
                mret (HRef d)
       end;
     assignValue nested key newValue;;
     nested' ← get nested key;
     baseSet nested' rest value) (fun _ => True)).
  { apply (keeps_bind I _ _ (fun v => v <> HRef l)).
    - destruct rest as [|next rest']; [by apply keeps_ret|].
      apply (keeps_bind I _ _ (fun v => v <> HRef l));
        [apply get_unreferenced|].
      intros objValue HobjValue.
      destruct (isObject objValue); [by apply keeps_ret|].
      apply (keeps_bind I _ _ (fun d => d <> l));
        [apply new_object_untouched|].
      intros d Hd. apply keeps_ret. congruence.
    - intros newValue HnewValue.
      apply (keeps_bind I _ _ (fun _ => True));
        [by apply assignValue_untouched|].
      intros _ _.
      apply (keeps_bind I _ _ (fun v => v <> HRef l));
        [apply get_unreferenced|].
      intros nested' Hnested'. by apply IH. }
  destruct nested; [by apply keeps_ret|..];
    (destruct (reserved key); [by apply keeps_ret|exact Hgo]).
Qed.

Lemma read_object_untouched :
  keeps I (read_object l) (fun o => o = ol).
Proof.
  intros h [Hl Hunref]. unfold read_object. rewrite Hl.
  split; [done|]. by intros o [= <-].
Qed.

(** Whatever the keys of the object that [expandKeys] is given, and whether
    the call returns or throws, it leaves that object as it was, provided
    that no object of the store refers to it. *)
Lemma expandKeys_untouched h :
  I h -> I (expandKeys l h).2.
Proof.
  intros Hh.
  assert (Hvalues : forall k v w, (k, Data v w) ∈ h_props ol -> v <> HRef l).
  { intros k v w Hin ->. destruct Hh as [Hl Hunref].
    by apply (Hunref l ol k w Hl). }
  assert (Hkeeps : keeps I (expandKeys l) (fun _ => True)); [|by apply Hkeeps].
  apply (keeps_bind I _ _ (fun d => d <> l));
    [apply new_object_untouched|].
  intros result Hresult.
  apply (keeps_bind I _ _ (fun _ => True)).
  { eapply keeps_weaken; [apply get_unreferenced|done]. }
  intros length _.
  apply (keeps_bind I _ _ (fun _ => True)); [|intros _ _; by apply keeps_ret].
  destruct (isLength length).
  { destruct length as [| |[|n]|]; (by apply keeps_ret) || apply keeps_throw. }
  apply (keeps_bind I _ _ (fun o => o = ol));
    [apply read_object_untouched|].
  intros o ->.
  apply keeps_forEach. intros [k p] Hin. cbn [fst snd].
  destruct p as [v w|]; [|apply keeps_throw].
  unfold CustomRepositories.set.
  destruct (isObject (HRef result)); [|by apply keeps_ret].
  apply baseSet_untouched; [congruence|]. by apply (Hvalues k v w).
Qed.

End Untouched.

(** The result of a call that returns is a new object. *)
Lemma expandKeys_result h l result :
  (expandKeys l h).1 = Some result -> result = fresh (dom h).
Proof.
  unfold CustomRepositories.expandKeys.
  rewrite (bind_run _ _ h (fresh (dom h))
             (<[fresh (dom h) := new_container realm false]> h)) by done.
  unfold mbind at 1, Exec_bind at 1.
  destruct (get (HRef l) "length" _) as [[length|] h1]; [|done].
  unfold mbind at 1, Exec_bind at 1.
  destruct (_ h1) as [[[]|] h2]; [|done].
  by intros [= <-].
Qed.

(** *** Containers made by [set] *)

Section Labelled.

Variable arrays : list string -> bool.
Variable h0 : gmap loc HObj.
Hypothesis Hprototypes : has_prototypes realm h0.

Local Abbreviation labelled := (labelled realm arrays h0).

Lemma lookup_chain_container h paths array key :
  labelled h paths ->
  lookup_chain h (container_chain realm array) key =
  lookup_chain h0 (container_chain realm array) key.
Proof.
  intros Hlab. apply lookup_chain_agree. intros l Hl.
  destruct Hprototypes as [[oo Hoo] [oa Hoa]].
  assert (l = Object_prototype realm \/ l = Array_prototype realm) as [->| ->].
  { destruct array; simpl in Hl;
      repeat (apply elem_of_cons in Hl as [->|Hl]; [tauto|]);
      by apply elem_of_nil in Hl. }
  - rewrite Hoo. by apply (labelled_preserves _ _ _ _ _ Hlab).
  - rewrite Hoa. by apply (labelled_preserves _ _ _ _ _ Hlab).
Qed.

Lemma lookup_chain_object_None key :
  lookup_chain h0 (container_chain realm true) key = None ->
  lookup_chain h0 (container_chain realm false) key = None.
Proof.
  simpl. destruct (h0 !! Array_prototype realm ≫= _); [done|].
  by destruct (h0 !! Object_prototype realm ≫= _).
Qed.

Lemma plain_segment_assignable array key :
  plain_segment realm h0 array key = true ->
  reserved key = false /\ assignable realm h0 array key /\
  forall a : bool,
    (a = true -> array = true) ->
    lookup_chain h0 (container_chain realm a) key = None.
Proof.
  unfold plain_segment.
  rewrite !andb_true_iff, !negb_true_iff.
  intros ((Hres & Hlen) & Hchain).
  apply bool_decide_eq_false in Hchain.
  assert (Hnone : forall a : bool,
            (a = true -> array = true) ->
            lookup_chain h0 (container_chain realm a) key = None).
  { assert (Harray : lookup_chain h0 (container_chain realm array) key = None).
    { destruct (lookup_chain h0 (container_chain realm array) key);
        [by destruct Hchain|done]. }
    intros [|] Ha.
    - by rewrite <- (Ha eq_refl).
    - destruct array; [by apply lookup_chain_object_None|done]. }
  split; [done|]. split; [|done]. split.
  - intros -> ->. done.
  - intros a Ha. by rewrite (Hnone a Ha).
Qed.

Lemma last_segment_assignable array key :
  last_segment realm h0 array key = true ->
  reserved key = false /\ assignable realm h0 array key.
Proof.
  unfold last_segment. rewrite !andb_true_iff, !negb_true_iff.
  intros (((Hres & Hlen) & Hobject) & Harray).
  split; [done|]. split.
  - intros -> ->. done.
  - intros [|] Ha; [|done].
    rewrite (Ha eq_refl) in Harray. done.
Qed.

Lemma array_length_false (o : HObj) path key :
  (h_array o = true -> arrays path = true) ->
  assignable realm h0 (arrays path) key ->
  h_array o && String.eqb key "length" = false.
Proof.
  intros Harray [Hlen _]. destruct (h_array o); [|done].
  apply String.eqb_neq. by apply Hlen, Harray.
Qed.

(** What a read of a container finds under an assignable key. *)
Lemma get_labelled h paths c path o key :
  labelled h paths -> paths !! c = Some path -> h !! c = Some o ->
  assignable realm h0 (arrays path) key ->
  exists v,
    get (HRef c) key h = (Some v, h) /\
    match assoc key (h_props o) with
    | Some p => p = Data v true
    | None =>
        match lookup_chain h0 (container_chain realm (h_array o)) key with
        | Some p => exists w, p = Data v w
        | None => v = HUndefined
        end
    end.
Proof.
  intros Hlab Hc Ho Hkey.
  destruct (labelled_object _ _ _ _ _ Hlab c path Hc)
    as (o' & Ho' & Hchain & Harray & Hprops).
  rewrite Ho in Ho'. injection Ho' as <-.
  pose proof (array_length_false o path key Harray Hkey) as Hlen.
  destruct Hkey as [_ Hshadow].
  unfold CustomRepositories.get, CustomRepositories.find_property.
  rewrite Ho. cbn [mbind option_bind]. unfold own_property.
  rewrite Hlen.
  destruct (assoc key (h_props o)) as [p|] eqn:Hassoc.
  - destruct (Hprops key p Hassoc) as (v & -> & _). by exists v.
  - rewrite Hchain, (lookup_chain_container h paths _ key Hlab).
    specialize (Hshadow (h_array o) Harray).
    destruct (lookup_chain h0 _ key) as [[v w|]|]; [|done|].
    + exists v. split; [done|]. by exists w.
    + by exists HUndefined.
Qed.

(** An assignment to a container under an assignable key gives the
    container an own property with the value and changes nothing else. *)
Lemma assignValue_labelled h paths c path key value :
  labelled h paths -> paths !! c = Some path ->
  assignable realm h0 (arrays path) key ->
  match value with
  | HStr _ => True
  | HRef d => paths !! d = Some (path ++ [key])
  | _ => False
  end ->
  exists h' o o',
    assignValue (HRef c) key value h = (Some tt, h') /\
    labelled h' paths /\
    h !! c = Some o /\ h' !! c = Some o' /\
    (forall l, l <> c -> h' !! l = h !! l) /\
    assoc key (h_props o') = Some (Data value true) /\
    (forall k, k <> key -> assoc k (h_props o') = assoc k (h_props o)).
Proof.
  intros Hlab Hc Hkey Hvalue.
  destruct (labelled_object _ _ _ _ _ Hlab c path Hc)
    as (o & Ho & Hchain & Harray & Hprops).
  destruct (get_labelled h paths c path o key Hlab Hc Ho Hkey)
    as (objValue & Hget & Hfound).
  pose proof (array_length_false o path key Harray Hkey) as Hlen.
  destruct Hkey as [_ Hshadow].
  assert (Hown : own_property o key = assoc key (h_props o)).
  { unfold own_property. by rewrite Hlen. }
  unfold CustomRepositories.assignValue.
  (* the store after an assignment that takes place *)
  set (h' := <[c := put_own o key value]> h).
  assert (Hassigned :
    labelled h' paths /\
    h' !! c = Some (put_own o key value) /\
    (forall l, l <> c -> h' !! l = h !! l) /\
    assoc key (h_props (put_own o key value)) = Some (Data value true) /\
    (forall k, k <> key ->
       assoc k (h_props (put_own o key value)) = assoc k (h_props o))).
  { split; [|split; [|split; [|split]]].
    - split.
      + intros l x Hl. unfold h'. rewrite lookup_insert_ne.
        * by apply (labelled_preserves _ _ _ _ _ Hlab).
        * intros <-.
          rewrite (labelled_new _ _ _ _ _ Hlab c) in Hl; [done|by eexists].
      + apply (labelled_new _ _ _ _ _ Hlab).
      + intros l path' Hl. unfold h'. rewrite lookup_insert.
        case_decide as Heq.
        * subst l. rewrite Hc in Hl. injection Hl as <-.
          exists (put_own o key value). split; [done|]. split; [done|].
          split; [done|].
          intros k p. cbn [put_own h_props]. rewrite assoc_set_prop.
          destruct (String.eqb_spec key k) as [->|Hne].
          -- intros [= <-]. by exists value.
          -- apply Hprops.
        * apply (labelled_object _ _ _ _ _ Hlab l path' Hl).
    - unfold h'. apply lookup_insert_eq.
    - intros l Hl. unfold h'. by rewrite lookup_insert_ne.
    - cbn [put_own h_props]. rewrite assoc_set_prop. by rewrite String.eqb_refl.
    - intros k Hk. cbn [put_own h_props]. rewrite assoc_set_prop.
      apply String.eqb_neq in Hk. rewrite String.eqb_sym in Hk. by rewrite Hk. }
  assert (Hassign : assign (HRef c) key value h = (Some tt, h')).
  { unfold CustomRepositories.assign. rewrite Ho. cbn [mbind option_bind].
    rewrite Hlen.
    destruct (assoc key (h_props o)) as [p|] eqn:Hassoc.
    - by destruct (Hprops key p Hassoc) as (v & -> & _).
    - rewrite Hchain, (lookup_chain_container h paths _ key Hlab).
      specialize (Hshadow (h_array o) Harray).
      by destruct (lookup_chain h0 _ key) as [[v []|]|]. }
  unfold mbind, Exec_bind. rewrite Hget.
  unfold hasOwnProperty. rewrite Ho. cbn [mbind option_bind]. rewrite Hown.
  destruct (bool_decide (is_Some (assoc key (h_props o))) && eq objValue value)
    eqn:Hskip.
  - (* the property is there with this value *)
    apply andb_true_iff in Hskip as [[p Hassoc]%bool_decide_eq_true Heq].
    apply eq_true_iff in Heq. rewrite Hassoc in Hfound. subst p objValue.
    exists h, o, o. split; [done|]. split; [exact Hlab|]. by repeat split.
  - exists h', o, (put_own o key value).
    destruct Hassigned as (? & ? & ? & ? & ?).
    split; [exact Hassign|]. split; [done|]. by repeat split.
Qed.

Lemma labelled_alloc h paths root array :
  labelled h paths ->
  (array = true -> arrays root = true) ->
  let d := fresh (dom h) in
  labelled (<[d := new_container realm array]> h)
    (<[d := root]> paths) /\
  paths !! d = None.
Proof.
  intros Hlab Harray d.
  pose proof (fresh_loc_unused h) as Hfresh. fold d in Hfresh.
  assert (Hd : paths !! d = None).
  { destruct (paths !! d) as [p|] eqn:Hp; [|done].
    destruct (labelled_object _ _ _ _ _ Hlab d p Hp) as (o & Ho & _).
    congruence. }
  split; [|done]. split.
  - intros l o Hl. rewrite lookup_insert_ne.
    + by apply (labelled_preserves _ _ _ _ _ Hlab).
    + intros <-. apply (labelled_preserves _ _ _ _ _ Hlab) in Hl. congruence.
  - intros l [p Hp]. rewrite lookup_insert in Hp. case_decide as Heq.
    + subst l. destruct (h0 !! d) as [o|] eqn:Ho; [|done].
      apply (labelled_preserves _ _ _ _ _ Hlab) in Ho. congruence.
    + apply (labelled_new _ _ _ _ _ Hlab). by eexists.
  - intros l p Hp. rewrite lookup_insert in Hp. rewrite lookup_insert.
    case_decide as Heq.
    + injection Hp as <-.
      exists (new_container realm array). split; [done|].
      split; [by destruct array|]. split; [done|]. intros k x Hk. done.
    + destruct (labelled_object _ _ _ _ _ Hlab l p Hp)
        as (o & Ho & Hchain & Harr & Hprops).
      exists o. split; [done|]. split; [done|]. split; [done|].
      intros k x Hk. destruct (Hprops k x Hk) as (v & -> & Hv).
      exists v. split; [done|]. destruct v as [| | |d']; try done.
      rewrite lookup_insert_ne; [done|]. intros <-. congruence.
Qed.

(** Objects below a container are read the same in two stores that agree
    on the containers below it. *)
Lemma own_path_frame h h' paths q v root :
  labelled h paths ->
  match v with HRef d => paths !! d = Some root | _ => True end ->
  (forall l p, paths !! l = Some p -> root `prefix_of` p -> h' !! l = h !! l) ->
  own_path h' v q = own_path h v q.
Proof.
  intros Hlab. revert v root.
  induction q as [|key rest IH]; intros v root Hv Hframe; [done|].
  destruct v as [| | |d]; try done. cbn [own_path].
  rewrite (Hframe d root Hv) by done.
  destruct (labelled_object _ _ _ _ _ Hlab d root Hv)
    as (o & Ho & _ & _ & Hprops).
  rewrite Ho. cbn [mbind option_bind].
  destruct (assoc key (h_props o)) as [p|] eqn:Hassoc; [|done].
  destruct (Hprops key p Hassoc) as (v' & -> & Hv').
  apply (IH v' (root ++ [key])).
  - by destruct v'.
  - intros l p Hl Hprefix. apply (Hframe l p Hl).
    etrans; [|exact Hprefix]. by apply prefix_app_r.
Qed.

Lemma baseSet_cons c key rest value h :
  reserved key = false ->
  baseSet (HRef c) (key :: rest) value h =
  (newValue ←
     match rest with
     | [] => mret value
     | next :: _ =>
         objValue ← get (HRef c) key;
         if isObject objValue then mret objValue
         else d ← new_object (new_container realm (isIndex next));
              mret (HRef d)
     end;
   assignValue (HRef c) key newValue;;
   nested' ← get (HRef c) key;
   baseSet nested' rest value) h.
Proof. intros Hres. cbn [CustomRepositories.baseSet]. by rewrite Hres. Qed.

Lemma prefix_snoc_length {A} (root p : list A) x :
  (root ++ [x]) `prefix_of` p -> p <> root.
Proof.
  intros [k ->] Heq. apply (f_equal length) in Heq.
  rewrite !length_app in Heq. simpl in Heq. lia.
Qed.

Lemma prefix_snoc_inj {A} (root p : list A) x y :
  (root ++ [x]) `prefix_of` p -> (root ++ [y]) `prefix_of` p -> x = y.
Proof.
  intros [k ->] [k' Heq]. rewrite <-!app_assoc in Heq.
  apply app_inv_head in Heq. by injection Heq.
Qed.

(** One call of [set] on a plain path, from a container: the call returns;
    it changes the container at its first key and, beyond it, containers
    below that key only; the value is then at the path, and what was at an
    independent path is still there. *)
Lemma baseSet_labelled s path :
  forall h paths c root,
    labelled h paths -> paths !! c = Some root ->
    plain_from realm arrays h0 root path = true ->
    arrays_cover arrays root path ->
    exists h' paths',
      baseSet (HRef c) path (HStr s) h = (Some tt, h') /\
      labelled h' paths' /\ paths ⊆ paths' /\
      (forall l p, paths' !! l = Some p -> l <> c ->
         ~ (root ++ take 1 path) `prefix_of` p -> h' !! l = h !! l) /\
      own_path h' (HRef c) path = HStr s /\
      (forall q, independent path q = true ->
         own_path h' (HRef c) q = own_path h (HRef c) q).
Proof.
  induction path as [|key rest IH];
    intros h paths c root Hlab Hc Hplain Hcover; [done|].
  destruct rest as [|next rest'].
  - (* the last key: the value is assigned *)
    cbn [plain_from] in Hplain.
    destruct (last_segment_assignable _ key Hplain) as [Hres Hkey].
    destruct (assignValue_labelled h paths c root key (HStr s) Hlab Hc Hkey I)
      as (h' & o & o' & Hassign & Hlab' & Ho & Ho' & Hothers & Hslot & Hslots).
    destruct (get_labelled h' paths c root o' key Hlab' Hc Ho' Hkey)
      as (v & Hget & _).
    exists h', paths. split; [|split; [done|split; [done|split; [|split]]]].
    + rewrite baseSet_cons by done.
      rewrite (bind_run _ _ h (HStr s) h) by done.
      rewrite (bind_run _ _ h tt h') by done.
      by rewrite (bind_run _ _ h' v h').
    + intros l p _ Hl _. by apply Hothers.
    + cbn [own_path]. rewrite Ho'. cbn [mbind option_bind]. by rewrite Hslot.
    + intros [|k' q'] Hind; [by rewrite independent_nil_r in Hind|].
      apply independent_cons in Hind as [Hne|[_ Hind]]; [|done].
      cbn [own_path]. rewrite Ho, Ho'. cbn [mbind option_bind].
      rewrite Hslots by done.
      destruct (assoc k' (h_props o)) as [p|] eqn:Hassoc; [|done].
      destruct (labelled_object _ _ _ _ _ Hlab c root Hc)
        as (o1 & Ho1 & _ & _ & Hprops).
      rewrite Ho in Ho1. injection Ho1 as <-.
      destruct (Hprops k' p Hassoc) as (v' & -> & Hv').
      apply (own_path_frame h h' paths q' v' (root ++ [k']) Hlab).
      * by destruct v'.
      * intros l p Hl Hprefix. apply Hothers. intros ->.
        rewrite Hc in Hl. injection Hl as <-.
        by apply prefix_snoc_length in Hprefix.
  - (* a key before the last: a container is found or made *)
    cbn [plain_from] in Hplain. apply andb_true_iff in Hplain as [Hkey Hrest].
    destruct (plain_segment_assignable _ key Hkey)
      as (Hres & Hassignable & Hnone).
    assert (Hnext : isIndex next = true -> arrays (root ++ [key]) = true).
    { intros Hindex. by apply (Hcover [key] next rest'). }
    assert (Hcover' : arrays_cover arrays (root ++ [key]) (next :: rest')).
    { intros before k after Heq Hbefore Hindex.
      rewrite <- app_assoc. apply (Hcover (key :: before) k after); [|done..].
      by rewrite Heq. }
    destruct (labelled_object _ _ _ _ _ Hlab c root Hc)
      as (o & Ho & _ & Harray & Hprops).
    destruct (get_labelled h paths c root o key Hlab Hc Ho Hassignable)
      as (objValue & Hget & Hfound).
    rewrite (Hnone (h_array o) Harray) in Hfound.
    (* the container [d], in the store [h1] with the paths [paths1] *)
    assert (exists d h1 paths1,
      (objValue' ← get (HRef c) key;
       if isObject objValue' then mret objValue'
       else d ← new_object (new_container realm (isIndex next));
              mret (HRef d)) h
      = (Some (HRef d), h1) /\
      labelled h1 paths1 /\ paths ⊆ paths1 /\
      paths1 !! d = Some (root ++ [key]) /\ d <> c /\
      (forall l, l <> d -> h1 !! l = h !! l) /\
      (forall l, l <> d -> paths1 !! l = paths !! l) /\
      ((h1 = h /\ assoc key (h_props o) = Some (Data (HRef d) true)) \/
       (h !! d = None /\ h1 !! d = Some (new_container realm (isIndex next)) /\
        forall v w, assoc key (h_props o) = Some (Data v w) ->
                    exists t, v = HStr t)))
      as (d & h1 & paths1 & Hnew & Hlab1 & Hsub1 & Hd & Hdc & Hh1 & Hp1 & Hcase).
    { destruct (assoc key (h_props o)) as [p|] eqn:Hassoc.
      - destruct (Hprops key p Hassoc) as (v & -> & Hv).
        injection Hfound as ->.
        destruct objValue as [|t|n|d]; try done.
        + (* a string is in the way: it is replaced *)
          destruct (labelled_alloc h paths (root ++ [key]) (isIndex next) Hlab
                      Hnext)
            as [Hlab1 Hfresh].
          exists (fresh (dom h)), (<[fresh (dom h) := new_container realm (isIndex next)]> h),
            (<[fresh (dom h) := root ++ [key]]> paths).
          split; [by rewrite (bind_run _ _ h (HStr t) h)|].
          split; [done|]. split; [by apply insert_subseteq|].
          split; [apply lookup_insert_eq|]. split; [congruence|].
          split; [by intros l Hl; rewrite lookup_insert_ne|].
          split; [by intros l Hl; rewrite lookup_insert_ne|].
          right. split; [apply fresh_loc_unused|].
          split; [apply lookup_insert_eq|].
          intros v w [= <- _]. eauto.
        + (* the container is there *)
          exists d, h, paths.
          split; [by rewrite (bind_run _ _ h (HRef d) h)|].
          split; [done|]. split; [done|]. split; [done|].
          split.
          { intros ->. rewrite Hc in Hv. injection Hv as Hv.
            apply (f_equal length) in Hv. rewrite length_app in Hv.
            simpl in Hv. lia. }
          split; [done|]. split; [done|]. by left.
      - subst objValue.
        destruct (labelled_alloc h paths (root ++ [key]) (isIndex next) Hlab
                      Hnext)
          as [Hlab1 Hfresh].
        exists (fresh (dom h)), (<[fresh (dom h) := new_container realm (isIndex next)]> h),
          (<[fresh (dom h) := root ++ [key]]> paths).
        split; [by rewrite (bind_run _ _ h HUndefined h)|].
        split; [done|]. split; [by apply insert_subseteq|].
        split; [apply lookup_insert_eq|]. split; [congruence|].
        split; [by intros l Hl; rewrite lookup_insert_ne|].
        split; [by intros l Hl; rewrite lookup_insert_ne|].
        right. split; [apply fresh_loc_unused|].
        split; [apply lookup_insert_eq|]. done. }
    assert (Hc1 : paths1 !! c = Some root) by (by rewrite Hp1).
    destruct (assignValue_labelled h1 paths1 c root key (HRef d) Hlab1 Hc1
                Hassignable Hd)
      as (h2 & o1 & o2 & Hassign & Hlab2 & Ho1 & Ho2 & Hothers & Hslot & Hslots).
    assert (o1 = o) as -> by (rewrite Hh1 in Ho1 by done; congruence).
    destruct (get_labelled h2 paths1 c root o2 key Hlab2 Hc1 Ho2 Hassignable)
      as (nested' & Hget2 & Hfound2).
    rewrite Hslot in Hfound2. injection Hfound2 as <-.
    destruct (IH h2 paths1 d (root ++ [key]) Hlab2 Hd Hrest Hcover')
      as (h' & paths' & Hrun & Hlab' & Hsub' & Hframe & Hplaced & Hindep).
    assert (Hc' : paths' !! c = Some root).
    { by apply (lookup_weaken _ _ _ _ Hc1). }
    assert (Hd' : paths' !! d = Some (root ++ [key])).
    { by apply (lookup_weaken _ _ _ _ Hd). }
    assert (Hc2 : h' !! c = Some o2).
    { rewrite (Hframe c root Hc') by
        (try done; intros Hprefix%prefix_app_l; by apply prefix_snoc_length in Hprefix).
      done. }
    assert (Hframe' : forall l p, paths' !! l = Some p -> l <> c ->
              ~ (root ++ [key]) `prefix_of` p -> h' !! l = h !! l).
    { intros l p Hl Hlc Hprefix.
      assert (l <> d).
      { intros ->. rewrite Hd' in Hl. injection Hl as <-. by destruct Hprefix. }
      rewrite (Hframe l p Hl) by
        (try done; intros Hlong%prefix_app_l; by destruct Hprefix).
      rewrite Hothers by done. by apply Hh1. }
    exists h', paths'.
    split; [|split; [done|split; [by etrans|split; [exact Hframe'|split]]]].
    + rewrite baseSet_cons by done.
      rewrite (bind_run _ _ h (HRef d) h1) by done.
      rewrite (bind_run _ _ h1 tt h2) by done.
      by rewrite (bind_run _ _ h2 (HRef d) h2).
    + cbn [own_path]. rewrite Hc2. cbn [mbind option_bind]. by rewrite Hslot.
    + intros [|k' q'] Hind; [by rewrite independent_nil_r in Hind|].
      cbn [own_path]. rewrite Hc2, Ho. cbn [mbind option_bind].
      apply independent_cons in Hind as [Hne|[<- Hind]].
      * (* another key of the container *)
        rewrite Hslots by done.
        destruct (assoc k' (h_props o)) as [p|] eqn:Hassoc; [|done].
        destruct (Hprops k' p Hassoc) as (v' & -> & Hv').
        apply (own_path_frame h h' paths q' v' (root ++ [k']) Hlab).
        -- by destruct v'.
        -- intros l p Hl Hprefix.
           apply (Hframe' l p (lookup_weaken _ _ _ _ Hl (transitivity Hsub1 Hsub'))).
           ++ intros ->. rewrite Hc in Hl. injection Hl as <-.
              by apply prefix_snoc_length in Hprefix.
           ++ intros Hprefix'. apply Hne.
              exact (prefix_snoc_inj root p key k' Hprefix' Hprefix).
      * (* below the same key *)
        rewrite Hslot. rewrite (Hindep q' Hind).
        destruct q' as [|k'' q''];
          [by rewrite independent_nil_r in Hind|].
        destruct Hcase as [[-> Hkept]|(Hd0 & Hd1 & Hstring)].
        -- rewrite Hkept.
           destruct (Hprops key _ Hkept) as (? & [= <-] & Hdp).
           apply (own_path_frame h h2 paths (k'' :: q'') (HRef d) (root ++ [key]) Hlab);
             [done|].
           intros l p Hl Hprefix. apply Hothers. intros ->.
           rewrite Hc in Hl. injection Hl as <-.
           by apply prefix_snoc_length in Hprefix.
        -- cbn [own_path]. rewrite Hothers, Hd1 by done.
           cbn [mbind option_bind new_container h_props assoc].
           destruct (assoc key (h_props o)) as [[v w|]|] eqn:Hassoc; [|done..].
           destruct (Hstring v w eq_refl) as [t ->]. done.
Qed.

(** The calls of [set] for the properties of a flat object with plain
    paths, one after the other: they return, and they keep what every
    single call keeps. *)
Lemma forEach_set_labelled
    (J : gmap loc HObj -> CustomRepo -> Prop) (result : loc) :
  (forall h h' done key value,
     J h done ->
     own_path h' (HRef result) (split_on "." key) = HStr value ->
     (forall q, independent (split_on "." key) q = true ->
        own_path h' (HRef result) q = own_path h (HRef result) q) ->
     J h' (done ++ [(key, value)])) ->
  forall obj h paths done,
    labelled h paths -> paths !! result = Some [] ->
    forallb (plain_from realm arrays h0 []) (key_paths obj) = true ->
    Forall (arrays_cover arrays []) (key_paths obj) ->
    J h done ->
    exists h' paths',
      forEach
        (fun kp : string * HProp =>
           match kp.2 with
           | Data value _ => set (HRef result) (split_on "." kp.1) value
           | Restricted => throw
           end)
        (map (fun kv : string * string => (kv.1, Data (HStr kv.2) true)) obj)
        h = (Some tt, h') /\
      labelled h' paths' /\ paths ⊆ paths' /\
      J h' (done ++ obj).
Proof.
  intros Hstep obj.
  induction obj as [|[key value] obj IH];
    intros h paths done Hlab Hresult Hplain Hcover HJ.
  { exists h, paths. rewrite app_nil_r.
    split; [done|]. split; [exact Hlab|]. by split. }
  cbn [key_paths map forallb fst] in Hplain, Hcover.
  apply andb_true_iff in Hplain as [Hkey Hplain].
  apply Forall_cons in Hcover as [Hkeycover Hcover].
  destruct (baseSet_labelled value (split_on "." key) h paths result [] Hlab
              Hresult Hkey Hkeycover)
    as (h1 & paths1 & Hrun & Hlab1 & Hsub1 & _ & Hplaced & Hindep).
  destruct (IH h1 paths1 (done ++ [(key, value)]) Hlab1
              (lookup_weaken _ _ _ _ Hresult Hsub1) Hplain Hcover
              (Hstep h h1 done key value HJ Hplaced Hindep))
    as (h' & paths' & Hfold & Hlab' & Hsub' & HJ').
  exists h', paths'. rewrite <-app_assoc in HJ'.
  split; [|split; [done|split; [by etrans|done]]].
  cbn [map forEach fst snd]. by rewrite (bind_run _ _ h tt h1).
Qed.

Lemma own_path_app h v p q :
  own_path h v (p ++ q) = own_path h (own_path h v p) q.
Proof.
  revert v. induction p as [|key p IH]; intros v; [done|].
  cbn [app own_path].
  destruct v as [| | |l]; try by destruct q.
  destruct (h !! l ≫= _) as [[v' w|]|]; by (apply IH || destruct q).
Qed.

Lemma own_path_primitive h v q :
  (forall l, v <> HRef l) -> q <> [] -> own_path h v q = HUndefined.
Proof. intros Hv Hq. destruct q; [done|]. by destruct v as [| | |l]; [..|destruct (Hv l)]. Qed.

End Labelled.

Lemma labelled_start arrays h : labelled realm arrays h h ∅.
Proof.
  split.
  - apply preserves_refl.
  - intros l [p Hp]. by rewrite lookup_empty in Hp.
  - intros l p Hp. by rewrite lookup_empty in Hp.
Qed.

Lemma assoc_flat key (obj : CustomRepo) :
  assoc key (map (fun kv : string * string => (kv.1, Data (HStr kv.2) true)) obj)
  = (fun value => Data (HStr value) true) <$> assoc key obj.
Proof.
  induction obj as [|[k v] obj IH]; [done|]. cbn [map assoc fst snd].
  by destruct (String.eqb k key).
Qed.

(** The read of the length of a flat object that is visited by its keys. *)
Lemma get_length_flat h h1 l obj :
  holds_flat realm h1 l obj ->
  (forall d, d ∈ [Object_prototype realm] -> h1 !! d = h !! d) ->
  visited_by_keys realm h obj = true ->
  exists length,
    get (HRef l) "length" h1 = (Some length, h1) /\ isLength length = false.
Proof.
  intros Hobj Hagree Hvisited.
  unfold CustomRepositories.get, CustomRepositories.find_property.
  rewrite Hobj. cbn [mbind option_bind]. unfold own_property.
  cbn [h_array h_props h_proto andb]. rewrite assoc_flat.
  unfold visited_by_keys in Hvisited.
  destruct (assoc "length" obj) as [s|]; cbn [fmap option_fmap option_map].
  { by exists (HStr s). }
  rewrite (lookup_chain_agree h h1 _ "length" Hagree).
  destruct (lookup_chain h [Object_prototype realm] "length")
    as [[value w|]|]; [|done|].
  - exists value. split; [done|]. by apply negb_true_iff.
  - by exists HUndefined.
Qed.

Lemma is_prefix_app (p q : list string) : is_prefix p (p ++ q) = true.
Proof.
  induction p as [|a p IH]; [done|]. simpl. by rewrite String.eqb_refl.
Qed.

(** The arrays that the keys of a flat object can make cover the paths of
    these keys. *)
Lemma array_at_cover (paths : list (list string)) q :
  q ∈ paths -> arrays_cover (array_at paths) [] q.
Proof.
  intros Hq before next rest -> Hbefore Hindex. cbn [app].
  unfold array_at. apply existsb_exists.
  exists (before ++ next :: rest). split; [by apply list_elem_of_In|].
  unfold makes_array. destruct before as [|a before]; [done|].
  rewrite is_prefix_app. by rewrite drop_app_length.
Qed.

(** [expandKeys] on a flat object with plain paths: the call returns a new
    object, changes no object that existed, and ends in a store with every
    property that the single calls of [set] keep. *)
Lemma expandKeys_plain (J : gmap loc HObj -> CustomRepo -> Prop) h l obj :
  has_prototypes realm h -> holds_flat realm h l obj ->
  plain_keys realm h obj = true ->
  (forall h1 h2 done key value,
     J h1 done ->
     own_path h2 (HRef (fresh (dom h))) (split_on "." key) = HStr value ->
     (forall q, independent (split_on "." key) q = true ->
        own_path h2 (HRef (fresh (dom h))) q
        = own_path h1 (HRef (fresh (dom h))) q) ->
     J h2 (done ++ [(key, value)])) ->
  J (<[fresh (dom h) := new_container realm false]> h) [] ->
  exists h',
    expandKeys l h = (Some (fresh (dom h)), h') /\
    preserves h h' /\ h !! fresh (dom h) = None /\ J h' obj.
Proof.
  intros Hprototypes Hobj [Hvisited Hplain]%andb_true_iff Hstep Hstart.
  set (arrays := array_at (key_paths obj)).
  assert (Hcover : Forall (arrays_cover arrays []) (key_paths obj)).
  { apply Forall_forall. intros q Hq. by apply array_at_cover. }
  destruct (labelled_alloc arrays h h ∅ [] false (labelled_start arrays h))
    as [Hlab _]; [done|].
  destruct (forEach_set_labelled arrays h Hprototypes J (fresh (dom h)) Hstep
              obj _ _ [] Hlab (lookup_insert_eq _ _ _) Hplain Hcover Hstart)
    as (h' & paths' & Hfold & Hlab' & _ & HJ).
  exists h'. split; [|split; [|split]].
  - unfold CustomRepositories.expandKeys.
    rewrite (bind_run _ _ h (fresh (dom h))
               (<[fresh (dom h) := new_container realm false]> h)) by done.
    assert (Hfresh : forall d o, h !! d = Some o -> d <> fresh (dom h)).
    { intros d o Hd Heq. pose proof (fresh_loc_unused h) as Hnone.
      rewrite <- Heq in Hnone. congruence. }
    assert (Hobj1 :
      holds_flat realm (<[fresh (dom h) := new_container realm false]> h)
        l obj).
    { unfold holds_flat. rewrite lookup_insert_ne; [done|].
      intros Heq. by apply (Hfresh l _ Hobj). }
    destruct (get_length_flat h _ l obj Hobj1) as (length & Hget & Hlength);
      [|done|].
    { intros d ->%list_elem_of_singleton.
      destruct Hprototypes as [[o Ho] _].
      rewrite lookup_insert_ne; [done|]. intros Heq. by apply (Hfresh _ o Ho). }
    rewrite (bind_run _ _ _ _ _ Hget). rewrite Hlength.
    assert (Hread :
      read_object l (<[fresh (dom h) := new_container realm false]> h)
      = (Some {| h_array := false; h_length := 0;
                 h_proto := [Object_prototype realm];
                 h_props :=
                   map (fun kv : string * string =>
                          (kv.1, Data (HStr kv.2) true)) obj |},
         <[fresh (dom h) := new_container realm false]> h)).
    { unfold read_object. by rewrite Hobj1. }
    assert (Hvisit :
      (o ← read_object l;
       forEach
         (fun kp : string * HProp =>
            match kp.2 with
            | Data value _ =>
                set (HRef (fresh (dom h))) (split_on "." kp.1) value
            | Restricted => throw
            end)
         (h_props o))
        (<[fresh (dom h) := new_container realm false]> h) = (Some tt, h')).
    { rewrite (bind_run _ _ _ _ _ Hread). exact Hfold. }
    by rewrite (bind_run _ _ _ tt h' Hvisit).
  - apply (labelled_preserves _ _ _ _ _ Hlab').
  - apply fresh_loc_unused.
  - exact HJ.
Qed.

Lemma pairwise_independent_snoc ps p :
  pairwise_independent (ps ++ [p]) = true ->
  pairwise_independent ps = true /\
  forall q, q ∈ ps -> independent p q = true.
Proof.
  induction ps as [|p0 ps IH]; cbn [app].
  - intros _. split; [done|]. by intros q ?%elem_of_nil.
  - intros [Hfirst Hrest]%pairwise_independent_cons.
    destruct (IH Hrest) as [Hps Hlast]. split.
    + cbn [pairwise_independent]. rewrite Hps, andb_true_r.
      apply forallb_forall. intros q Hq%list_elem_of_In.
      apply Hfirst. apply elem_of_app. by left.
    + intros q [->|Hq]%elem_of_cons; [|by apply Hlast].
      rewrite independent_sym. apply Hfirst.
      apply elem_of_app. right. by apply list_elem_of_singleton.
Qed.

(** Two paths are the same, or independent, or one goes on where the other
    stops. *)
Lemma path_cases (p q : list string) :
  p = q \/ independent p q = true
  \/ (exists r, r <> [] /\ p = q ++ r) \/ (exists r, r <> [] /\ q = p ++ r).
Proof.
  revert q. induction p as [|a p IH]; intros [|b q].
  - by left.
  - right; right; right. by exists (b :: q).
  - right; right; left. by exists (a :: p).
  - destruct (String.eqb_spec a b) as [->|Hne].
    + destruct (IH q) as [->|[Hind|[(r & Hr & ->)|(r & Hr & ->)]]].
      * by left.
      * right; left. unfold independent in *. simpl.
        by rewrite String.eqb_refl.
      * right; right; left. by exists r.
      * right; right; right. by exists r.
    + right; left. unfold independent. simpl.
      apply String.eqb_neq in Hne. rewrite Hne.
      rewrite String.eqb_sym in Hne. by rewrite Hne.
Qed.


End LodashProperties.

Lemma unreferenced_check (h : gmap loc HObj) (l : loc) :
  forallb (fun lo : loc * HObj => negb (refers_to lo.2 l)) (map_to_list h)
  = true ->
  unreferenced h l.
Proof.
  intros Hall l' o k w Hl' Hin.
  rewrite forallb_forall in Hall.
  specialize (Hall (l', o)). cbn in Hall.
  rewrite <- list_elem_of_In, elem_of_map_to_list in Hall.
  specialize (Hall Hl'). apply negb_true_iff in Hall.
  assert (Hrefers : refers_to o l = true); [|congruence].
  apply existsb_exists. exists (k, Data (HRef l) w).
  split; [by apply list_elem_of_In|]. cbn. apply Pos.eqb_refl.
Qed.


(** The example of the specification: one key ["a.b.c"]. *)
Example expandKeys_single_key value :
  expanded_at [("a.b.c", value)] ["a"; "b"; "c"] = Some (HStr value) /\
  expanded_at [("a.b.c", value)] ["a"; "b"; "c"; "d"] = Some HUndefined /\
  expanded_at [("a.b.c", value)] ["b"] = Some HUndefined.
Proof. by vm_compute. Qed.

(** Keys that name a method of [Object.prototype] at the end, the length of
    a plain object, or a method of [Array.prototype] in a plain object, are
    the keys of a flattened object, and they get own properties like any
    other. *)
Example expandKeys_inherited_name :
  let obj :=
    [("toString", "v"); ("a.valueOf", "w"); ("length", "5");
     ("a.length.b", "6"); ("a.map.x", "y"); ("b.0", "z"); ("b.map", "m")] in
  flattened example_realm (with_form obj) obj = true /\
  expanded_at obj ["toString"] = Some (HStr "v") /\
  expanded_at obj ["a"; "valueOf"] = Some (HStr "w") /\
  expanded_at obj ["length"] = Some (HStr "5") /\
  expanded_at obj ["a"; "length"; "b"] = Some (HStr "6") /\
  expanded_at obj ["a"; "map"; "x"] = Some (HStr "y") /\
  expanded_at obj ["b"; "0"] = Some (HStr "z") /\
  expanded_at obj ["b"; "map"] = Some (HStr "m").
Proof. by vm_compute. Qed.

(** A path that goes on after the name of a method is set into the method,
    which all objects share: the function object of [toString] (at 104 in
    the example engine) gets the property, and its own name, which cannot
    be assigned to, keeps its value. *)
Example expandKeys_through_method :
  properties_after (with_form [("toString.x", "v")]) 104%positive
  = Some [("length", Data (HNum 0) false);
          ("name", Data (HStr "toString") false);
          ("x", Data (HStr "v") true)] /\
  expanded_at [("toString.name", "v")] ["toString"; "name"]
  = Some (HStr "toString").
Proof. by vm_compute. Qed.


(** *** More on [expandKeys] *)





(** *** The guarded keys *)

Lemma guarded_kept_refl (h : gmap loc HObj) : guarded_kept h h.
Proof. split; [done|]. intros l o' key Hl _. by rewrite Hl. Qed.

Lemma guarded_kept_trans (h1 h2 h3 : gmap loc HObj) :
  guarded_kept h1 h2 -> guarded_kept h2 h3 -> guarded_kept h1 h3.
Proof.
  intros [Hdom12 Hkept12] [Hdom23 Hkept23]. split.
  - intros l Hl. by apply Hdom23, Hdom12.
  - intros l o3 key Hl3 Hkey. rewrite (Hkept23 l o3 key Hl3 Hkey).
    destruct (h2 !! l) as [o2|] eqn:Hl2; cbn.
    + by apply Hkept12.
    + destruct (h1 !! l) as [o1|] eqn:Hl1; [|done].
      destruct (Hdom12 l) as [o2 Ho2]; [by eexists|]. congruence.
Qed.

Lemma guarded_kept_insert (h : gmap loc HObj) l o o' :
  h !! l = Some o ->
  (forall key, reserved key = true ->
     assoc key (h_props o') = assoc key (h_props o)) ->
  guarded_kept h (<[l := o']> h).
Proof.
  intros Hl Hprops. split.
  - intros l' Hl'. rewrite lookup_insert. by case_decide.
  - intros l' o1 key Hl' Hkey. rewrite lookup_insert in Hl'.
    case_decide as Heq.
    + injection Hl' as <-. subst l'. rewrite Hl. cbn. by apply Hprops.
    + by rewrite Hl'.
Qed.

Lemma reserved_not_index key : reserved key = true -> array_index key = None.
Proof.
  unfold reserved.
  intros [[->%String.eqb_eq| ->%String.eqb_eq]%orb_true_iff
         | ->%String.eqb_eq]%orb_true_iff; reflexivity.
Qed.

Lemma assoc_filter {V} (f : string * V -> bool) key (props : list (string * V)) :
  (forall v, f (key, v) = true) ->
  assoc key (List.filter f props) = assoc key props.
Proof.
  intros Hf. induction props as [|[k v] props IH]; [done|].
  cbn [List.filter assoc].
  destruct (String.eqb_spec k key) as [->|Hne].
  - rewrite Hf. cbn [assoc]. by rewrite String.eqb_refl.
  - destruct (f (k, v)); [|done]. cbn [assoc].
    by apply String.eqb_neq in Hne as ->.
Qed.

Section GuardedKeys.

Variable realm : Realm.
Variable h0 : gmap loc HObj.

(** The guarded properties are what they were in [h0]. *)
Let I (h : gmap loc HObj) : Prop := guarded_kept h0 h.

Lemma guarded_step {A} (m : Exec A) :
  (forall h, guarded_kept h (m h).2) -> keeps I m (fun _ => True).
Proof.
  intros Hm h Hh. split; [|done].
  exact (guarded_kept_trans _ _ _ Hh (Hm h)).
Qed.

Lemma get_guarded object key :
  keeps I (get realm object key) (fun _ => True).
Proof.
  apply guarded_step. intros h. rewrite get_store. apply guarded_kept_refl.
Qed.

Lemma assign_guarded object key value :
  reserved key = false ->
  keeps I (assign realm object key value) (fun _ => True).
Proof.
  intros Hkey. apply guarded_step. intros h. unfold assign.
  destruct object as [|s|n|l].
  - apply guarded_kept_refl.
  - destruct (find_property realm h (HStr s) key) as [[[]|]|];
      apply guarded_kept_refl.
  - destruct (find_property realm h (HNum n) key) as [[[]|]|];
      apply guarded_kept_refl.
  - destruct (h !! l) as [o|] eqn:Hl; [|apply guarded_kept_refl].
    destruct (h_array o && String.eqb key "length").
    + destruct (to_length h value) as [n|]; [|apply guarded_kept_refl].
      apply (guarded_kept_insert h l o _ Hl).
      intros k Hk. cbn [set_length h_props]. apply assoc_filter.
      intros v. cbn [fst]. by rewrite (reserved_not_index k Hk).
    + assert (Hput : guarded_kept h (<[l := put_own o key value]> h)).
      { apply (guarded_kept_insert h l o _ Hl).
        intros k Hk. cbn [put_own h_props]. rewrite assoc_set_prop.
        destruct (String.eqb_spec key k) as [->|]; [congruence|done]. }
      destruct (match assoc key (h_props o) with
                | Some p => Some p
                | None => lookup_chain h (h_proto o) key
                end) as [[v []|]|]; done || apply guarded_kept_refl.
Qed.

Lemma assignValue_guarded object key value :
  reserved key = false ->
  keeps I (assignValue realm object key value) (fun _ => True).
Proof.
  intros Hkey h Hh. split; [|done].
  destruct (assignValue_store realm object key value h) as [->| ->]; [done|].
  by apply (assign_guarded object key value).
Qed.

Lemma new_object_guarded array :
  keeps I (new_object (new_container realm array)) (fun _ => True).
Proof.
  apply guarded_step. intros h. unfold new_object. cbn [snd].
  pose proof (fresh_loc_unused h) as Hfresh. split.
  - intros l Hl. rewrite lookup_insert_ne; [done|].
    intros <-. rewrite Hfresh in Hl. by destruct Hl.
  - intros l o' key Hl _. rewrite lookup_insert in Hl. case_decide as Heq.
    + injection Hl as <-. subst l. by rewrite Hfresh.
    + by rewrite Hl.
Qed.

Lemma baseSet_guarded path nested value :
  keeps I (baseSet realm nested path value) (fun _ => True).
Proof.
  revert nested. induction path as [|key rest IH]; intros nested.
  { by apply keeps_ret. }
  cbn [baseSet].
  destruct nested; [by apply keeps_ret|..];
    (destruct (reserved key) eqn:Hkey; [by apply keeps_ret|]);
    (apply (keeps_bind I _ _ (fun _ => True));
     [destruct rest as [|next rest'];
      [by apply keeps_ret|
       apply (keeps_bind I _ _ (fun _ => True)); [apply get_guarded|];
       intros objValue _; destruct (isObject objValue);
       [by apply keeps_ret|];
       apply (keeps_bind I _ _ (fun _ => True)); [apply new_object_guarded|];
       intros d _; by apply keeps_ret]
     |intros newValue _;
      apply (keeps_bind I _ _ (fun _ => True));
      [by apply assignValue_guarded|];
      intros _ _;
      apply (keeps_bind I _ _ (fun _ => True)); [apply get_guarded|];
      intros nested' _; apply IH]).
Qed.

Lemma expandKeys_guarded l : keeps I (expandKeys realm l) (fun _ => True).
Proof.
  apply (keeps_bind I _ _ (fun _ => True)); [apply new_object_guarded|].
  intros result _.
  apply (keeps_bind I _ _ (fun _ => True)); [apply get_guarded|].
  intros length _.
  apply (keeps_bind I _ _ (fun _ => True)); [|intros _ _; by apply keeps_ret].
  destruct (isLength length).
  { destruct length as [| |[|n]|]; (by apply keeps_ret) || apply keeps_throw. }
  apply (keeps_bind I _ _ (fun _ => True)).
  { apply guarded_step. intros h. unfold read_object.
    destruct (h !! l); apply guarded_kept_refl. }
  intros o _.
  apply keeps_forEach. intros [k p] _. cbn [fst snd].
  destruct p as [v w|]; [|apply keeps_throw].
  unfold set. destruct (isObject (HRef result)); [|by apply keeps_ret].
  apply baseSet_guarded.
Qed.

End GuardedKeys.

(** [expandKeys] makes and changes no property under a guarded key: whatever
    the keys of the object at [l], and whether the call returns or throws,
    every object that existed is still there after the call, and the own
    property named [__proto__], [constructor] or [prototype] of any object
    is what it was before the call: untouched in an object that existed,
    absent in the result and in the containers that [set] has made. *)
Theorem expandKeys_never_writes_guarded (realm : Realm) (h : gmap loc HObj)
    (l : loc) :
  let h' := (expandKeys realm l h).2 in
  (forall l', is_Some (h !! l') -> is_Some (h' !! l')) /\
  forall l' o' key,
    h' !! l' = Some o' -> reserved key = true ->
    assoc key (h_props o') = h !! l' ≫= (fun o => assoc key (h_props o)).
Proof.
  exact (proj1 (expandKeys_guarded realm h l h (guarded_kept_refl h))).
Qed.

(** A form with a key that tries to reach the prototype of the result, and
    one that tries to reach the prototype of a constructor: nothing is
    written there, and [Object.prototype] has the properties it had. *)
Example expandKeys_polluting_repo :
  expanded_at polluting_repo ["name"] = Some (HStr "symbols") /\
  expanded_at polluting_repo ["__proto__"] = Some HUndefined /\
  expanded_at polluting_repo ["a"; "constructor"] = Some HUndefined /\
  properties_after (with_form polluting_repo) 1%positive
  = h_props <$> example_engine !! 1%positive.
Proof. by vm_compute. Qed.

End CustomRepositories.
